(** * TopstepX -> Notion synchronisation: a shallow embedding

    The development embeds the algorithmic core of the repository:

    - [roundtrip_transformer.py]: pairing of half-turn trades into round
      trips ([RoundtripTransformer.transform]), the derived fields of a round
      trip ([_create_roundtrip]) and the summary statistics
      ([get_statistics]);
    - [notion_client.py]: the synchronisation pass ([sync_roundtrips]) with
      the existence query ([get_existing_roundtrip_ids]) and the page
      creation ([create_roundtrip_entry]);
    - [main.py]: the periodic scheduler ([AutoSyncManager]).

    Python values are modelled as follows.  [int] is [Z]; [float] is the
    kernel's binary64 type [float] with its IEEE operations; [str] is
    [string] (a byte string: the UTF-8 encoding, whose byte order is the
    code-point order Python compares by); a raised exception is [None] in
    the [option] monad; a list is [list]; the set of existing keys is a
    [gset string]; objects mutated in place are threaded explicitly. *)

From Stdlib Require Import ZArith Floats String Ascii List Permutation Sorted Lia Bool.
From Stdlib Require Import OrdersEx.
From stdpp Require Import base option list strings pretty gmap.

Local Open Scope Z_scope.

(** ** Python floating-point helpers *)

Module PyFloat.

Definition fzero : float := 0%float.

(** [float(n)] for an integer [n]: the nearest binary64 value, ties to even. *)
Definition Z2SF (n : Z) : spec_float :=
  match n with
  | Z0 => S754_zero false
  | Zpos p => S754_finite false p 0
  | Zneg p => S754_finite true p 0
  end.

Definition of_Z (n : Z) : float :=
  SF2Prim (binary_normalize prec emax n 0 false).

(** [a / b] on two integers (true division): the correctly rounded quotient.
    [None] stands for [ZeroDivisionError] and for the [OverflowError] raised
    when the quotient does not fit a float. *)
Definition int_truediv (a b : Z) : option float :=
  if b =? 0 then None
  else
    match SFdiv prec emax (Z2SF a) (Z2SF b) with
    | S754_infinity _ => None
    | q => Some (SF2Prim q)
    end.

(** [int(x)]: truncation toward zero; [None] stands for the error raised on
    an infinity or a NaN. *)
Definition to_int (x : float) : option Z :=
  match Prim2SF x with
  | S754_zero _ => Some 0
  | S754_finite s m e =>
      let a := if 0 <=? e then Z.pos m * 2 ^ e else Z.pos m / 2 ^ (- e) in
      Some (if s then - a else a)
  | _ => None
  end.

(** Nearest integer to [n / d] ([d > 0], [n >= 0]), ties to even. *)
Definition div_half_even (n d : Z) : Z :=
  let q := n / d in
  let r := n mod d in
  match 2 * r ?= d with
  | Lt => q
  | Gt => q + 1
  | Eq => if Z.even q then q else q + 1
  end.

(** [round(x, ndigits)] for [ndigits >= 0].  CPython prints [x] to [ndigits]
    decimals, correctly rounded on the exact value of [x] with ties to even,
    and reads the decimal string back as the nearest float; infinities and
    NaN round to themselves, and the sign of [x] is kept on a zero result. *)
Definition round (x : float) (ndigits : Z) : float :=
  match Prim2SF x with
  | S754_finite s m e =>
      let p := 10 ^ ndigits in
      let n := if 0 <=? e then Z.pos m * 2 ^ e * p
               else div_half_even (Z.pos m * p) (2 ^ (- e)) in
      match n with
      | Zpos n' => SF2Prim (SFdiv prec emax (S754_finite s n' 0) (Z2SF p))
      | _ => SF2Prim (S754_zero s)
      end
  | _ => x
  end.

(** [sum(xs)] over floats: the additions are done left to right from [0]
    (CPython from 3.12 on also carries a compensation term, which can
    change the last bits of a sum of several items). *)
Definition sum (xs : list float) : float :=
  fold_left PrimFloat.add xs fzero.

(** [max(xs)] and [min(xs)] on a non-empty sequence: the running value is
    replaced when the next item is strictly greater (smaller). *)
Definition max_from (x : float) (xs : list float) : float :=
  fold_left (fun m y => if PrimFloat.ltb m y then y else m) xs x.

Definition min_from (x : float) (xs : list float) : float :=
  fold_left (fun m y => if PrimFloat.ltb y m then y else m) xs x.

End PyFloat.

(** ** What the code takes from the Python runtime

    [datetime.strptime], [datetime.fromisoformat], the subtraction of two
    [datetime] values and [str.upper] are library functions, not code of
    the repository: they are an interface here.  [None] stands for the
    exception the call raises ([ValueError] on a string that does not parse;
    [TypeError] when an offset-aware value is subtracted from a naive one). *)

Class PyRuntime := {
  datetime : Type;
  strptime : string -> string -> option datetime;
  fromisoformat : string -> option datetime;
  (** [seconds_between a b] is [int((a - b).total_seconds())]. *)
  seconds_between : datetime -> datetime -> option Z;
  str_upper : string -> string;
}.

(** ** String helpers (the [str] methods the code calls)

    A string of the model is the UTF-8 text of Python's [str].  A
    character is a byte that is no continuation byte ([10xxxxxx])
    together with the continuation bytes that follow it; searching,
    splitting and comparing give the same on the bytes as on the
    characters, counting and slicing do not. *)

Module PyStr.

Definition is_continuation (a : ascii) : bool :=
  let n := N_of_ascii a in ((128 <=? n) && (n <=? 191))%N.

(** [len(s)]: the number of characters. *)
Fixpoint len (s : string) : nat :=
  match s with
  | EmptyString => O
  | String a rest => ((if is_continuation a then 0 else 1) + len rest)%nat
  end.

(** The continuation bytes at the head of a string, and what follows
    them. *)
Fixpoint take_continuation (s : string) : string :=
  match s with
  | EmptyString => EmptyString
  | String a rest =>
      if is_continuation a then String a (take_continuation rest) else EmptyString
  end.

Fixpoint skip_continuation (s : string) : string :=
  match s with
  | EmptyString => EmptyString
  | String a rest => if is_continuation a then skip_continuation rest else s
  end.

(** [s[n:]] and [s[:n]] for [n >= 0]. *)
Fixpoint drop_chars (n : nat) (s : string) : string :=
  match n, s with
  | O, _ => s
  | S _, EmptyString => EmptyString
  | S n', String _ rest => drop_chars n' (skip_continuation rest)
  end.

Fixpoint take_chars (n : nat) (s : string) : string :=
  match n, s with
  | O, _ => EmptyString
  | S _, EmptyString => EmptyString
  | S n', String a rest =>
      String a (String.append (take_continuation rest)
                              (take_chars n' (skip_continuation rest)))
  end.

(** [s[start:stop]] for [0 <= start <= stop]. *)
Definition slice (start stop : nat) (s : string) : string :=
  take_chars (stop - start) (drop_chars start s).

(** [needle in hay]. *)
Fixpoint contains (needle hay : string) : bool :=
  String.prefix needle hay ||
  match hay with
  | EmptyString => false
  | String _ rest => contains needle rest
  end.

(** [s.split(c)] for a one-character separator. *)
Fixpoint split (c : ascii) (s : string) : list string :=
  match s with
  | EmptyString => [EmptyString]
  | String a rest =>
      if Ascii.eqb a c then EmptyString :: split c rest
      else
        match split c rest with
        | [] => [String a EmptyString]
        | w :: ws => String a w :: ws
        end
  end.

(** [sep.join(parts)]. *)
Fixpoint join (sep : string) (parts : list string) : string :=
  match parts with
  | [] => EmptyString
  | [w] => w
  | w :: ws => w +:+ sep +:+ join sep ws
  end.

(** [s.rsplit(c, 1)[0]]: what stands before the last [c] (all of [s] when
    [c] does not occur). *)
Definition rsplit1_head (c : ascii) (s : string) : string :=
  match split c s with
  | [] => s
  | [w] => w
  | parts => join (String c EmptyString) (removelast parts)
  end.

(** [s.endswith(c)]. *)
Fixpoint endswith (c : ascii) (s : string) : bool :=
  match s with
  | EmptyString => false
  | String a EmptyString => Ascii.eqb a c
  | String _ rest => endswith c rest
  end.

(** [s[:-1]]. *)
Fixpoint drop_last (s : string) : string :=
  match s with
  | EmptyString => EmptyString
  | String _ EmptyString => EmptyString
  | String a rest => String a (drop_last rest)
  end.

(** [s.replace(c, "")]. *)
Fixpoint remove_char (c : ascii) (s : string) : string :=
  match s with
  | EmptyString => EmptyString
  | String a rest =>
      if Ascii.eqb a c then remove_char c rest else String a (remove_char c rest)
  end.

(** [f"{n:02d}"]: decimal, padded with zeros to two characters (a sign
    counts as a character). *)
Definition pad2 (n : Z) : string :=
  let s := pretty n in
  if (String.length s <? 2)%nat then "0" +:+ s else s.

End PyStr.

(** ** roundtrip_transformer.py *)

Module Transformer.

(** A half-turn trade as the TopstepX API delivers it: the dictionary's
    keys the code reads, with the types of the API's contract (a record
    that breaks it, say a [null] price, is outside the model).  [t_side]
    is the API's integer ([0] = BUY, [1] = SELL).  [t_profitAndLoss] is
    [None] for the API's [null] (an opening leg); [t_fees] is [None] when
    the record carries no fee. *)
Record Trade := {
  t_id : Z;
  t_orderId : Z;
  t_contractId : string;
  t_side : Z;
  t_size : Z;
  t_price : float;
  t_fees : option float;
  t_creationTimestamp : string;
  t_profitAndLoss : option float;
}.

Inductive Direction := LONG | SHORT.
Inductive SideName := BUY | SELL.

(** The ["entry"] and ["exit"] sub-dictionaries of a round trip. *)
Record Leg := {
  leg_trade_id : Z;
  leg_order_id : Z;
  leg_timestamp : string;
  leg_price : float;
  leg_side : SideName;
  leg_fees : float;
}.

Record Roundtrip := {
  roundtrip_id : Z;
  contract : string;
  contract_id : string;
  direction : Direction;
  rt_size : Z;
  entry : Leg;
  exit : Leg;
  pnl : float;
  total_fees : float;
  net_pnl : float;
  points : float;
  duration_seconds : Z;
  duration_formatted : string;
}.

(** The three result lists of a [RoundtripTransformer] object. *)
Record Transformer := {
  roundtrips : list Roundtrip;
  open_positions : list Trade;
  unmatched_exits : list Trade;
}.

(** [RoundtripTransformer.__init__]. *)
Definition init : Transformer :=
  {| roundtrips := []; open_positions := []; unmatched_exits := [] |}.

Definition timestamp_formats : list string :=
  [ "%Y-%m-%dT%H:%M:%S.%f%z";
    "%Y-%m-%dT%H:%M:%S%z";
    "%Y-%m-%dT%H:%M:%S.%fZ";
    "%Y-%m-%dT%H:%M:%SZ" ]%string.

(** The [for fmt in formats] loop of [parse_timestamp]: the first format
    that parses wins. *)
Fixpoint try_formats `{PyRuntime} (ts : string) (formats : list string)
  : option datetime :=
  match formats with
  | [] => None
  | fmt :: rest =>
      match strptime ts fmt with
      | Some d => Some d
      | None => try_formats ts rest
      end
  end.

Definition parse_timestamp `{PyRuntime} (ts : string) : option datetime :=
  match try_formats ts timestamp_formats with
  | Some d => Some d
  | None =>
      let ts' :=
        if PyStr.contains "+" ts then PyStr.rsplit1_head "+" ts
        else if PyStr.endswith "Z" ts then PyStr.drop_last ts
        else ts in
      fromisoformat ts'
  end.

Definition known_symbols : list string :=
  [ "MNQ"; "MES"; "NQ"; "ES"; "MCL"; "MGC"; "CL"; "GC"; "M2K"; "MYM" ]%string.

Definition extract_contract_symbol `{PyRuntime} (contract_id : string) : string :=
  match List.find (fun symbol => PyStr.contains symbol (str_upper contract_id))
                  known_symbols with
  | Some symbol => symbol
  | None =>
      let parts := PyStr.split "." contract_id in
      match nth_error parts 3 with
      | Some part => part
      | None => contract_id
      end
  end.

Definition format_duration (seconds : Z) : string :=
  if seconds <? 60 then pretty seconds +:+ "秒"
  else if seconds <? 3600 then
    pretty (seconds / 60) +:+ "分" +:+ pretty (seconds mod 60) +:+ "秒"
  else
    pretty (seconds / 3600) +:+ "時間" +:+ pretty ((seconds mod 3600) / 60) +:+ "分".

(** [trade.get('profitAndLoss') is None] and its negation. *)
Definition is_entry (t : Trade) : bool :=
  match t_profitAndLoss t with None => true | Some _ => false end.

Definition is_exit (t : Trade) : bool := negb (is_entry t).

(** ["BUY" if trade.get('side') == 0 else "SELL"]. *)
Definition side_name (t : Trade) : SideName :=
  if t_side t =? 0 then BUY else SELL.

(** [float(trade.get('fees', 0) or 0)]: a missing or zero fee is [0.0]. *)
Definition fees_or_zero (t : Trade) : float :=
  match t_fees t with
  | None => PyFloat.fzero
  | Some f => if PrimFloat.eqb f PyFloat.fzero then PyFloat.fzero else f
  end.

(** The leg dictionary [_create_roundtrip] builds from a trade. *)
Definition leg_of (t : Trade) : Leg :=
  {| leg_trade_id := t_id t;
     leg_order_id := t_orderId t;
     leg_timestamp := t_creationTimestamp t;
     leg_price := t_price t;
     leg_side := side_name t;
     leg_fees := fees_or_zero t |}.

Definition _create_roundtrip `{PyRuntime}
    (roundtrip_id : Z) (contract_id : string) (entry_trade exit_trade : Trade)
  : option Roundtrip :=
  let direction := if t_side entry_trade =? 0 then LONG else SHORT in
  entry_ts ← parse_timestamp (t_creationTimestamp entry_trade);
  exit_ts ← parse_timestamp (t_creationTimestamp exit_trade);
  duration_seconds ← seconds_between exit_ts entry_ts;
  let entry_price := t_price entry_trade in
  let exit_price := t_price exit_trade in
  let points :=
    match direction with
    | LONG => (exit_price - entry_price)%float
    | SHORT => (entry_price - exit_price)%float
    end in
  let entry_fees := fees_or_zero entry_trade in
  let exit_fees := fees_or_zero exit_trade in
  let total_fees := (entry_fees + exit_fees)%float in
  (* float(None) raises TypeError *)
  pnl ← t_profitAndLoss exit_trade;
  let net_pnl := (pnl - total_fees)%float in
  Some {| roundtrip_id := roundtrip_id;
          contract := extract_contract_symbol contract_id;
          contract_id := contract_id;
          direction := direction;
          rt_size := t_size exit_trade;
          entry := leg_of entry_trade;
          exit := leg_of exit_trade;
          pnl := pnl;
          total_fees := total_fees;
          net_pnl := PyFloat.round net_pnl 2;
          points := PyFloat.round points 2;
          duration_seconds := duration_seconds;
          duration_formatted := format_duration duration_seconds |}.

(** The test of [_find_matching_entry]: opposite side, same size. *)
Definition entry_matches (entry_trade exit_trade : Trade) : bool :=
  negb (t_side entry_trade =? t_side exit_trade)
  && (t_size entry_trade =? t_size exit_trade).

(** [_find_matching_entry]: the first matching entry is popped from the
    queue.  The result is the returned entry ([None] for Python's [None])
    and the queue as the call leaves it. *)
Fixpoint _find_matching_entry (entry_queue : list Trade) (exit_trade : Trade)
  : option Trade * list Trade :=
  match entry_queue with
  | [] => (None, [])
  | e :: rest =>
      if entry_matches e exit_trade then (Some e, rest)
      else
        let '(found, rest') := _find_matching_entry rest exit_trade in
        (found, e :: rest')
  end.

(** Lines 119-122 of [transform], on a non-empty queue: the entry paired
    with the exit and the queue that is left.  [None] on the empty queue,
    where the code does not get this far. *)
Definition take_entry (entry_queue : list Trade) (exit_trade : Trade)
  : option (Trade * list Trade) :=
  match entry_queue with
  | [] => None
  | front :: behind =>
      match _find_matching_entry entry_queue exit_trade with
      | (Some entry_trade, queue') => Some (entry_trade, queue')
      | (None, _) => Some (front, behind)        (* entry_queue.pop(0) *)
      end
  end.

(** What [transform] carries through its loops: the counter and the three
    lists of the object. *)
Record Run := {
  next_id : Z;
  out : Transformer;
}.

(** One iteration of [for exit_trade in exits]. *)
Definition exit_step `{PyRuntime} (contract_id : string)
    (st : list Trade * Run) (exit_trade : Trade) : option (list Trade * Run) :=
  let '(entry_queue, run) := st in
  match take_entry entry_queue exit_trade with
  | None =>
      Some (entry_queue,
            {| next_id := next_id run;
               out := {| roundtrips := roundtrips (out run);
                         open_positions := open_positions (out run);
                         unmatched_exits := unmatched_exits (out run) ++ [exit_trade] |} |})
  | Some (entry_trade, queue') =>
      let rid := next_id run + 1 in
      roundtrip ← _create_roundtrip rid contract_id entry_trade exit_trade;
      Some (queue',
            {| next_id := rid;
               out := {| roundtrips := roundtrips (out run) ++ [roundtrip];
                         open_positions := open_positions (out run);
                         unmatched_exits := unmatched_exits (out run) |} |})
  end.

Fixpoint exits_loop `{PyRuntime} (contract_id : string) (exits : list Trade)
    (st : list Trade * Run) : option (list Trade * Run) :=
  match exits with
  | [] => Some st
  | exit_trade :: rest =>
      st' ← exit_step contract_id st exit_trade;
      exits_loop contract_id rest st'
  end.

(** [list.sort(key=...)]: the stable sort.  An item is put before the first
    later item that is not smaller. *)
Fixpoint insert_sorted {A} (lt : A -> A -> bool) (x : A) (l : list A) : list A :=
  match l with
  | [] => [x]
  | y :: l' => if lt y x then y :: insert_sorted lt x l' else x :: y :: l'
  end.

Definition stable_sort {A} (lt : A -> A -> bool) (l : list A) : list A :=
  fold_right (insert_sorted lt) [] l.

Definition sort_by_key {A} (key : A -> string) (l : list A) : list A :=
  stable_sort (fun a b => String.ltb (key a) (key b)) l.

(** [trades_by_contract[contract_id].append(trade)] on the insertion-ordered
    dictionary. *)
Fixpoint group_append (k : string) (t : Trade) (groups : list (string * list Trade))
  : list (string * list Trade) :=
  match groups with
  | [] => [(k, [t])]
  | (k', ts) :: rest =>
      if String.eqb k k' then (k', ts ++ [t]) :: rest
      else (k', ts) :: group_append k t rest
  end.

Definition group_by_contract (trades : list Trade) : list (string * list Trade) :=
  fold_left (fun groups t => group_append (t_contractId t) t groups) trades [].

(** The body of [for contract_id, contract_trades in ...items()]. *)
Definition contract_step `{PyRuntime} (run : Run) (group : string * list Trade)
  : option Run :=
  let '(contract_id, contract_trades) := group in
  let contract_trades := sort_by_key t_creationTimestamp contract_trades in
  let entries := List.filter is_entry contract_trades in
  let exits := List.filter is_exit contract_trades in
  '(entry_queue, run') ← exits_loop contract_id exits (entries, run);
  Some {| next_id := next_id run';
          out := {| roundtrips := roundtrips (out run');
                    open_positions := open_positions (out run') ++ entry_queue;
                    unmatched_exits := unmatched_exits (out run') |} |}.

Fixpoint contracts_loop `{PyRuntime} (groups : list (string * list Trade)) (run : Run)
  : option Run :=
  match groups with
  | [] => Some run
  | g :: rest => run' ← contract_step run g; contracts_loop rest run'
  end.

(** [RoundtripTransformer.transform].  The three lists are reset, so the
    result does not depend on the object's earlier state; [None] stands
    for an exception raised while a round trip is built. *)
Definition transform `{PyRuntime} (trades : list Trade) : option Transformer :=
  run ← contracts_loop (group_by_contract trades) {| next_id := 0; out := init |};
  Some {| roundtrips := sort_by_key (fun rt => leg_timestamp (exit rt))
                                    (roundtrips (out run));
          open_positions := open_positions (out run);
          unmatched_exits := unmatched_exits (out run) |}.

(** *** Statistics *)

(** One entry of [_group_stats]: [{"count", "pnl", "wins", "losses"}]. *)
Record GroupStat := {
  g_count : Z;
  g_pnl : float;
  g_wins : Z;
  g_losses : Z;
}.

Definition group_default : GroupStat :=
  {| g_count := 0; g_pnl := PyFloat.fzero; g_wins := 0; g_losses := 0 |}.

(** The body of the loop of [_group_stats] on the entry of the key. *)
Definition group_add (rt : Roundtrip) (g : GroupStat) : GroupStat :=
  {| g_count := g_count g + 1;
     g_pnl := (g_pnl g + pnl rt)%float;
     g_wins := if PrimFloat.ltb PyFloat.fzero (pnl rt) then g_wins g + 1 else g_wins g;
     g_losses := if PrimFloat.ltb PyFloat.fzero (pnl rt) then g_losses g
                 else if PrimFloat.ltb (pnl rt) PyFloat.fzero then g_losses g + 1
                 else g_losses g |}.

(** [groups[key]] updated in the insertion-ordered [defaultdict]. *)
Fixpoint group_update {K} (eqb : K -> K -> bool) (k : K) (rt : Roundtrip)
    (groups : list (K * GroupStat)) : list (K * GroupStat) :=
  match groups with
  | [] => [(k, group_add rt group_default)]
  | (k', g) :: rest =>
      if eqb k k' then (k', group_add rt g) :: rest
      else (k', g) :: group_update eqb k rt rest
  end.

Definition _group_stats {K} (eqb : K -> K -> bool) (group_key : Roundtrip -> K)
    (rts : list Roundtrip) : list (K * GroupStat) :=
  fold_left (fun groups rt => group_update eqb (group_key rt) rt groups) rts [].

Definition direction_eqb (a b : Direction) : bool :=
  match a, b with
  | LONG, LONG | SHORT, SHORT => true
  | _, _ => false
  end.

(** The dictionary [get_statistics] returns when there are round trips.
    The integer [0] the code writes in the [else] branches ([avg_win],
    [avg_loss], [profit_factor]) is the float zero here: Python compares
    and prints the two as the same number. *)
Record Statistics := {
  s_total_roundtrips : Z;
  s_winning_trades : Z;
  s_losing_trades : Z;
  s_breakeven_trades : Z;
  s_win_rate : float;
  s_total_pnl : float;
  s_total_fees : float;
  s_total_net_pnl : float;
  s_avg_win : float;
  s_avg_loss : float;
  s_profit_factor : float;
  s_max_win : float;
  s_max_loss : float;
  s_avg_duration_seconds : Z;
  s_avg_duration_formatted : string;
  s_by_contract : list (string * GroupStat);
  s_by_direction : list (Direction * GroupStat);
  s_open_positions : Z;
  s_unmatched_exits : Z;
}.

(** What [get_statistics] returns: the empty dictionary [{}] or the
    dictionary with all of the keys above. *)
Inductive StatsDict :=
| EmptyDict
| StatsOf (s : Statistics).

(** [stats.get(key)] on the result, for the numeric keys the callers read. *)
Definition stats_get_profit_factor (d : StatsDict) : option float :=
  match d with EmptyDict => None | StatsOf s => Some (s_profit_factor s) end.

Definition stats_get_total_roundtrips (d : StatsDict) : option Z :=
  match d with EmptyDict => None | StatsOf s => Some (s_total_roundtrips s) end.

Definition len {A} (l : list A) : Z := Z.of_nat (length l).

Definition winners_of (rts : list Roundtrip) : list Roundtrip :=
  List.filter (fun rt => PrimFloat.ltb PyFloat.fzero (pnl rt)) rts.

Definition losers_of (rts : list Roundtrip) : list Roundtrip :=
  List.filter (fun rt => PrimFloat.ltb (pnl rt) PyFloat.fzero) rts.

Definition breakeven_of (rts : list Roundtrip) : list Roundtrip :=
  List.filter (fun rt => PrimFloat.eqb (pnl rt) PyFloat.fzero) rts.

Definition gross_profit_of (rts : list Roundtrip) : float :=
  PyFloat.sum (map pnl (winners_of rts)).

Definition gross_loss_of (rts : list Roundtrip) : float :=
  PrimFloat.abs (PyFloat.sum (map pnl (losers_of rts))).

(** [round(gross_profit / gross_loss, 2) if gross_loss > 0 else 0]. *)
Definition profit_factor_of (gross_profit gross_loss : float) : float :=
  if PrimFloat.ltb PyFloat.fzero gross_loss
  then PyFloat.round (gross_profit / gross_loss)%float 2
  else PyFloat.fzero.

(** [RoundtripTransformer.get_statistics].  [None] stands for the
    [OverflowError] of an integer division whose quotient exceeds the
    floats. *)
Definition get_statistics (self : Transformer) : option StatsDict :=
  match roundtrips self with
  | [] => Some EmptyDict
  | first :: others =>
      let rts := roundtrips self in
      let total := len rts in
      let winners := winners_of rts in
      let losers := losers_of rts in
      let breakeven := breakeven_of rts in
      let total_pnl := PyFloat.sum (map pnl rts) in
      let total_fees := PyFloat.sum (map total_fees rts) in
      let avg_win :=
        match winners with
        | [] => PyFloat.fzero
        | _ => (PyFloat.sum (map pnl winners) / PyFloat.of_Z (len winners))%float
        end in
      let avg_loss :=
        match losers with
        | [] => PyFloat.fzero
        | _ => (PyFloat.sum (map pnl losers) / PyFloat.of_Z (len losers))%float
        end in
      let gross_profit := gross_profit_of rts in
      let gross_loss := gross_loss_of rts in
      let profit_factor := profit_factor_of gross_profit gross_loss in
      avg_duration ← PyFloat.int_truediv (fold_left Z.add (map duration_seconds rts) 0) total;
      let by_contract := _group_stats String.eqb contract rts in
      let by_direction := _group_stats direction_eqb direction rts in
      win_ratio ← PyFloat.int_truediv (len winners) total;
      avg_duration_int ← PyFloat.to_int avg_duration;
      Some (StatsOf
        {| s_total_roundtrips := total;
           s_winning_trades := len winners;
           s_losing_trades := len losers;
           s_breakeven_trades := len breakeven;
           s_win_rate := PyFloat.round (win_ratio * PyFloat.of_Z 100)%float 1;
           s_total_pnl := PyFloat.round total_pnl 2;
           s_total_fees := PyFloat.round total_fees 2;
           s_total_net_pnl := PyFloat.round (total_pnl - total_fees)%float 2;
           s_avg_win := PyFloat.round avg_win 2;
           s_avg_loss := PyFloat.round avg_loss 2;
           s_profit_factor := profit_factor;
           s_max_win := PyFloat.round (PyFloat.max_from (pnl first) (map pnl others)) 2;
           s_max_loss := PyFloat.round (PyFloat.min_from (pnl first) (map pnl others)) 2;
           s_avg_duration_seconds := avg_duration_int;
           s_avg_duration_formatted := format_duration avg_duration_int;
           s_by_contract := by_contract;
           s_by_direction := by_direction;
           s_open_positions := len (open_positions self);
           s_unmatched_exits := len (unmatched_exits self) |})
  end.

(** [transform_trades]: the round trips and their statistics. *)
Definition transform_trades `{PyRuntime} (trades : list Trade)
  : option (list Roundtrip * StatsDict) :=
  transformer ← transform trades;
  statistics ← get_statistics transformer;
  Some (roundtrips transformer, statistics).

End Transformer.

(** ** notion_client.py *)

Module Notion.
Import Transformer.

Inductive ResultName := WIN | LOSS | BE.

Definition direction_name (d : Direction) : string :=
  match d with LONG => "LONG" | SHORT => "SHORT" end.

Definition result_name (r : ResultName) : string :=
  match r with WIN => "WIN" | LOSS => "LOSS" | BE => "BE" end.

(** A page of the database: the properties [create_roundtrip_entry] writes.
    The two trade ids are the ["number"] of the property, [None] when the
    property of a page is empty. *)
Record Page := {
  p_name : string;
  p_account : string;
  p_contract : string;
  p_direction : Direction;
  p_size : Z;
  p_entry_price : float;
  p_exit_price : float;
  p_pnl : float;
  p_net_pnl : float;
  p_total_fees : float;
  p_points : float;
  p_duration : string;
  p_result : ResultName;
  p_entry_trade_id : option Z;
  p_exit_trade_id : option Z;
  p_entry_time : option string;
  p_exit_time : option string;
}.

(** The Notion service, the environment of the client (an external
    service, not code of the repository): the pages of the database, the
    number of HTTP requests answered so far, and for each request number
    whether the answer is a success ([response.ok]); the answers are
    arbitrary.  A refused request raises in the client
    ([raise_for_status]) and changes no page; an accepted page creation
    adds the page, so that the store reflects the successful writes. *)
Record Server := {
  pages : list Page;
  served : nat;
  accepts : nat -> bool;
}.

(** One HTTP request: whether it is accepted, and the service afterwards. *)
Definition request (srv : Server) : bool * Server :=
  (accepts srv (served srv),
   {| pages := pages srv; served := S (served srv); accepts := accepts srv |}).

Definition add_page (p : Page) (srv : Server) : Server :=
  {| pages := pages srv ++ [p]; served := served srv; accepts := accepts srv |}.

(** The service's side of a query: it answers in chunks of [page_size]
    results, the last chunk with [has_more = false]; an empty database is
    one empty chunk. *)
Fixpoint paginate {A} (page_size room : nat) (cur : list A) (l : list A)
  : list (list A) :=
  match l with
  | [] => [cur]
  | x :: l' =>
      match room with
      | O => cur :: paginate page_size (page_size - 1) [x] l'
      | S room' => paginate page_size room' (cur ++ [x]) l'
      end
  end.

(** The [while has_more] loop of [query_database]: one request per chunk,
    and a refused request raises. *)
Fixpoint query_loop (chunks : list (list Page)) (all_results : list Page)
    (srv : Server) : option (list Page) * Server :=
  match chunks with
  | [] => (Some all_results, srv)
  | results :: more =>
      let '(ok, srv') := request srv in
      if ok then query_loop more (all_results ++ results) srv'
      else (None, srv')
  end.

Definition query_database (srv : Server) : option (list Page) * Server :=
  query_loop (paginate 100 100 [] (pages srv)) [] srv.

(** [if entry_id and exit_id]: both numbers present and non-zero; then the
    key [f"{entry_id}-{exit_id}"]. *)
Definition page_key (page : Page) : option string :=
  match p_entry_trade_id page, p_exit_trade_id page with
  | Some entry_id, Some exit_id =>
      if (entry_id =? 0) || (exit_id =? 0) then None
      else Some (pretty entry_id +:+ "-" +:+ pretty exit_id)
  | _, _ => None
  end.

Definition collect_keys (pages : list Page) : gset string :=
  fold_left (fun existing_ids page =>
               match page_key page with
               | Some unique_key => existing_ids ∪ {[ unique_key ]}
               | None => existing_ids
               end) pages ∅.

Definition get_existing_roundtrip_ids (srv : Server) : option (gset string) * Server :=
  match query_database srv with
  | (Some pages, srv') => (Some (collect_keys pages), srv')
  | (None, srv') => (None, srv')
  end.

Definition _truncate_account_name (name : string) (max_length : nat) : string :=
  if (max_length <? PyStr.len name)%nat then
    let parts := PyStr.split "-" name in
    if (3 <=? length parts)%nat then PyStr.join "-" (removelast parts)
    else name
  else name.

(** The properties [create_roundtrip_entry] builds for a round trip. *)
Definition page_of (roundtrip : Roundtrip) (account_name : string) : Page :=
  let pnl := pnl roundtrip in
  let result :=
    if PrimFloat.ltb PyFloat.fzero pnl then WIN
    else if PrimFloat.ltb pnl PyFloat.fzero then LOSS
    else BE in
  let entry_info := entry roundtrip in
  let exit_info := exit roundtrip in
  let exit_ts := leg_timestamp exit_info in
  let date_part :=
    match exit_ts with
    | EmptyString => "0000"
    | _ => PyStr.remove_char "-" (PyStr.slice 5 10 exit_ts)
    end in
  let title :=
    date_part +:+ "_" +:+ contract roundtrip +:+ "_"
      +:+ direction_name (direction roundtrip) +:+ "_" +:+ result_name result in
  let time_of ts := match ts with EmptyString => None | _ => Some ts end in
  {| p_name := title;
     p_account := _truncate_account_name account_name 50;
     p_contract := contract roundtrip;
     p_direction := direction roundtrip;
     p_size := rt_size roundtrip;
     p_entry_price := leg_price entry_info;
     p_exit_price := leg_price exit_info;
     p_pnl := pnl;
     p_net_pnl := net_pnl roundtrip;
     p_total_fees := total_fees roundtrip;
     p_points := points roundtrip;
     p_duration := duration_formatted roundtrip;
     p_result := result;
     p_entry_trade_id := Some (leg_trade_id entry_info);
     p_exit_trade_id := Some (leg_trade_id exit_info);
     p_entry_time := time_of (leg_timestamp entry_info);
     p_exit_time := time_of exit_ts |}.

(** [json.dumps(payload, allow_nan=False)], which [session.post(json=...)]
    runs on the payload before it sends anything: the payload can be
    encoded when none of its numbers is a NaN or an infinity. *)
Definition encodable (page : Page) : bool :=
  PrimFloat.is_finite (p_entry_price page)
  && PrimFloat.is_finite (p_exit_price page)
  && PrimFloat.is_finite (p_pnl page)
  && PrimFloat.is_finite (p_net_pnl page)
  && PrimFloat.is_finite (p_total_fees page)
  && PrimFloat.is_finite (p_points page).

(** [create_roundtrip_entry]: the created page on success, [None] for an
    exception.  A payload that cannot be encoded raises before anything
    is sent ([InvalidJSONError]); otherwise the call is one request, and
    a refused request raises. *)
Definition create_roundtrip_entry (roundtrip : Roundtrip) (account_name : string)
    (srv : Server) : option Page * Server :=
  let page := page_of roundtrip account_name in
  if encodable page then
    let '(ok, srv') := request srv in
    if ok then (Some page, add_page page srv') else (None, srv')
  else (None, srv).

Record SyncStats := {
  created : Z;
  skipped : Z;
  errors : Z;
}.

(** [f"{entry_id}-{exit_id}"] of a round trip. *)
Definition unique_key (rt : Roundtrip) : string :=
  pretty (leg_trade_id (entry rt)) +:+ "-" +:+ pretty (leg_trade_id (exit rt)).

(** The body of [for i, rt in enumerate(roundtrips)]. *)
Definition sync_step (account_name : string) (existing_ids : gset string)
    (st : SyncStats * Server) (rt : Roundtrip) : SyncStats * Server :=
  let '(stats, srv) := st in
  if decide (unique_key rt ∈ existing_ids) then
    ({| created := created stats; skipped := skipped stats + 1;
        errors := errors stats |}, srv)
  else
    match create_roundtrip_entry rt account_name srv with
    | (Some _, srv') =>
        ({| created := created stats + 1; skipped := skipped stats;
            errors := errors stats |}, srv')
    | (None, srv') =>
        ({| created := created stats; skipped := skipped stats;
            errors := errors stats + 1 |}, srv')
    end.

(** [sync_roundtrips].  [None] stands for the exception of the existence
    query, which no handler of the function catches. *)
Definition sync_roundtrips (roundtrips : list Roundtrip) (account_name : string)
    (skip_existing : bool) (srv : Server) : option SyncStats * Server :=
  let stats := {| created := 0; skipped := 0; errors := 0 |} in
  let '(fetched, srv1) :=
    if skip_existing then get_existing_roundtrip_ids srv
    else (Some ∅, srv) in
  match fetched with
  | None => (None, srv1)
  | Some existing_ids =>
      let '(stats', srv2) :=
        fold_left (sync_step account_name existing_ids) roundtrips (stats, srv1) in
      (Some stats', srv2)
  end.

End Notion.

(** ** main.py: AutoSyncManager

    The manager's fields are shared between the caller's thread ([start],
    [stop], [get_remaining_time]) and the threads [start] creates, each
    running [_run_loop].  A loop thread is its program point; the system
    moves by one call of the caller or one step of one thread, in any
    order.  A call of the caller is one move; a step of a thread is one
    statement of the loop, as the interpreter can switch threads between
    any two of them: the test of the [if] that guards the callback and
    the call of the callback are two steps.  Time is [datetime.now()] in
    microseconds. *)

Module Scheduler.

Record AutoSyncManager := {
  is_running : bool;
  interval_minutes : Z;
  next_sync_time : option Z;
  thread : option nat;
  stop_event : bool;
}.

(** [AutoSyncManager.__init__]. *)
Definition init : AutoSyncManager :=
  {| is_running := false;
     interval_minutes := 30;
     next_sync_time := None;
     thread := None;
     stop_event := false |}.

(** Where a thread stands in [_run_loop]. *)
Inductive Pc :=
| AtWhile                        (* about to test the [while] condition *)
| AtSetNext                      (* the test held; about to assign [next_sync_time] *)
| AtWaitInit                     (* about to compute [wait_seconds] *)
| AtWaitCheck (rounds : Z)         (* in the [for], [rounds] rounds to go, about to test the event *)
| AtSleep (rounds : Z) (wake : Z)  (* in [time.sleep(1)] until [wake] *)
| AtFire                         (* the wait is over; about to test the [if] of the callback *)
| AtCall                         (* the test held; about to call [self.callback()] *)
| Finished.

Record System := {
  mgr : AutoSyncManager;
  threads : list Pc;
  now : Z;
  fired : nat;                   (* calls of the callback so far *)
}.

Definition boot : System :=
  {| mgr := init; threads := []; now := 0; fired := 0 |}.

Definition second : Z := 1000000.

(** [AutoSyncManager.start]. *)
Definition start (interval_minutes : Z) (sys : System) : System :=
  if is_running (mgr sys) then sys
  else
    {| mgr := {| is_running := true;
                 interval_minutes := interval_minutes;
                 next_sync_time := next_sync_time (mgr sys);
                 thread := Some (length (threads sys));
                 stop_event := false |};
       threads := threads sys ++ [AtWhile];
       now := now sys;
       fired := fired sys |}.

(** [AutoSyncManager.stop]. *)
Definition stop (sys : System) : System :=
  {| mgr := {| is_running := false;
               interval_minutes := interval_minutes (mgr sys);
               next_sync_time := None;
               thread := thread (mgr sys);
               stop_event := true |};
     threads := threads sys;
     now := now sys;
     fired := fired sys |}.

(** [AutoSyncManager.get_remaining_time].  The float [total_seconds()] is
    the exact number of microseconds here, which [//] and [%] see
    unchanged for a countdown below 2^53 microseconds. *)
Definition get_remaining_time (sys : System) : string :=
  match next_sync_time (mgr sys) with
  | None => "--:--"
  | Some deadline =>
      let remaining := deadline - now sys in
      if remaining <=? 0 then "同期中..."
      else
        let minutes := remaining / (60 * second) in
        let seconds := (remaining mod (60 * second)) / second in
        PyStr.pad2 minutes +:+ ":" +:+ PyStr.pad2 seconds
  end.

Definition loop_condition (m : AutoSyncManager) : bool :=
  is_running m && negb (stop_event m).

(** One step of a thread in [_run_loop]: the manager, the program point and
    the callback count afterwards; [None] when the thread cannot move (it
    sleeps, or it has returned). *)
Definition _run_loop_step (clock : Z) (m : AutoSyncManager) (pc : Pc) (calls : nat)
  : option (AutoSyncManager * Pc * nat) :=
  match pc with
  | AtWhile =>
      Some (m, if loop_condition m then AtSetNext else Finished, calls)
  | AtSetNext =>
      Some ({| is_running := is_running m;
               interval_minutes := interval_minutes m;
               next_sync_time := Some (clock + interval_minutes m * 60 * second);
               thread := thread m;
               stop_event := stop_event m |}, AtWaitInit, calls)
  | AtWaitInit =>
      Some (m, AtWaitCheck (interval_minutes m * 60), calls)
  | AtWaitCheck rounds =>
      if rounds <=? 0 then Some (m, AtFire, calls)
      else if stop_event m then Some (m, Finished, calls)
      else Some (m, AtSleep rounds (clock + second), calls)
  | AtSleep rounds wake =>
      if wake <=? clock then Some (m, AtWaitCheck (rounds - 1), calls) else None
  | AtFire =>
      Some (m, if loop_condition m then AtCall else AtWhile, calls)
  | AtCall =>
      Some (m, AtWhile, S calls)
  | Finished => None
  end.

Inductive Event :=
| CallStart (interval_minutes : Z)
| CallStop
| Elapse (microseconds : Z)
| ThreadStep (tid : nat).

(** One move of the system; [None] when the move is not possible. *)
Definition step (sys : System) (ev : Event) : option System :=
  match ev with
  | CallStart n => Some (start n sys)
  | CallStop => Some (stop sys)
  | Elapse d =>
      if d <? 0 then None
      else Some {| mgr := mgr sys; threads := threads sys;
                   now := now sys + d; fired := fired sys |}
  | ThreadStep tid =>
      pc ← threads sys !! tid;
      '(m, pc', calls) ← _run_loop_step (now sys) (mgr sys) pc (fired sys);
      Some {| mgr := m; threads := <[tid := pc']> (threads sys);
              now := now sys; fired := calls |}
  end.

Fixpoint run (sys : System) (trace : list Event) : option System :=
  match trace with
  | [] => Some sys
  | ev :: rest => sys' ← step sys ev; run sys' rest
  end.

End Scheduler.

(** ** main.py: SyncApp._sync_async

    The worker of a synchronisation run: for each account it fetches the
    trades, pairs them and writes the round trips to Notion, adding up the
    totals the window shows.  The calls that only draw ([self.after] with a
    log line or a label) are left out. *)

Module SyncApp.
Import Transformer Notion.

(** An account as [get_accounts] returns it: the fields the application
    reads. *)
Record Account := {
  acc_id : Z;
  acc_name : string;
  acc_balance : float;
}.

(** The TopstepX gateway, the environment of [TopstepXClient.get_trades]
    (an external service, not code of the repository): the number of trade
    searches answered so far and, for each search number and account id,
    the answer, arbitrary: the trades, or [None] for the exception
    [get_trades] raises on an HTTP error or on [success = false]. *)
Record Gateway := {
  searches : nat;
  answer : nat -> Z -> option (list Trade);
}.

Definition get_trades (gw : Gateway) (account_id : Z)
  : option (list Trade) * Gateway :=
  (answer gw (searches gw) account_id,
   {| searches := S (searches gw); answer := answer gw |}).

(** [total_stats]. *)
Record TotalStats := {
  ts_roundtrips : Z;
  ts_created : Z;
  ts_skipped : Z;
  ts_errors : Z;
}.

Definition total_init : TotalStats :=
  {| ts_roundtrips := 0; ts_created := 0; ts_skipped := 0; ts_errors := 0 |}.

(** [total_stats["roundtrips"] += n]. *)
Definition add_roundtrips (n : Z) (t : TotalStats) : TotalStats :=
  {| ts_roundtrips := ts_roundtrips t + n; ts_created := ts_created t;
     ts_skipped := ts_skipped t; ts_errors := ts_errors t |}.

(** The three [+=] after [sync_roundtrips]. *)
Definition add_result (r : SyncStats) (t : TotalStats) : TotalStats :=
  {| ts_roundtrips := ts_roundtrips t; ts_created := ts_created t + created r;
     ts_skipped := ts_skipped t + skipped r; ts_errors := ts_errors t + errors r |}.

(** [except Exception: total_stats["errors"] += 1]. *)
Definition add_error (t : TotalStats) : TotalStats :=
  {| ts_roundtrips := ts_roundtrips t; ts_created := ts_created t;
     ts_skipped := ts_skipped t; ts_errors := ts_errors t + 1 |}.

(** The body of [for i, account in enumerate(accounts)] with its
    [try ... except Exception]. *)
Definition account_step `{PyRuntime} (st : TotalStats * Gateway * Server)
    (account : Account) : TotalStats * Gateway * Server :=
  let '(total_stats, gw, srv) := st in
  let '(fetched, gw') := get_trades gw (acc_id account) in
  match fetched with
  | None => (add_error total_stats, gw', srv)
  | Some [] => (total_stats, gw', srv)
  | Some trades =>
      match transform trades with
      | None => (add_error total_stats, gw', srv)
      | Some transformer =>
          match roundtrips transformer with
          | [] => (total_stats, gw', srv)
          | roundtrips =>
              let counted := add_roundtrips (len roundtrips) total_stats in
              match sync_roundtrips roundtrips (acc_name account) true srv with
              | (Some sync_result, srv') => (add_result sync_result counted, gw', srv')
              | (None, srv') => (add_error counted, gw', srv')
              end
          end
      end
  end.

(** [_sync_async]: the totals after the loop, and the two services. *)
Definition _sync_async `{PyRuntime} (accounts : list Account) (gw : Gateway)
    (srv : Server) : TotalStats * Gateway * Server :=
  fold_left account_step accounts (total_init, gw, srv).

End SyncApp.

(** ** main.py: the account list of the window

    [SyncApp._update_account_list] fills the read-only combo box with the
    accounts, and [SyncApp.get_selected_account] finds the account of the
    selected line.  The combo box is its list of values and the text of
    its variable. *)

Module AccountList.
Import SyncApp.

(** [f"{x:,.2f}"]: the format specification is the library's, an
    interface here. *)
Class PyFormat := {
  format_money : float -> string;
}.

(** [f"{acc.get('name')} - ${acc.get('balance', 0):,.2f}"]. *)
Definition display `{PyFormat} (acc : Account) : string :=
  acc_name acc +:+ " - $" +:+ format_money (acc_balance acc).

(** The three lists of [(id, display)] items. *)
Record Lists := {
  express : list (Z * string);
  combine : list (Z * string);
  practice : list (Z * string);
}.

(** The body of [for acc in self.accounts]. *)
Definition classify_step `{PyRuntime} `{PyFormat} (ls : Lists) (acc : Account) : Lists :=
  let name := str_upper (acc_name acc) in
  let item := (acc_id acc, display acc) in
  if PyStr.contains "EXPRESS" name then
    {| express := express ls ++ [item]; combine := combine ls; practice := practice ls |}
  else if PyStr.contains "KTC" name then
    {| express := express ls; combine := combine ls ++ [item]; practice := practice ls |}
  else if PyStr.contains "PRACTICE" name || PyStr.contains "PRAC-" name then
    {| express := express ls; combine := combine ls; practice := practice ls ++ [item] |}
  else
    {| express := express ls; combine := combine ls ++ [item]; practice := practice ls |}.

(** [items.sort(key=lambda x: x[0], reverse=True)]. *)
Definition sort_by_id_desc (items : list (Z * string)) : list (Z * string) :=
  Transformer.stable_sort (fun a b => fst b <? fst a) items.

(** One [if items:] block: the header, then the first [limit] items. *)
Definition add_section (header : string) (limit : nat) (items : list (Z * string))
    (st : list string * option string) : list string * option string :=
  let '(all_items, first_account) := st in
  match items with
  | [] => st
  | _ =>
      let shown := map snd (take limit items) in
      (all_items ++ header :: shown,
       match first_account with
       | None => head shown
       | Some _ => first_account
       end)
  end.

Record Combo := {
  values : list string;
  account_var : string;
}.

Definition _update_account_list `{PyRuntime} `{PyFormat} (accounts : list Account)
    (account_combo : Combo) : Combo :=
  match accounts with
  | [] => account_combo
  | _ =>
      let ls := fold_left classify_step accounts
                  {| express := []; combine := []; practice := [] |} in
      let express := sort_by_id_desc (express ls) in
      let combine := sort_by_id_desc (combine ls) in
      let practice := sort_by_id_desc (practice ls) in
      let '(all_items, first_account) :=
        add_section "━━ プラクティス ━━" 5 practice
          (add_section "━━ コンバイン ━━" 5 combine
             (add_section "━━ エクスプレス ━━" 10 express ([], None))) in
      {| values := all_items;
         account_var :=
           match first_account with
           | Some (String a rest) => String a rest
           | _ => account_var account_combo
           end |}
  end.

(** [selected.startswith("━━")]. *)
Definition is_header (selected : string) : bool := String.prefix "━━" selected.

Definition get_selected_account `{PyFormat} (accounts : list Account)
    (selected : string) : option Account :=
  match selected with
  | EmptyString => None
  | _ =>
      if is_header selected then None
      else List.find (fun acc => String.eqb (display acc) selected) accounts
  end.

End AccountList.

(** ** A runtime to evaluate the model with

    An instance of [PyRuntime] for closed examples: timestamps of the UTC
    form [YYYY-MM-DDTHH:MM:SSZ] (the fourth format of [parse_timestamp])
    with every field at its full width and in its range (seconds up to
    59), a [datetime] as its number of seconds since 1970, and [upper] on
    ASCII letters.  The other formats and [fromisoformat] reject every
    input, and so does this format on fields of fewer digits, which
    [strptime] reads. *)

Module ReferenceRuntime.

Definition digit (a : ascii) : option Z :=
  let n := Z.of_N (N_of_ascii a) in
  if (48 <=? n) && (n <=? 57) then Some (n - 48) else None.

Fixpoint number_from (acc : Z) (s : string) : option Z :=
  match s with
  | EmptyString => Some acc
  | String a rest => d ← digit a; number_from (10 * acc + d) rest
  end.

Definition number (s : string) : option Z :=
  match s with
  | EmptyString => None
  | _ => number_from 0 s
  end.

Definition is_leap (y : Z) : bool :=
  ((y mod 4 =? 0) && negb (y mod 100 =? 0)) || (y mod 400 =? 0).

Definition days_in_month (y m : Z) : Z :=
  if m =? 2 then (if is_leap y then 29 else 28)
  else if (m =? 4) || (m =? 6) || (m =? 9) || (m =? 11) then 30
  else 31.

(** Days from 1970-01-01 to the given date of the Gregorian calendar. *)
Definition days_from_civil (y m d : Z) : Z :=
  let y' := if m <=? 2 then y - 1 else y in
  let era := y' / 400 in
  let yoe := y' - era * 400 in
  let mp := if 2 <? m then m - 3 else m + 9 in
  let doy := (153 * mp + 2) / 5 + d - 1 in
  let doe := yoe * 365 + yoe / 4 - yoe / 100 + doy in
  era * 146097 + doe - 719468.

Definition parse_utc (ts : string) : option Z :=
  if negb (String.length ts =? 20)%nat then None
  else if negb (String.eqb (String.substring 4 1 ts) "-"
                && String.eqb (String.substring 7 1 ts) "-"
                && String.eqb (String.substring 10 1 ts) "T"
                && String.eqb (String.substring 13 1 ts) ":"
                && String.eqb (String.substring 16 1 ts) ":"
                && String.eqb (String.substring 19 1 ts) "Z") then None
  else
    y ← number (String.substring 0 4 ts);
    m ← number (String.substring 5 2 ts);
    d ← number (String.substring 8 2 ts);
    hh ← number (String.substring 11 2 ts);
    mm ← number (String.substring 14 2 ts);
    ss ← number (String.substring 17 2 ts);
    if (1 <=? y) && (1 <=? m) && (m <=? 12) && (1 <=? d) && (d <=? days_in_month y m)
       && (hh <=? 23) && (mm <=? 59) && (ss <=? 59)
    then Some (days_from_civil y m d * 86400 + hh * 3600 + mm * 60 + ss)
    else None.

Definition upper_ascii (a : ascii) : ascii :=
  let n := N_of_ascii a in
  if ((97 <=? n) && (n <=? 122))%N then ascii_of_N (n - 32) else a.

Fixpoint upper (s : string) : string :=
  match s with
  | EmptyString => EmptyString
  | String a rest => String (upper_ascii a) (upper rest)
  end.

#[export] Instance runtime : PyRuntime := {|
  datetime := Z;
  strptime ts fmt :=
    if String.eqb fmt "%Y-%m-%dT%H:%M:%SZ" then parse_utc ts else None;
  fromisoformat _ := None;
  seconds_between a b := Some (a - b);
  str_upper := upper;
|}.

End ReferenceRuntime.

(** ** A formatting to evaluate the model with

    An instance of [PyFormat] for closed examples: the text of a float
    with two decimals, correctly rounded, and commas between the
    thousands. *)

Module ReferenceFormat.
Import AccountList.

Fixpoint commas (n : nat) (rev_digits : list ascii) (acc : string) : string :=
  match rev_digits with
  | [] => acc
  | d :: rest =>
      match n with
      | 3%nat => commas 1 rest (String d (String "," acc))
      | _ => commas (S n) rest (String d acc)
      end
  end.

Definition grouped (i : Z) : string :=
  commas 0 (rev (list_ascii_of_string (pretty i))) "".

Definition money (x : float) : string :=
  match Prim2SF x with
  | S754_nan => "nan"
  | S754_infinity s => if s then "-inf" else "inf"
  | S754_zero s => (if s then "-" else "") +:+ "0.00"
  | S754_finite s m e =>
      let n := if 0 <=? e then Z.pos m * 2 ^ e * 100
               else PyFloat.div_half_even (Z.pos m * 100) (2 ^ (- e)) in
      (if s then "-" else "") +:+ grouped (n / 100) +:+ "." +:+ PyStr.pad2 (n mod 100)
  end.

#[export] Instance format : PyFormat := {| format_money := money |}.

End ReferenceFormat.

(** * Vocabulary of the statements *)

(** ** Rounding to decimals

    What "rounded to [ndigits] decimals" says of a float, in the words of
    the specification and of Python's documentation of [round], to be
    compared with [PyFloat.round]: the result is the float nearest to the
    decimal number [n / 10 ^ ndigits], where [n] is the integer nearest
    to the exact value of the argument times [10 ^ ndigits], the even one
    of two integers at the same distance. *)

Module RoundingSpec.

(** The exact value of the finite float with mantissa [m] and exponent
    [e], times [10 ^ ndigits], is the fraction [scaled_num / scaled_den]. *)
Definition scaled_num (m : positive) (e ndigits : Z) : Z :=
  Z.pos m * 10 ^ ndigits * 2 ^ Z.max 0 e.

Definition scaled_den (e : Z) : Z := 2 ^ Z.max 0 (- e).

(** [n] is the integer nearest to [num / den] (for [den > 0]), and even
    when [num / den] lies half way between two integers. *)
Definition nearest_even (num den n : Z) : Prop :=
  Z.abs (2 * num - 2 * n * den) <= den
  /\ (Z.abs (2 * num - 2 * n * den) = den -> Z.even n = true).

(** The float nearest to [n / 10 ^ ndigits] for [n >= 0] (the correctly
    rounded quotient of the two integers), with the given sign, which a
    zero keeps. *)
Definition decimal_float (sign : bool) (n ndigits : Z) : float :=
  SF2Prim (SFdiv prec emax
             (match n with Zpos p => S754_finite sign p 0 | _ => S754_zero sign end)
             (S754_finite false (Z.to_pos (10 ^ ndigits)) 0)).

(** [r] is [x] rounded to [ndigits] decimals.  An infinity and a NaN are
    their own rounding. *)
Definition rounded_to (ndigits : Z) (x r : float) : Prop :=
  match Prim2SF x with
  | S754_finite sign m e =>
      exists n : Z,
        0 <= n
        /\ nearest_even (scaled_num m e ndigits) (scaled_den e) n
        /\ r = decimal_float sign n ndigits
  | _ => r = x
  end.

End RoundingSpec.

(** ** The matcher *)

Module MatcherSpec.
Import Transformer.

(** [a <= b] for Python's string order: [b < a] is false. *)
Definition str_le (a b : string) : Prop := String.ltb b a = false.

(** The same on the keys of two items. *)
Definition key_le {A} (key : A -> string) (a b : A) : Prop := str_le (key a) (key b).

(** Every group holds trades of its own contract only. *)
Definition well_keyed (groups : list (string * list Trade)) : Prop :=
  Forall (fun g => Forall (fun t => t_contractId t = fst g) (snd g)) groups.

(** The two trades of the specification's round-trip example, on one
    contract, with their timestamps and order ids left open. *)
Definition example_entry (contract_id ts : string) (order_id : Z) : Trade :=
  {| t_id := 1; t_orderId := order_id; t_contractId := contract_id;
     t_side := 0; t_size := 2; t_price := 100%float; t_fees := Some 0.5%float;
     t_creationTimestamp := ts; t_profitAndLoss := None |}.

Definition example_exit (contract_id ts : string) (order_id : Z) : Trade :=
  {| t_id := 2; t_orderId := order_id; t_contractId := contract_id;
     t_side := 1; t_size := 2; t_price := 105%float; t_fees := Some 0.5%float;
     t_creationTimestamp := ts; t_profitAndLoss := Some 10%float |}.

(** A round trip and the pair of trades it was built from: the two legs
    are trades of one contract, and the round trip is what
    [_create_roundtrip] makes of them. *)
Definition built_from `{PyRuntime} (rt : Roundtrip) (p : Trade * Trade) : Prop :=
  t_contractId (fst p) = t_contractId (snd p)
  /\ _create_roundtrip (roundtrip_id rt) (t_contractId (snd p)) (fst p) (snd p) = Some rt.

(** The round trip shows the two trades of the pair as its legs: the
    entry carries the id, the order id, the timestamp, the price and the
    side of the first trade, the exit those of the second, and the round
    trip has the contract, the size and the profit of the second. *)
Definition shows_legs (rt : Roundtrip) (p : Trade * Trade) : Prop :=
  leg_trade_id (entry rt) = t_id (fst p)
  /\ leg_order_id (entry rt) = t_orderId (fst p)
  /\ leg_timestamp (entry rt) = t_creationTimestamp (fst p)
  /\ leg_price (entry rt) = t_price (fst p)
  /\ (leg_side (entry rt) = BUY <-> t_side (fst p) = 0)
  /\ leg_trade_id (exit rt) = t_id (snd p)
  /\ leg_order_id (exit rt) = t_orderId (snd p)
  /\ leg_timestamp (exit rt) = t_creationTimestamp (snd p)
  /\ leg_price (exit rt) = t_price (snd p)
  /\ (leg_side (exit rt) = BUY <-> t_side (snd p) = 0)
  /\ contract_id rt = t_contractId (snd p)
  /\ rt_size rt = t_size (snd p)
  /\ t_profitAndLoss (snd p) = Some (pnl rt).

Definition created_in `{PyRuntime} (cid : string) (rt : Roundtrip) (p : Trade * Trade) : Prop :=
  _create_roundtrip (roundtrip_id rt) cid (fst p) (snd p) = Some rt.

(** What a run adds to the three lists: the new round trips with their
    pairs, the new unmatched exits and the new open positions. *)
Definition adds (R : Roundtrip -> Trade * Trade -> Prop) (run run' : Run)
    (pairs : list (Trade * Trade)) (u o : list Trade) : Prop :=
  exists new,
    roundtrips (out run') = roundtrips (out run) ++ new
    /\ Forall2 R new pairs
    /\ unmatched_exits (out run') = unmatched_exits (out run) ++ u
    /\ open_positions (out run') = open_positions (out run) ++ o.

(** Every opening leg and closing leg of the list can be made a round
    trip: their timestamps parse and the difference is defined. *)
Definition buildable `{PyRuntime} (trades : list Trade) : Prop :=
  forall en ex,
    en ∈ trades -> ex ∈ trades -> is_entry en = true -> is_exit ex = true ->
    exists d0 d1 secs,
      parse_timestamp (t_creationTimestamp en) = Some d0
      /\ parse_timestamp (t_creationTimestamp ex) = Some d1
      /\ seconds_between d1 d0 = Some secs.

(** The [n] numbers that follow [start]. *)
Definition ids_after (start : Z) (n : nat) : list Z :=
  map (fun i => start + Z.of_nat i) (seq 1 n).

(** The trades of a contract, in their order. *)
Definition on_contract (c : string) (ts : list Trade) : list Trade :=
  List.filter (fun t => String.eqb (t_contractId t) c) ts.

(** The round trips of a contract. *)
Definition roundtrips_on (c : string) (rts : list Roundtrip) : list Roundtrip :=
  List.filter (fun rt => String.eqb (contract_id rt) c) rts.

End MatcherSpec.

(** ** The synchronisation pass *)

Module SyncSpec.
Import Transformer Notion.

(** The round trips the loop does not skip, and the answers the service
    gives to their requests, in order. *)
Definition attempted (existing : gset string) (rts : list Roundtrip) : list Roundtrip :=
  filter (fun rt => unique_key rt ∉ existing) rts.

(** The numbers of a round trip that go into its page are all finite:
    neither a NaN nor an infinity. *)
Definition finite_numbers (rt : Roundtrip) : bool :=
  PrimFloat.is_finite (leg_price (entry rt))
  && PrimFloat.is_finite (leg_price (exit rt))
  && PrimFloat.is_finite (pnl rt)
  && PrimFloat.is_finite (net_pnl rt)
  && PrimFloat.is_finite (total_fees rt)
  && PrimFloat.is_finite (points rt).

(** Of these, the round trips whose numbers are finite, which cost a
    request each, and the others, for which nothing is sent. *)
Definition sendable (rts : list Roundtrip) : list Roundtrip :=
  List.filter finite_numbers rts.

Definition unsendable (rts : list Roundtrip) : list Roundtrip :=
  List.filter (fun rt => negb (finite_numbers rt)) rts.

Definition answers (srv : Server) (n : nat) : list bool :=
  map (accepts srv) (seq (served srv) n).

Definition count (f : bool -> bool) (l : list bool) : Z := len (List.filter f l).

(** The round trips whose request was accepted. *)
Fixpoint accepted (rts : list Roundtrip) (ans : list bool) : list Roundtrip :=
  match rts, ans with
  | rt :: rts', true :: ans' => rt :: accepted rts' ans'
  | _ :: rts', false :: ans' => accepted rts' ans'
  | _, _ => []
  end.

Definition ids_nonzero (rt : Roundtrip) : Prop :=
  leg_trade_id (entry rt) <> 0 /\ leg_trade_id (exit rt) <> 0.

End SyncSpec.

(** ** Sample data

    Trades and services to evaluate the model on, under the reference
    runtime. *)

Module Samples.
Import Transformer ReferenceRuntime.

Definition mnq : string := "CON.F.US.MNQ.Z25".
Definition mes : string := "CON.F.US.MES.Z25".
Definition mgc : string := "CON.F.US.MGC.Z25".

(** A long of 2 on MNQ, opened at 100 and closed at 105. *)
Definition long_entry : Trade :=
  {| t_id := 1; t_orderId := 101; t_contractId := mnq; t_side := 0; t_size := 2;
     t_price := 100%float; t_fees := Some 0.5%float;
     t_creationTimestamp := "2025-11-04T10:00:00Z"; t_profitAndLoss := None |}.

Definition long_exit : Trade :=
  {| t_id := 2; t_orderId := 102; t_contractId := mnq; t_side := 1; t_size := 2;
     t_price := 105%float; t_fees := Some 0.5%float;
     t_creationTimestamp := "2025-11-04T10:10:24Z"; t_profitAndLoss := Some 10%float |}.

(** A short of 1 on MES, opened at 200 and closed at 204 with a loss. *)
Definition short_entry : Trade :=
  {| t_id := 3; t_orderId := 103; t_contractId := mes; t_side := 1; t_size := 1;
     t_price := 200%float; t_fees := None;
     t_creationTimestamp := "2025-11-04T10:05:00Z"; t_profitAndLoss := None |}.

Definition short_exit : Trade :=
  {| t_id := 4; t_orderId := 104; t_contractId := mes; t_side := 0; t_size := 1;
     t_price := 204%float; t_fees := Some 0.25%float;
     t_creationTimestamp := "2025-11-04T11:30:00Z"; t_profitAndLoss := Some (-4)%float |}.

(** A long of 1 on MNQ that stays open, and a closing leg on MGC without
    an opening leg. *)
Definition open_entry : Trade :=
  {| t_id := 5; t_orderId := 105; t_contractId := mnq; t_side := 0; t_size := 1;
     t_price := 101%float; t_fees := Some 0.5%float;
     t_creationTimestamp := "2025-11-04T09:30:00Z"; t_profitAndLoss := None |}.

Definition stray_exit : Trade :=
  {| t_id := 6; t_orderId := 106; t_contractId := mgc; t_side := 1; t_size := 1;
     t_price := 50%float; t_fees := Some 0.5%float;
     t_creationTimestamp := "2025-11-04T09:00:00Z"; t_profitAndLoss := Some 3%float |}.

Definition sample_trades : list Trade :=
  [stray_exit; long_exit; short_entry; long_entry; short_exit; open_entry].

Definition roundtrips_of (trades : list Trade) : list Roundtrip :=
  match transform trades with
  | Some t => roundtrips t
  | None => []
  end.

(** The long of above with the trade id 0 on its opening leg. *)
Definition zero_id_entry : Trade :=
  {| t_id := 0; t_orderId := 101; t_contractId := mnq; t_side := 0; t_size := 2;
     t_price := 100%float; t_fees := Some 0.5%float;
     t_creationTimestamp := "2025-11-04T10:00:00Z"; t_profitAndLoss := None |}.

(** An empty database behind a service that accepts every request, and
    behind one that refuses request number 1 (the first page creation
    after a one-request query) and accepts all others. *)
Definition fresh_server : Notion.Server :=
  {| Notion.pages := []; Notion.served := 0; Notion.accepts := fun _ => true |}.

Definition flaky_server : Notion.Server :=
  {| Notion.pages := []; Notion.served := 0;
     Notion.accepts := fun n => negb (n =? 1)%nat |}.

Definition sample_roundtrips : list Roundtrip := roundtrips_of sample_trades.

(** The two round trips of the sample: a win of 10 and a loss of 4. *)
Definition sample_transformer : Transformer :=
  {| roundtrips := roundtrips_of sample_trades;
     open_positions := [open_entry];
     unmatched_exits := [stray_exit] |}.

(** An account name of 54 characters, and one of 22 characters that take
    62 bytes. *)
Definition long_account_name : string :=
  "EXPRESS-V2-140427-27209524-EVALUATION-ACCOUNT-00000001".

Definition wide_account_name : string :=
  "デモ口座-練習用アカウント-二〇二五年十一月".

(** A long of 1 on MNQ whose points and net profit lie half way between
    two cents: 100 to 100.125, with a profit of 0.375 and fees of 0.125
    on each leg. *)
Definition tie_entry : Trade :=
  {| t_id := 7; t_orderId := 107; t_contractId := mnq; t_side := 0; t_size := 1;
     t_price := 100%float; t_fees := Some 0.125%float;
     t_creationTimestamp := "2025-11-04T12:00:00Z"; t_profitAndLoss := None |}.

Definition tie_exit : Trade :=
  {| t_id := 8; t_orderId := 108; t_contractId := mnq; t_side := 1; t_size := 1;
     t_price := 100.125%float; t_fees := Some 0.125%float;
     t_creationTimestamp := "2025-11-04T12:30:00Z"; t_profitAndLoss := Some 0.375%float |}.



(** The closing leg of the long with a NaN as its profit, and the round
    trip it makes with the opening leg. *)
Definition nan_exit : Trade :=
  {| t_id := 2; t_orderId := 102; t_contractId := mnq; t_side := 1; t_size := 2;
     t_price := 105%float; t_fees := Some 0.5%float;
     t_creationTimestamp := "2025-11-04T10:10:24Z"; t_profitAndLoss := Some PrimFloat.nan |}.

Definition nan_roundtrips : list Roundtrip := roundtrips_of [long_entry; nan_exit].

(** The service after a first pass over the sample on the empty database. *)
Definition synced_server : Notion.Server :=
  snd (Notion.sync_roundtrips sample_roundtrips "acct" true fresh_server).

End Samples.

(** ** The scheduler *)

Module SchedulerSpec.
Import Scheduler.

(** A running manager in the middle of its wait: started with 1 minute,
    the loop thread has set the deadline and sleeps. *)
Definition waiting_system : option System :=
  run boot [CallStart 1; ThreadStep 0; ThreadStep 0; ThreadStep 0; ThreadStep 0].

(** A race between [stop] and the loop thread: the thread has tested the
    [while] condition when [stop] runs, and assigns [next_sync_time]
    afterwards; a second later the caller reads the countdown. *)
Definition stop_race : list Event :=
  [CallStart 1; ThreadStep 0; CallStop; ThreadStep 0; ThreadStep 0; ThreadStep 0;
   Elapse 1000000].

(** The moves that are not a call of [start]. *)
Definition not_start (ev : Event) : Prop :=
  match ev with CallStart _ => False | _ => True end.

(** The manager is stopped: the flag is down and the event is set. *)
Definition stopped (sys : System) : Prop :=
  is_running (mgr sys) = false /\ stop_event (mgr sys) = true.

(** No loop thread has passed the [while] test without having assigned
    [next_sync_time] yet. *)
Definition no_pending_assign (sys : System) : Prop :=
  Forall (fun pc => pc <> AtSetNext) (threads sys).

(** The waiting system of above, and two continuations after [stop]. *)
Definition waiting : System :=
  match waiting_system with Some sys => sys | None => boot end.

Definition after_stop (trace : list Event) : System :=
  match run (stop waiting) trace with Some sys => sys | None => boot end.

(** A loop thread that has passed the test of the callback and has not
    called it yet, and the number of such threads. *)
Definition at_call (pc : Pc) : bool :=
  match pc with AtCall => true | _ => false end.

Definition pending_calls (sys : System) : nat :=
  length (List.filter at_call (threads sys)).

(** The first minute of a manager started with one minute, up to the call
    of the callback: the loop thread sets the deadline, sleeps sixty times
    a second and tests the condition of the callback. *)
Definition up_to_call : list Event :=
  [ThreadStep 0; ThreadStep 0; ThreadStep 0]
  ++ concat (repeat [ThreadStep 0; Elapse second; ThreadStep 0] 60)
  ++ [ThreadStep 0; ThreadStep 0].

(** The system whose loop thread is about to call back, and what becomes
    of it when [stop] is called at this point. *)
Definition calling : System :=
  match run (start 1 boot) up_to_call with Some sys => sys | None => boot end.

Definition stopped_while_calling (trace : list Event) : System :=
  match run (stop calling) trace with Some sys => sys | None => boot end.

End SchedulerSpec.

(** ** The statistics *)

Module StatisticsSpec.
Import Transformer.

(** The round trips whose [pnl] is a NaN. *)
Definition nan_pnl (rts : list Roundtrip) : list Roundtrip :=
  List.filter (fun rt => PrimFloat.is_nan (pnl rt)) rts.

(** [groups.get(k)] on the insertion-ordered dictionary. *)
Fixpoint group_get {K} (eqb : K -> K -> bool) (k : K) (groups : list (K * GroupStat))
  : option GroupStat :=
  match groups with
  | [] => None
  | (k', g) :: rest => if eqb k k' then Some g else group_get eqb k rest
  end.

(** The round trips of a key, in their order. *)
Definition of_key {K} (eqb : K -> K -> bool) (group_key : Roundtrip -> K) (k : K)
    (rts : list Roundtrip) : list Roundtrip :=
  List.filter (fun rt => eqb (group_key rt) k) rts.

(** The entry of a group after the given round trips were added. *)
Definition tally (mine : list Roundtrip) : GroupStat :=
  fold_left (fun g rt => group_add rt g) mine group_default.

(** The sum of the ["count"] fields of a dictionary of groups. *)
Definition total_count {K} (groups : list (K * GroupStat)) : Z :=
  fold_right (fun kg n => g_count (snd kg) + n) 0 groups.

End StatisticsSpec.

(** ** The results written to Notion *)

Module ResultSpec.
Import Transformer Notion.

Definition result_eqb (a b : ResultName) : bool :=
  match a, b with
  | WIN, WIN | LOSS, LOSS | BE, BE => true
  | _, _ => false
  end.

(** The round trips whose page is written with the given result. *)
Definition pages_with (result : ResultName) (account_name : string)
    (rts : list Roundtrip) : list Roundtrip :=
  List.filter (fun rt => result_eqb (p_result (page_of rt account_name)) result) rts.

End ResultSpec.

(** ** Texts *)

Module TextSpec.

(** A decimal digit. *)
Definition is_digit (a : ascii) : bool :=
  let n := N_of_ascii a in ((48 <=? n) && (n <=? 57))%N.

(** All characters of the string are decimal digits. *)
Fixpoint all_digits (s : string) : bool :=
  match s with
  | EmptyString => true
  | String a rest => is_digit a && all_digits rest
  end.

(** [s.count(c)] for a character. *)
Fixpoint count_char (c : ascii) (s : string) : nat :=
  match s with
  | EmptyString => 0
  | String a rest => (if Ascii.eqb a c then 1 else 0) + count_char c rest
  end.

End TextSpec.

(** ** A synchronisation run *)

Module PipelineSpec.
Import Transformer Notion SyncApp.

(** What a part of a run has done, from the totals and services before to
    those after: the counters have only grown, the pages written are as
    many as [created] has grown, the round trips created or skipped are
    among those counted, all of them when no error was counted, and one
    trade search was made for each of the [n] accounts. *)
Definition progress (n : nat) (before after : TotalStats * Gateway * Server) : Prop :=
  let '(t0, gw0, srv0) := before in
  let '(t, gw, srv) := after in
  let r := ts_roundtrips t - ts_roundtrips t0 in
  let c := ts_created t - ts_created t0 in
  let s := ts_skipped t - ts_skipped t0 in
  let e := ts_errors t - ts_errors t0 in
  0 <= r /\ 0 <= c /\ 0 <= s /\ 0 <= e
  /\ c + s <= r
  /\ (e = 0 -> c + s = r)
  /\ c + s + e <= r + Z.of_nat n
  /\ (exists new, pages srv = pages srv0 ++ new /\ len new = c)
  /\ searches gw = (searches gw0 + n)%nat
  /\ answer gw = answer gw0.

End PipelineSpec.

(** ** The pace of the scheduler *)

Module TimingSpec.
Import Scheduler SchedulerSpec.

(** What the clock has to show for a loop thread at a program point, when
    the callback has been called [k] times and the interval is [n]
    minutes: each call is a full interval after the one before, and in
    the wait every finished round has taken a second. *)
Definition on_time (n : Z) (k : nat) (clock : Z) (pc : Pc) : Prop :=
  let period := n * 60 * second in
  let served := Z.of_nat k * period in
  served <= clock
  /\ match pc with
     | AtWaitCheck rounds => served + (n * 60 - rounds) * second <= clock
     | AtSleep rounds wake => served + (n * 60 - rounds) * second + second <= wake
     | AtFire | AtCall => served + period <= clock
     | _ => True
     end.

(** A manager with one loop thread that keeps the pace of the interval. *)
Definition paced (n : Z) (sys : System) : Prop :=
  interval_minutes (mgr sys) = n
  /\ exists pc, threads sys = [pc] /\ on_time n (fired sys) (now sys) pc.

(** The first minute of a manager started with one minute: the loop
    thread sets the deadline, sleeps sixty times a second and calls back. *)
Definition first_minute : list Event := up_to_call ++ [ThreadStep 0].

Definition after_first_minute : System :=
  match run (start 1 boot) first_minute with Some sys => sys | None => boot end.

End TimingSpec.

(** ** The account list *)

Module AccountListSpec.
Import SyncApp AccountList.

(** The three blocks of [_update_account_list] on the sorted lists. *)
Definition sections (express combine practice : list (Z * string))
  : list string * option string :=
  add_section "━━ プラクティス ━━" 5 practice
    (add_section "━━ コンバイン ━━" 5 combine
       (add_section "━━ エクスプレス ━━" 10 express ([], None))).

(** The box after a first block: a header, then the line of an item of the
    pool, which is the selection to come. *)
Definition first_line (pool : list (Z * string)) (st : list string * option string) : Prop :=
  exists header item rest,
    fst st = header :: snd item :: rest
    /\ snd st = Some (snd item)
    /\ is_header header = true
    /\ item ∈ pool.

(** Three accounts, one of each kind, and an empty combo box. *)
Definition sample_accounts : list Account :=
  [{| acc_id := 11; acc_name := "50KTC-V2-140427-111"; acc_balance := 49850.25%float |};
   {| acc_id := 12; acc_name := "express-v2-140427-27209524";
      acc_balance := 50000%float |};
   {| acc_id := 13; acc_name := "PRAC-V2-140427-5"; acc_balance := 150000.5%float |}].

Definition empty_combo : Combo := {| values := []; account_var := "" |}.

End AccountListSpec.

(** * Properties *)

(** Inversion of a successful chain of binds in the [option] monad. *)
Ltac bind_inv H :=
  repeat match type of H with
  | (?m ≫= _) = Some _ =>
      let E := fresh "E" in
      destruct m eqn:E; cbn [mbind option_bind] in H; [|discriminate H]
  end.

(** ** Rounding to decimals *)

Module RoundingFacts.
Import RoundingSpec.

(** [div_half_even] gives the nearest integer, the even one at a tie. *)
Lemma div_half_even_nearest (num den : Z) :
  0 <= num -> 0 < den ->
  0 <= PyFloat.div_half_even num den
  /\ nearest_even num den (PyFloat.div_half_even num den).
Proof.
  intros Hnum Hden. unfold PyFloat.div_half_even, nearest_even.
  pose proof (Z.div_mod num den ltac:(lia)) as Hdm.
  pose proof (Z.mod_pos_bound num den Hden) as Hr.
  pose proof (Z.div_pos num den Hnum Hden) as Hq.
  set (q := num / den) in *. set (r := num mod den) in *.
  assert (Hdiff : forall k, 2 * num - 2 * (q + k) * den = 2 * r - 2 * k * den)
    by (intros k; rewrite Hdm; ring).
  destruct (Z.compare_spec (2 * r) den) as [Heq|Hlt|Hgt].
  - destruct (Z.even q) eqn:Heven.
    + split; [lia|]. specialize (Hdiff 0). rewrite Z.add_0_r in Hdiff.
      rewrite Hdiff. split; [lia | intros _; exact Heven].
    + split; [lia|]. rewrite (Hdiff 1). split; [lia|]. intros _.
      rewrite Z.even_add, Heven. reflexivity.
  - split; [lia|]. specialize (Hdiff 0). rewrite Z.add_0_r in Hdiff.
    rewrite Hdiff. split; lia.
  - split; [lia|]. rewrite (Hdiff 1). split; lia.
Qed.

Lemma nearest_even_unique (num den n n' : Z) :
  0 < den -> nearest_even num den n -> nearest_even num den n' -> n = n'.
Proof.
  unfold nearest_even. intros Hden [Hn He] [Hn' He'].
  assert (Hclose : -1 <= n - n' <= 1) by nia.
  destruct (Z.eq_dec n n') as [|Hne]; [assumption|]. exfalso.
  assert (Htie : Z.abs (2 * num - 2 * n * den) = den
                 /\ Z.abs (2 * num - 2 * n' * den) = den) by nia.
  destruct Htie as [Ht Ht']. specialize (He Ht). specialize (He' Ht').
  assert (Hstep : n = n' + 1 \/ n' = n + 1) by lia.
  destruct Hstep as [->| ->].
  - rewrite Z.even_add, He' in He. discriminate.
  - rewrite Z.even_add, He in He'. discriminate.
Qed.

(** [PyFloat.round] rounds to decimals. *)
Lemma round_rounded_to (x : float) (ndigits : Z) :
  0 <= ndigits -> rounded_to ndigits x (PyFloat.round x ndigits).
Proof.
  intros Hnd. unfold rounded_to, PyFloat.round.
  destruct (Prim2SF x) as [s|s| |s m e]; try reflexivity.
  assert (Hp : 0 < 10 ^ ndigits) by (apply Z.pow_pos_nonneg; lia).
  assert (Hzero : forall n, n <= 0 ->
            SF2Prim (S754_zero s) = decimal_float s n ndigits).
  { intros n Hn. unfold decimal_float.
    destruct n as [|p|p]; [| lia |]; now destruct s. }
  assert (Hten : PyFloat.Z2SF (10 ^ ndigits)
                 = S754_finite false (Z.to_pos (10 ^ ndigits)) 0).
  { destruct (10 ^ ndigits) as [|pp|pp]; try lia. reflexivity. }
  unfold scaled_num, scaled_den. cbv zeta.
  destruct (Z.leb_spec 0 e) as [He|He].
  - exists (Z.pos m * 2 ^ e * 10 ^ ndigits).
    assert (H2 : 0 < 2 ^ e) by (apply Z.pow_pos_nonneg; lia).
    rewrite Z.max_r by lia. rewrite Z.max_l by lia.
    split; [nia|]. split.
    + unfold nearest_even. change (2 ^ 0) with 1.
      replace (2 * (Z.pos m * 10 ^ ndigits * 2 ^ e)
               - 2 * (Z.pos m * 2 ^ e * 10 ^ ndigits) * 1) with 0 by ring.
      cbn. split; [lia | discriminate].
    + destruct (Z.pos m * 2 ^ e * 10 ^ ndigits) as [|n'|n'] eqn:En;
        [now apply Hzero | unfold decimal_float; now rewrite Hten | now apply Hzero].
  - exists (PyFloat.div_half_even (Z.pos m * 10 ^ ndigits) (2 ^ (- e))).
    assert (H2 : 0 < 2 ^ (- e)) by (apply Z.pow_pos_nonneg; lia).
    rewrite Z.max_l by lia. rewrite Z.max_r by lia.
    change (2 ^ 0) with 1. rewrite Z.mul_1_r.
    destruct (div_half_even_nearest (Z.pos m * 10 ^ ndigits) (2 ^ (- e)))
      as [Hn Hnear]; [nia | exact H2 |].
    split; [exact Hn|]. split; [exact Hnear|].
    destruct (PyFloat.div_half_even _ _) as [|n'|n'];
      [now apply Hzero | unfold decimal_float; now rewrite Hten | now apply Hzero].
Qed.

(** A float has one rounding to [ndigits] decimals. *)
Lemma rounded_to_unique (ndigits : Z) (x r r' : float) :
  rounded_to ndigits x r -> rounded_to ndigits x r' -> r = r'.
Proof.
  unfold rounded_to. destruct (Prim2SF x) as [s|s| |s m e]; try congruence.
  intros (n & _ & Hn & ->) (n' & _ & Hn' & ->).
  assert (Hden : 0 < scaled_den e)
    by (unfold scaled_den; apply Z.pow_pos_nonneg; lia).
  now rewrite (nearest_even_unique _ _ n n' Hden Hn Hn').
Qed.

(** What rounds to [ndigits] decimals is what [PyFloat.round] returns. *)
Lemma rounded_to_round (ndigits : Z) (x r : float) :
  0 <= ndigits -> rounded_to ndigits x r -> r = PyFloat.round x ndigits.
Proof.
  intros Hnd Hr. eapply rounded_to_unique; [exact Hr|]. now apply round_rounded_to.
Qed.

End RoundingFacts.

(** ** The scheduler *)

Module SchedulerFacts.
Import Scheduler SchedulerSpec.

(** C8: [start] on a manager that is already running changes nothing: the
    flags, the interval, the deadline, the stop event, the loop threads,
    the clock and the callback count are all as before, and the call is an
    ordinary move of the system (no error). *)
Theorem start_while_running_is_noop (sys : System) (interval : Z) :
  is_running (mgr sys) = true ->
  start interval sys = sys /\ step sys (CallStart interval) = Some sys.
Proof.
  intros Hrun. assert (Hs : start interval sys = sys).
  { unfold start. now rewrite Hrun. }
  split; [exact Hs|]. cbn [step]. now rewrite Hs.
Qed.

Lemma start_while_running_is_noop_witness :
  exists sys, waiting_system = Some sys
    /\ is_running (mgr sys) = true
    /\ threads sys = [AtSleep 60 1000000]
    /\ start 5 sys = sys /\ step sys (CallStart 5) = Some sys.
Proof.
  eexists. split; [reflexivity|]. split; [reflexivity|]. split; [reflexivity|].
  apply (start_while_running_is_noop _ 5). reflexivity.
Defined.

(** Right after [stop] the deadline is cleared and the sentinel is shown. *)
Lemma stop_clears_deadline (sys : System) :
  next_sync_time (mgr (stop sys)) = None
  /\ get_remaining_time (stop sys) = "--:--"%string.
Proof. split; reflexivity. Qed.

(** The caller's reads and the clock do not bring a deadline back. *)
Lemma elapse_keeps_sentinel (sys sys' : System) (d : Z) :
  step sys (Elapse d) = Some sys' ->
  next_sync_time (mgr sys) = None ->
  get_remaining_time sys' = "--:--"%string.
Proof.
  cbn [step]. destruct (d <? 0); [discriminate|].
  intros [= <-] Hnone. unfold get_remaining_time. cbn. now rewrite Hnone.
Qed.

(** C9 fails on the code: in the run [stop_race] the loop thread assigns
    [next_sync_time] after [stop] has cleared it.  At the end the manager
    is stopped, its thread has returned without calling back, and
    [get_remaining_time] shows a countdown, not the sentinel. *)
Theorem stale_countdown_after_stop :
  exists sys,
    run boot stop_race = Some sys
    /\ is_running (mgr sys) = false
    /\ stop_event (mgr sys) = true
    /\ threads sys = [Finished]
    /\ fired sys = 0%nat
    /\ next_sync_time (mgr sys) = Some 60000000
    /\ get_remaining_time sys = "00:59"%string.
Proof. eexists. repeat split; reflexivity. Qed.

(** *** What [stop] guarantees *)

Lemma run_loop_step_stopped (clock : Z) (m m' : AutoSyncManager) (pc pc' : Pc)
    (calls calls' : nat) :
  is_running m = false -> stop_event m = true ->
  _run_loop_step clock m pc calls = Some (m', pc', calls') ->
  (calls' = calls + (if at_call pc then 1 else 0))%nat
  /\ at_call pc' = false
  /\ is_running m' = false /\ stop_event m' = true
  /\ (pc <> AtSetNext -> m' = m /\ pc' <> AtSetNext).
Proof.
  intros Hr Hs. unfold _run_loop_step, loop_condition.
  destruct pc; rewrite ?Hr, ?Hs; cbn.
  - intros [= <- <- <-]. repeat split; auto; discriminate.
  - intros [= <- <- <-]. cbn. repeat split; auto. congruence.
  - intros [= <- <- <-]. repeat split; auto; discriminate.
  - destruct (rounds <=? 0); intros [= <- <- <-]; repeat split; auto; discriminate.
  - destruct (wake <=? clock); [|discriminate].
    intros [= <- <- <-]. repeat split; auto; discriminate.
  - intros [= <- <- <-]. repeat split; auto; discriminate.
  - intros [= <- <- <-]. cbn. repeat split; auto; try lia; discriminate.
  - discriminate.
Qed.

(** Replacing one program point changes the number of pending calls by
    what the old and the new point count. *)
Lemma pending_insert (ths : list Pc) (tid : nat) (pc pc' : Pc) :
  ths !! tid = Some pc ->
  (length (List.filter at_call (<[tid := pc']> ths)) + (if at_call pc then 1 else 0)
   = length (List.filter at_call ths) + (if at_call pc' then 1 else 0))%nat.
Proof.
  revert tid. induction ths as [|th ths IH]; intros [|tid] Hth; try discriminate.
  - injection Hth as ->. cbn.
    destruct (at_call pc), (at_call pc'); cbn [length]; lia.
  - cbn in Hth. specialize (IH tid Hth).
    change (<[S tid := pc']> (th :: ths)) with (th :: <[tid := pc']> ths).
    cbn [List.filter].
    destruct (at_call th), (at_call pc), (at_call pc'); cbn [length]; lia.
Qed.

Lemma step_stopped (sys sys' : System) (ev : Event) :
  not_start ev -> stopped sys -> step sys ev = Some sys' ->
  stopped sys'
  /\ (fired sys' + pending_calls sys' = fired sys + pending_calls sys)%nat
  /\ (fired sys <= fired sys')%nat
  /\ (no_pending_assign sys -> next_sync_time (mgr sys) = None ->
      no_pending_assign sys' /\ next_sync_time (mgr sys') = None).
Proof.
  intros Hev [Hr Hs]. destruct ev as [n| |d|tid]; cbn [step]; [destruct Hev| | |].
  - intros [= <-]. unfold stopped, no_pending_assign, pending_calls. cbn. auto 6.
  - destruct (d <? 0); [discriminate|]. intros [= <-].
    unfold stopped, no_pending_assign, pending_calls. cbn. auto 6.
  - intros Hstep. destruct (threads sys !! tid) as [pc|] eqn:Hpc; [|discriminate].
    cbn [mbind option_bind] in Hstep.
    destruct (_run_loop_step (now sys) (mgr sys) pc (fired sys))
      as [[[m pc'] calls]|] eqn:Hth; [|discriminate].
    injection Hstep as <-.
    destruct (run_loop_step_stopped _ _ _ _ _ _ _ Hr Hs Hth)
      as (Hcalls & Hnot & Hr' & Hs' & Hkeep).
    pose proof (pending_insert (threads sys) tid pc pc' Hpc) as Hpend.
    rewrite Hnot in Hpend.
    unfold stopped, no_pending_assign, pending_calls. cbn.
    split; [split; assumption|].
    split; [destruct (at_call pc); lia|].
    split; [destruct (at_call pc); lia|]. intros Hp Hn.
    assert (Hne : pc <> AtSetNext).
    { rewrite Forall_forall in Hp. apply Hp. eapply list_elem_of_lookup_2, Hpc. }
    destruct (Hkeep Hne) as [-> Hpc']. split; [|exact Hn].
    apply Forall_insert; assumption.
Qed.

(** X1: the callbacks after [stop].  Whatever the loop threads and the
    clock do before the next [start], the callback is called once more by
    each loop thread that had passed the test of the callback when [stop]
    was called and had not called it yet, and by no other: the calls made
    and the calls pending add up to what they were.  When no thread stood
    at that point, the callback is not called again.  The manager stays
    not running. *)
Theorem callbacks_after_stop (sys sys' : System) (trace : list Event) :
  Forall not_start trace ->
  run (stop sys) trace = Some sys' ->
  (fired sys' + pending_calls sys' = fired sys + pending_calls sys)%nat
  /\ (pending_calls sys = 0%nat -> fired sys' = fired sys)
  /\ is_running (mgr sys') = false.
Proof.
  intros Htrace.
  assert (Hgen : forall s, stopped s -> run s trace = Some sys' ->
            (fired sys' + pending_calls sys' = fired s + pending_calls s)%nat
            /\ (fired s <= fired sys')%nat
            /\ is_running (mgr sys') = false).
  { induction Htrace as [|ev trace Hev _ IH]; intros s Hst Hrun.
    - injection Hrun as <-. split; [reflexivity|]. split; [lia | apply Hst].
    - cbn [run] in Hrun. bind_inv Hrun.
      match goal with E : step s ev = Some ?r |- _ =>
        destruct (step_stopped _ _ _ Hev Hst E) as (Hst' & Hf & Hle & _) end.
      destruct (IH _ Hst' Hrun) as (Hf' & Hle' & Hr').
      split; [lia|]. split; [lia | exact Hr']. }
  intros Hrun.
  destruct (Hgen (stop sys)) as (Hsum & Hle & Hr); [split; reflexivity | exact Hrun|].
  change (fired (stop sys)) with (fired sys) in Hsum, Hle.
  change (pending_calls (stop sys)) with (pending_calls sys) in Hsum.
  split; [exact Hsum|]. split; [lia | exact Hr].
Qed.

(** X2: when no loop thread stands between the [while] test and the
    assignment as [stop] is called, [get_remaining_time] shows the
    sentinel from then on, until the next [start]. *)
Theorem sentinel_after_stop (sys sys' : System) (trace : list Event) :
  no_pending_assign sys ->
  Forall not_start trace ->
  run (stop sys) trace = Some sys' ->
  get_remaining_time sys' = "--:--"%string.
Proof.
  intros Hpend Htrace.
  assert (Hgen : forall s, stopped s -> no_pending_assign s ->
                           next_sync_time (mgr s) = None ->
                           run s trace = Some sys' ->
                           next_sync_time (mgr sys') = None).
  { induction Htrace as [|ev trace Hev _ IH]; intros s Hst Hp Hn Hrun.
    - now injection Hrun as <-.
    - cbn [run] in Hrun. bind_inv Hrun.
      match goal with E : step s ev = Some ?r |- _ =>
        destruct (step_stopped _ _ _ Hev Hst E) as (Hst' & _ & _ & Hkeep) end.
      destruct (Hkeep Hp Hn) as [Hp' Hn']. now apply (IH _ Hst' Hp' Hn'). }
  intros Hrun. unfold get_remaining_time.
  rewrite (Hgen (stop sys)); [reflexivity|split; reflexivity|exact Hpend|reflexivity|exact Hrun].
Qed.

Lemma callbacks_after_stop_witness :
  (let trace := [Elapse 1000000; ThreadStep 0; ThreadStep 0] in
   run (stop waiting) trace = Some (after_stop trace)
   /\ pending_calls waiting = 0%nat
   /\ threads (after_stop trace) = [Finished]
   /\ fired (after_stop trace) = fired waiting
   /\ is_running (mgr (after_stop trace)) = false)
  /\ (let trace := [ThreadStep 0; ThreadStep 0] in
      run (stop calling) trace = Some (stopped_while_calling trace)
      /\ threads calling = [AtCall]
      /\ fired calling = 0%nat
      /\ fired (stopped_while_calling trace) = 1%nat
      /\ (fired (stopped_while_calling trace) + pending_calls (stopped_while_calling trace)
          = fired calling + pending_calls calling)%nat).
Proof.
  split.
  - split; [vm_compute; reflexivity|]. split; [vm_compute; reflexivity|].
    split; [vm_compute; reflexivity|].
    destruct (callbacks_after_stop waiting
                (after_stop [Elapse 1000000; ThreadStep 0; ThreadStep 0])
                [Elapse 1000000; ThreadStep 0; ThreadStep 0]) as (_ & Hnone & Hr).
    + repeat constructor.
    + vm_compute. reflexivity.
    + split; [apply Hnone; vm_compute; reflexivity | exact Hr].
  - split; [vm_compute; reflexivity|]. split; [vm_compute; reflexivity|].
    split; [vm_compute; reflexivity|]. split; [vm_compute; reflexivity|].
    apply (callbacks_after_stop calling
             (stopped_while_calling [ThreadStep 0; ThreadStep 0])
             [ThreadStep 0; ThreadStep 0]).
    + repeat constructor.
    + vm_compute. reflexivity.
Defined.

Lemma sentinel_after_stop_witness :
  let trace := [Elapse 1000000; ThreadStep 0; ThreadStep 0; Elapse 5000000] in
  run (stop waiting) trace = Some (after_stop trace)
  /\ get_remaining_time waiting = "01:00"%string
  /\ get_remaining_time (after_stop trace) = "--:--"%string.
Proof.
  split; [vm_compute; reflexivity|]. split; [vm_compute; reflexivity|].
  apply (sentinel_after_stop waiting (after_stop _)
           [Elapse 1000000; ThreadStep 0; ThreadStep 0; Elapse 5000000]).
  - repeat constructor; discriminate.
  - repeat constructor.
  - vm_compute. reflexivity.
Defined.

End SchedulerFacts.

(** ** The statistics *)

Module StatisticsFacts.
Import Transformer Samples RoundingSpec RoundingFacts.




(** C5 as the code has it: on an object without round trips
    [get_statistics] returns the empty dictionary, which has none of the
    statistics' keys, whatever the other two lists hold. *)
Theorem get_statistics_empty (ops ues : list Trade) :
  get_statistics {| roundtrips := []; open_positions := ops; unmatched_exits := ues |}
    = Some EmptyDict
  /\ stats_get_total_roundtrips EmptyDict = None
  /\ stats_get_profit_factor EmptyDict = None.
Proof. repeat split. Qed.

(** C5 as stated fails: the result for the empty collection is not a
    dictionary of zeros. *)
Lemma get_statistics_empty_not_zero_struct :
  get_statistics init = Some EmptyDict
  /\ (forall s : Statistics, Some EmptyDict <> Some (StatsOf s))
  /\ stats_get_profit_factor EmptyDict <> Some PyFloat.fzero.
Proof. repeat split; discriminate. Qed.



End StatisticsFacts.

(** ** The matcher *)

Module MatcherFacts.
Import Transformer MatcherSpec RoundingSpec RoundingFacts.

(** *** Sorting, filtering and grouping keep the elements *)

Lemma insert_sorted_perm {A} (lt : A -> A -> bool) (x : A) (l : list A) :
  insert_sorted lt x l ≡ₚ x :: l.
Proof.
  induction l as [|y l IH]; cbn; [reflexivity|].
  destruct (lt y x); [|reflexivity].
  rewrite IH. apply perm_swap.
Qed.

Lemma stable_sort_perm {A} (lt : A -> A -> bool) (l : list A) :
  stable_sort lt l ≡ₚ l.
Proof.
  induction l as [|x l IH]; cbn; [reflexivity|].
  rewrite insert_sorted_perm. now rewrite IH.
Qed.

Lemma filter_perm {A} (f : A -> bool) (l l' : list A) :
  l ≡ₚ l' -> List.filter f l ≡ₚ List.filter f l'.
Proof.
  induction 1 as [|x l l' _ IH|x y l|l l' l'' _ IH1 _ IH2]; cbn.
  - reflexivity.
  - destruct (f x); [now constructor | exact IH].
  - destruct (f x), (f y); try reflexivity. apply perm_swap.
  - now rewrite IH1.
Qed.

Lemma filter_app_perm {A} (f : A -> bool) (l1 l2 : list A) :
  List.filter f (l1 ++ l2) = List.filter f l1 ++ List.filter f l2.
Proof. apply List.filter_app. Qed.

Lemma group_append_perm (t : Trade) (groups : list (string * list Trade)) :
  concat (map snd (group_append (t_contractId t) t groups))
    ≡ₚ concat (map snd groups) ++ [t].
Proof.
  induction groups as [|[k ts] groups IH]; cbn; [reflexivity|].
  destruct (String.eqb _ k); cbn.
  - rewrite <- !app_assoc. apply Permutation_app_head, Permutation_app_comm.
  - rewrite IH. now rewrite app_assoc.
Qed.

Lemma group_append_keyed (t : Trade) (groups : list (string * list Trade)) :
  well_keyed groups -> well_keyed (group_append (t_contractId t) t groups).
Proof.
  unfold well_keyed. induction 1 as [|[k ts] groups Hg Hgs IH]; cbn.
  - repeat constructor.
  - destruct (String.eqb_spec (t_contractId t) k) as [Hk|Hk].
    + constructor; [|exact Hgs]. cbn in *. apply Forall_app. split; [exact Hg|].
      now repeat constructor.
    + constructor; [exact Hg | exact IH].
Qed.

Lemma group_fold_perm (trades : list Trade) (groups : list (string * list Trade)) :
  well_keyed groups ->
  let groups' := fold_left (fun gs t => group_append (t_contractId t) t gs) trades groups in
  concat (map snd groups') ≡ₚ concat (map snd groups) ++ trades
  /\ well_keyed groups'.
Proof.
  revert groups. induction trades as [|t trades IH]; intros groups Hk; cbn.
  - rewrite app_nil_r. now split.
  - destruct (IH _ (group_append_keyed t groups Hk)) as [Hp Hk'].
    split; [|exact Hk']. cbn in Hp. rewrite Hp, group_append_perm.
    now rewrite <- app_assoc.
Qed.

Lemma group_by_contract_perm (trades : list Trade) :
  concat (map snd (group_by_contract trades)) ≡ₚ trades
  /\ well_keyed (group_by_contract trades).
Proof.
  unfold group_by_contract.
  destruct (group_fold_perm trades []) as [Hp Hk]; [constructor|]. now split.
Qed.

(** *** The sort puts the keys in ascending order *)

Lemma string_compare_agrees (a b : string) :
  String.compare a b = String_as_OT.compare a b.
Proof.
  reflexivity.
Qed.

Lemma ltb_lt (a b : string) : String.ltb a b = true <-> String_as_OT.lt a b.
Proof.
  unfold String.ltb, String_as_OT.lt. rewrite string_compare_agrees.
  destruct (String_as_OT.compare a b); split; congruence.
Qed.

Lemma str_le_trans (a b c : string) : str_le a b -> str_le b c -> str_le a c.
Proof.
  unfold str_le. intros Hab Hbc. apply not_true_is_false. intros Hca.
  apply ltb_lt in Hca.
  destruct (String_as_OT.compare_spec b a) as [->|Hba|Hab'].
  - apply ltb_lt in Hca. congruence.
  - apply ltb_lt in Hba. congruence.
  - assert (Hcb : String_as_OT.lt c b) by (etransitivity; eassumption).
    apply ltb_lt in Hcb. congruence.
Qed.

Lemma str_le_of_lt (a b : string) : String.ltb a b = true -> str_le a b.
Proof.
  unfold str_le. intros Hab. apply not_true_is_false. intros Hba.
  apply ltb_lt in Hab, Hba.
  exact (irreflexivity _ a (transitivity Hab Hba)).
Qed.

Section Sorting.
Context {A : Type} (key : A -> string).

Lemma insert_sorted_Forall (P : A -> Prop) (x : A) (l : list A) :
  P x -> Forall P l ->
  Forall P (insert_sorted (fun a b => String.ltb (key a) (key b)) x l).
Proof.
  intros Hx. induction 1 as [|y l Hy Hl IH]; cbn; [now repeat constructor|].
  destruct (String.ltb (key y) (key x)); repeat constructor; assumption.
Qed.

Lemma insert_sorted_sorted (x : A) (l : list A) :
  StronglySorted (key_le key) l ->
  StronglySorted (key_le key) (insert_sorted (fun a b => String.ltb (key a) (key b)) x l).
Proof.
  induction 1 as [|y l Hs IH Hall]; cbn; [repeat constructor|].
  destruct (String.ltb (key y) (key x)) eqn:Hyx.
  - constructor; [exact IH|]. apply insert_sorted_Forall; [|exact Hall].
    now apply str_le_of_lt.
  - constructor; [now constructor|]. constructor; [exact Hyx|].
    eapply Forall_impl; [exact Hall|]. cbn. intros z Hz.
    now apply str_le_trans with (key y).
Qed.

Lemma sort_by_key_sorted (l : list A) : StronglySorted (key_le key) (sort_by_key key l).
Proof.
  unfold sort_by_key, stable_sort. induction l as [|x l IH]; cbn; [constructor|].
  now apply insert_sorted_sorted.
Qed.

End Sorting.

(** *** The entry queue *)

Lemma find_matching_perm (q : list Trade) (ex e : Trade) (q' : list Trade) :
  _find_matching_entry q ex = (Some e, q') -> q ≡ₚ e :: q'.
Proof.
  revert q'. induction q as [|a q IH]; intros q'; cbn; [discriminate|].
  destruct (entry_matches a ex).
  - now intros [= -> ->].
  - destruct (_find_matching_entry q ex) as [found rest].
    intros [= -> <-]. rewrite (IH rest eq_refl). apply perm_swap.
Qed.

Lemma take_entry_perm (q : list Trade) (ex e : Trade) (q' : list Trade) :
  take_entry q ex = Some (e, q') -> q ≡ₚ e :: q'.
Proof.
  unfold take_entry. destruct q as [|front behind]; [discriminate|].
  destruct (_find_matching_entry (front :: behind) ex) as [[found|] rest] eqn:E.
  - intros [= <- <-]. now apply find_matching_perm with ex.
  - now intros [= <- <-].
Qed.

Section WithRuntime.
Context `{PyRuntime}.

(** *** Pairing *)

Lemma entry_matches_spec (e ex : Trade) :
  entry_matches e ex = true <-> t_side e <> t_side ex /\ t_size e = t_size ex.
Proof.
  unfold entry_matches. rewrite andb_true_iff, negb_true_iff, Z.eqb_neq, Z.eqb_eq.
  reflexivity.
Qed.

(** [_find_matching_entry] pops the entry at the first matching index. *)
Lemma find_matching_first (q : list Trade) (ex : Trade) (i : nat) (e : Trade) :
  q !! i = Some e ->
  entry_matches e ex = true ->
  (forall j e', (j < i)%nat -> q !! j = Some e' -> entry_matches e' ex = false) ->
  _find_matching_entry q ex = (Some e, delete i q).
Proof.
  revert i. induction q as [|a q IH]; intros i Hi He Hbefore; [discriminate|].
  destruct i as [|i]; cbn in Hi |- *.
  - injection Hi as ->. now rewrite He.
  - rewrite (Hbefore 0%nat a) by (cbn; first [lia | reflexivity]).
    rewrite (IH i Hi He); [reflexivity|].
    intros j e' Hj Hje'. apply (Hbefore (S j) e'); [lia | exact Hje'].
Qed.

(** Without a matching entry it returns [None] and leaves the queue. *)
Lemma find_matching_none (q : list Trade) (ex : Trade) :
  (forall e, e ∈ q -> entry_matches e ex = false) ->
  _find_matching_entry q ex = (None, q).
Proof.
  induction q as [|a q IH]; intros Hall; [reflexivity|].
  cbn. rewrite (Hall a) by constructor.
  rewrite IH; [reflexivity|]. intros e He. apply Hall. now constructor.
Qed.

(** C2: on a non-empty queue the exit is paired with the first entry, in
    queue order, of the opposite side and the same size, which leaves the
    queue; when the queue has no such entry the exit is paired with the
    front entry, whatever its side and size.  The round trip of the
    iteration is built from that pair. *)
Theorem exit_pairing (q : list Trade) (ex : Trade) :
  q <> [] ->
  (forall i e,
      q !! i = Some e ->
      t_side e <> t_side ex /\ t_size e = t_size ex ->
      (forall j e', (j < i)%nat -> q !! j = Some e' ->
                    ~ (t_side e' <> t_side ex /\ t_size e' = t_size ex)) ->
      take_entry q ex = Some (e, delete i q))
  /\ ((forall e, e ∈ q -> ~ (t_side e <> t_side ex /\ t_size e = t_size ex)) ->
      exists front behind, q = front :: behind /\ take_entry q ex = Some (front, behind))
  /\ (forall contract_id run q' run',
        exit_step contract_id (q, run) ex = Some (q', run') ->
        exists e rt,
          take_entry q ex = Some (e, q')
          /\ _create_roundtrip (next_id run + 1) contract_id e ex = Some rt
          /\ roundtrips (out run') = roundtrips (out run) ++ [rt]
          /\ unmatched_exits (out run') = unmatched_exits (out run)).
Proof.
  intros Hq. destruct q as [|front behind]; [congruence|]. clear Hq.
  split; [|split].
  - intros i e Hi He Hbefore. unfold take_entry.
    rewrite (find_matching_first _ ex i e Hi); [reflexivity| |].
    + now apply entry_matches_spec.
    + intros j e' Hj Hje'. apply not_true_is_false.
      rewrite entry_matches_spec. now apply (Hbefore j e').
  - intros Hnone. exists front, behind. split; [reflexivity|].
    unfold take_entry. rewrite find_matching_none; [reflexivity|].
    intros e He. apply not_true_is_false. rewrite entry_matches_spec.
    now apply Hnone.
  - intros cid run q' run' Hstep. unfold exit_step in Hstep.
    destruct (take_entry (front :: behind) ex) as [[e q2]|] eqn:Etake.
    2:{ unfold take_entry in Etake.
        destruct (_find_matching_entry _ _) as [[?|] ?]; discriminate. }
    bind_inv Hstep. injection Hstep as <- <-.
    eexists _, _. split; [reflexivity|]. split; [eassumption|]. split; reflexivity.
Qed.

(** *** Derived fields *)

Lemma create_roundtrip_fields (rid : Z) (cid : string) (en ex : Trade) (rt : Roundtrip) :
  _create_roundtrip rid cid en ex = Some rt ->
  direction rt = (if t_side en =? 0 then LONG else SHORT)
  /\ points rt =
       PyFloat.round (if t_side en =? 0 then (t_price ex - t_price en)%float
                      else (t_price en - t_price ex)%float) 2
  /\ total_fees rt = (fees_or_zero en + fees_or_zero ex)%float
  /\ t_profitAndLoss ex = Some (pnl rt)
  /\ net_pnl rt = PyFloat.round (pnl rt - total_fees rt)%float 2
  /\ entry rt = leg_of en /\ exit rt = leg_of ex
  /\ contract_id rt = cid /\ roundtrip_id rt = rid.
Proof.
  unfold _create_roundtrip. intros Hc. bind_inv Hc. injection Hc as <-.
  cbn. destruct (t_side en =? 0); repeat split.
Qed.

Lemma example_roundtrip (cid t0 t1 : string) (o0 o1 : Z) (d0 d1 : datetime) (secs : Z) :
  parse_timestamp t0 = Some d0 ->
  parse_timestamp t1 = Some d1 ->
  seconds_between d1 d0 = Some secs ->
  exists rt,
    _create_roundtrip 1 cid (example_entry cid t0 o0) (example_exit cid t1 o1) = Some rt
    /\ direction rt = LONG /\ points rt = 5%float /\ total_fees rt = 1%float
    /\ pnl rt = 10%float /\ net_pnl rt = 9%float.
Proof.
  intros H0 H1 Hs. unfold _create_roundtrip.
  cbn [example_entry example_exit t_creationTimestamp].
  rewrite H0, H1. cbn [mbind option_bind]. rewrite Hs. cbn [mbind option_bind].
  cbn [t_profitAndLoss]. eexists. split; [reflexivity|].
  repeat split; vm_compute; reflexivity.
Qed.

Lemma example_transform (cid t0 t1 : string) (o0 o1 : Z) (rt : Roundtrip) :
  _create_roundtrip 1 cid (example_entry cid t0 o0) (example_exit cid t1 o1) = Some rt ->
  transform [example_entry cid t0 o0; example_exit cid t1 o1]
    = Some {| roundtrips := [rt]; open_positions := []; unmatched_exits := [] |}.
Proof.
  intros Hrt. unfold transform, group_by_contract.
  cbn [fold_left group_append example_entry example_exit t_contractId].
  rewrite String.eqb_refl. cbn [app contracts_loop contract_step].
  fold (example_entry cid t0 o0) (example_exit cid t1 o1).
  assert (Hsplit :
    List.filter is_entry (sort_by_key t_creationTimestamp
        [example_entry cid t0 o0; example_exit cid t1 o1]) = [example_entry cid t0 o0]
    /\ List.filter is_exit (sort_by_key t_creationTimestamp
        [example_entry cid t0 o0; example_exit cid t1 o1]) = [example_exit cid t1 o1]).
  { unfold sort_by_key, stable_sort. cbn [fold_right insert_sorted].
    destruct (String.ltb _ _); split; reflexivity. }
  destruct Hsplit as [-> ->].
  cbn [exits_loop exit_step take_entry _find_matching_entry].
  replace (entry_matches (example_entry cid t0 o0) (example_exit cid t1 o1))
    with true by reflexivity.
  cbn [next_id Z.add]. change (0 + 1) with 1. rewrite Hrt.
  reflexivity.
Qed.

(** C3: the fields [_create_roundtrip] derives from a paired entry and
    exit.  The direction is LONG exactly for a BUY entry; the points are
    the price difference in the direction of the trade, rounded to 2
    decimals (the float nearest to the nearest number of hundredths); the
    total fees are the two fees, a missing fee being zero; the profit is
    that of the exit; the net profit is the profit less the fees, rounded
    to 2 decimals.  And the round trip of the specification's example: a
    BUY of 2 at 100 with fee 0.5, closed by a SELL of 2 at 105 with fee
    0.5 and a realised profit of 10. *)
Theorem roundtrip_derivation :
  (forall rid cid entry_trade exit_trade rt,
      _create_roundtrip rid cid entry_trade exit_trade = Some rt ->
      (direction rt = LONG <-> t_side entry_trade = 0)
      /\ (direction rt = LONG ->
            points rt = PyFloat.round (t_price exit_trade - t_price entry_trade)%float 2
            /\ rounded_to 2 (t_price exit_trade - t_price entry_trade)%float (points rt))
      /\ (direction rt = SHORT ->
            points rt = PyFloat.round (t_price entry_trade - t_price exit_trade)%float 2
            /\ rounded_to 2 (t_price entry_trade - t_price exit_trade)%float (points rt))
      /\ total_fees rt = (fees_or_zero entry_trade + fees_or_zero exit_trade)%float
      /\ (t_fees entry_trade = None -> fees_or_zero entry_trade = 0%float)
      /\ (t_fees exit_trade = None -> fees_or_zero exit_trade = 0%float)
      /\ t_profitAndLoss exit_trade = Some (pnl rt)
      /\ net_pnl rt = PyFloat.round (pnl rt - total_fees rt)%float 2
      /\ rounded_to 2 (pnl rt - total_fees rt)%float (net_pnl rt))
  /\ (forall cid t0 t1 o0 o1 d0 d1 secs,
        parse_timestamp t0 = Some d0 ->
        parse_timestamp t1 = Some d1 ->
        seconds_between d1 d0 = Some secs ->
        exists rt,
          transform [example_entry cid t0 o0; example_exit cid t1 o1]
            = Some {| roundtrips := [rt]; open_positions := []; unmatched_exits := [] |}
          /\ direction rt = LONG /\ points rt = 5%float /\ total_fees rt = 1%float
          /\ pnl rt = 10%float /\ net_pnl rt = 9%float).
Proof.
  split.
  - intros rid cid en ex rt Hc.
    destruct (create_roundtrip_fields rid cid en ex rt Hc)
      as (Hd & Hp & Hf & Hpnl & Hnet & _).
    assert (Hnofee : forall t, t_fees t = None -> fees_or_zero t = 0%float).
    { intros t Ht. unfold fees_or_zero. now rewrite Ht. }
    assert (Hround : forall x r, r = PyFloat.round x 2 ->
              r = PyFloat.round x 2 /\ rounded_to 2 x r).
    { intros x r ->. split; [reflexivity|]. now apply round_rounded_to. }
    assert (Hnetr : rounded_to 2 (pnl rt - total_fees rt)%float (net_pnl rt))
      by now apply Hround.
    destruct (Z.eqb_spec (t_side en) 0) as [Hs|Hs]; rewrite Hd.
    + split; [now split|]. split; [intros _; now apply Hround|].
      split; [discriminate|]. now repeat (split; [assumption || apply Hnofee|]).
    + split; [split; [discriminate | intros; contradiction]|].
      split; [discriminate|]. split; [intros _; now apply Hround|].
      now repeat (split; [assumption || apply Hnofee|]).
  - intros cid t0 t1 o0 o1 d0 d1 secs H0 H1 Hs.
    destruct (example_roundtrip cid t0 t1 o0 o1 d0 d1 secs H0 H1 Hs)
      as (rt & Hrt & Hfields).
    exists rt. split; [|exact Hfields]. now apply example_transform.
Qed.

(** *** The partition of the legs *)

Lemma exits_loop_inv (cid : string) (exits : list Trade) :
  forall q run q' run',
    exits_loop cid exits (q, run) = Some (q', run') ->
    exists pairs u,
      adds (created_in cid) run run' pairs u []
      /\ map snd pairs ++ u ≡ₚ exits
      /\ map fst pairs ++ q' ≡ₚ q.
Proof.
  induction exits as [|ex exits IH]; intros q run q' run' Hloop.
  - injection Hloop as <- <-. exists [], []. split; [|split; reflexivity].
    exists []. rewrite !app_nil_r. repeat split. constructor.
  - cbn [exits_loop] in Hloop. bind_inv Hloop.
    match goal with E : exit_step _ _ _ = Some ?st |- _ =>
      destruct st as [q1 run1]; rename E into Hstep end.
    destruct (IH _ _ _ _ Hloop) as (pairs & u & (new & Hr & Hf & Hu & Ho) & Hpx & Hpe).
    unfold exit_step in Hstep.
    destruct (take_entry q ex) as [[e q2]|] eqn:Etake.
    + bind_inv Hstep.
      match goal with E : _create_roundtrip _ _ _ _ = Some ?r |- _ =>
        rename E into Hc; rename r into rt end.
      injection Hstep as <- <-. cbn in Hr, Hu, Ho.
      exists ((e, ex) :: pairs), u. split; [|split].
      * exists (rt :: new). rewrite Hr, Hu, Ho, <- !app_assoc. repeat split.
        constructor; [|exact Hf]. unfold created_in. cbn.
        destruct (create_roundtrip_fields _ _ _ _ _ Hc) as (_&_&_&_&_&_&_&_&->).
        exact Hc.
      * cbn. now rewrite Hpx.
      * cbn. rewrite Hpe. symmetry. now apply take_entry_perm with ex.
    + injection Hstep as <- <-. cbn in Hr, Hu, Ho.
      exists pairs, (ex :: u). split; [|split].
      * exists new. rewrite Hr, Hu, Ho, <- !app_assoc. now repeat split.
      * rewrite <- Permutation_middle. now rewrite Hpx.
      * exact Hpe.
Qed.

Lemma contract_step_inv (run run' : Run) (cid : string) (ts : list Trade) :
  Forall (fun t => t_contractId t = cid) ts ->
  contract_step run (cid, ts) = Some run' ->
  exists pairs u o,
    adds built_from run run' pairs u o
    /\ map snd pairs ++ u ≡ₚ List.filter is_exit ts
    /\ map fst pairs ++ o ≡ₚ List.filter is_entry ts.
Proof.
  intros Hkey Hstep. unfold contract_step in Hstep. bind_inv Hstep.
  match goal with E : exits_loop _ _ _ = Some ?st |- _ =>
    destruct st as [q' run1]; rename E into Hloop end.
  injection Hstep as <-.
  destruct (exits_loop_inv _ _ _ _ _ _ Hloop)
    as (pairs & u & (new & Hr & Hf & Hu & Ho) & Hpx & Hpe).
  pose proof (stable_sort_perm
    (fun a b => String.ltb (t_creationTimestamp a) (t_creationTimestamp b)) ts) as Hsort.
  fold (sort_by_key t_creationTimestamp ts) in Hsort.
  rewrite (filter_perm is_exit _ _ Hsort) in Hpx.
  rewrite (filter_perm is_entry _ _ Hsort) in Hpe.
  exists pairs, u, q'. split; [|split; assumption].
  exists new. cbn. rewrite app_nil_r in Ho. rewrite Ho. repeat split; try assumption.
  assert (Hin : forall t, t ∈ List.filter is_exit ts \/ t ∈ List.filter is_entry ts ->
                          t_contractId t = cid).
  { intros t Ht. rewrite Forall_forall in Hkey. apply Hkey, list_elem_of_In.
    destruct Ht as [Ht|Ht]; apply list_elem_of_In, List.filter_In in Ht; tauto. }
  clear - Hf Hpx Hpe Hin.
  assert (Hfst : forall p, p ∈ pairs -> t_contractId (fst p) = cid).
  { intros p Hp. apply Hin. right. rewrite <- Hpe. apply elem_of_app. left.
    now apply list_elem_of_fmap_2. }
  assert (Hsnd : forall p, p ∈ pairs -> t_contractId (snd p) = cid).
  { intros p Hp. apply Hin. left. rewrite <- Hpx. apply elem_of_app. left.
    now apply list_elem_of_fmap_2. }
  clear Hpx Hpe Hin. induction Hf as [|rt p new pairs Hc Hf IH]; constructor.
  - unfold built_from. rewrite (Hfst p), (Hsnd p) by constructor. now split.
  - apply IH; intros p' Hp'; [apply Hfst | apply Hsnd]; now constructor.
Qed.

Lemma contracts_loop_inv (groups : list (string * list Trade)) :
  well_keyed groups ->
  forall run run',
    contracts_loop groups run = Some run' ->
    exists pairs u o,
      adds built_from run run' pairs u o
      /\ map snd pairs ++ u ≡ₚ List.filter is_exit (concat (map snd groups))
      /\ map fst pairs ++ o ≡ₚ List.filter is_entry (concat (map snd groups)).
Proof.
  induction 1 as [|[cid ts] groups Hg Hgs IH]; intros run run' Hloop.
  - injection Hloop as <-. exists [], [], []. split; [|split; reflexivity].
    exists []. rewrite !app_nil_r. repeat split. constructor.
  - cbn [contracts_loop] in Hloop. bind_inv Hloop.
    match goal with E : contract_step _ _ = Some ?r |- _ =>
      rename E into Hstep; rename r into run1 end.
    destruct (contract_step_inv _ _ _ _ Hg Hstep)
      as (p1 & u1 & o1 & (n1 & Hr1 & Hf1 & Hu1 & Ho1) & Hx1 & He1).
    destruct (IH _ _ Hloop)
      as (p2 & u2 & o2 & (n2 & Hr2 & Hf2 & Hu2 & Ho2) & Hx2 & He2).
    exists (p1 ++ p2), (u1 ++ u2), (o1 ++ o2). split; [|split].
    + exists (n1 ++ n2). rewrite Hr2, Hr1, Hu2, Hu1, Ho2, Ho1, !app_assoc.
      repeat split. now apply Forall2_app.
    + cbn. rewrite filter_app_perm, <- Hx1, <- Hx2, map_app.
      rewrite <- !app_assoc. apply Permutation_app_head.
      rewrite !app_assoc. apply Permutation_app_tail, Permutation_app_comm.
    + cbn. rewrite filter_app_perm, <- He1, <- He2, map_app.
      rewrite <- !app_assoc. apply Permutation_app_head.
      rewrite !app_assoc. apply Permutation_app_tail, Permutation_app_comm.
Qed.

(** What a returned run of [transform] is made of. *)
Lemma transform_inv (trades : list Trade) (st : Transformer) :
  transform trades = Some st ->
  exists pairs : list (Trade * Trade),
    Forall2 built_from (roundtrips st) pairs
    /\ map snd pairs ++ unmatched_exits st ≡ₚ List.filter is_exit trades
    /\ map fst pairs ++ open_positions st ≡ₚ List.filter is_entry trades.
Proof.
  unfold transform. intros Ht. bind_inv Ht.
  match goal with E : contracts_loop _ _ = Some ?r |- _ =>
    rename E into Hloop; rename r into run end.
  injection Ht as <-. cbn [roundtrips unmatched_exits open_positions].
  destruct (group_by_contract_perm trades) as [Hperm Hkeyed].
  destruct (contracts_loop_inv _ Hkeyed _ _ Hloop)
    as (pairs & u & o & (new & Hr & Hf & Hu & Ho) & Hx & He).
  cbn in Hr, Hu, Ho. subst new. rewrite Hu, Ho.
  rewrite (filter_perm is_exit _ _ Hperm) in Hx.
  rewrite (filter_perm is_entry _ _ Hperm) in He.
  pose proof (stable_sort_perm
    (fun a b => String.ltb (leg_timestamp (exit a)) (leg_timestamp (exit b)))
    (roundtrips (out run))) as Hsort.
  destruct (Permutation_Forall2 (Permutation_sym Hsort) Hf) as (pairs' & Hpp & Hf').
  exists pairs'. split; [exact Hf'|]. split.
  - now rewrite <- Hpp.
  - now rewrite <- Hpp.
Qed.

(** A round trip built from a pair shows the trades of the pair. *)
Lemma built_from_shows (rt : Roundtrip) (p : Trade * Trade) :
  built_from rt p -> shows_legs rt p.
Proof.
  intros [_ Hc].
  destruct (create_roundtrip_fields _ _ _ _ _ Hc)
    as (_ & _ & _ & Hpnl & _ & He & Hx & Hcid & _).
  unfold _create_roundtrip in Hc. bind_inv Hc. injection Hc as Hrt.
  assert (Hside : forall t, side_name t = BUY <-> t_side t = 0).
  { intros t. unfold side_name.
    destruct (Z.eqb_spec (t_side t) 0); split; congruence. }
  unfold shows_legs. rewrite He, Hx, Hcid, <- Hrt. cbn [leg_of leg_trade_id
    leg_order_id leg_timestamp leg_price leg_side rt_size pnl].
  repeat (split; [reflexivity || apply Hside|]). assumption.
Qed.

(** C1: after a run of the matcher every closing leg of the input is the
    exit of exactly one round trip or stands exactly once in the unmatched
    exits, and every opening leg is the entry of exactly one round trip or
    stands exactly once in the open positions.  The round trips stand one
    to one against pairs of input trades of one contract; each round trip
    shows the first trade of its pair as its entry and the second as its
    exit (their ids, order ids, timestamps and prices) and is what
    [_create_roundtrip] makes of the two; the exits of the pairs together
    with the unmatched exits are the closing legs of the input, each as
    often as in the input, and the entries of the pairs together with the
    open positions are the opening legs.  So the trade ids shown as exits
    by the round trips, with those of the unmatched exits, are the ids of
    the closing legs, each as often as in the input, and likewise the ids
    shown as entries with those of the open positions. *)
Theorem matcher_partition (trades : list Trade) (st : Transformer) :
  transform trades = Some st ->
  (exists pairs : list (Trade * Trade),
      Forall2 shows_legs (roundtrips st) pairs
      /\ Forall2 built_from (roundtrips st) pairs
      /\ map snd pairs ++ unmatched_exits st ≡ₚ List.filter is_exit trades
      /\ map fst pairs ++ open_positions st ≡ₚ List.filter is_entry trades)
  /\ map (fun rt => leg_trade_id (exit rt)) (roundtrips st)
       ++ map t_id (unmatched_exits st)
     ≡ₚ map t_id (List.filter is_exit trades)
  /\ map (fun rt => leg_trade_id (entry rt)) (roundtrips st)
       ++ map t_id (open_positions st)
     ≡ₚ map t_id (List.filter is_entry trades).
Proof.
  intros Ht. destruct (transform_inv trades st Ht) as (pairs & Hf & Hx & He).
  assert (Hshow : Forall2 shows_legs (roundtrips st) pairs).
  { eapply Forall2_impl; [exact Hf|]. apply built_from_shows. }
  assert (Hids : map (fun rt => leg_trade_id (exit rt)) (roundtrips st)
                   = map t_id (map snd pairs)
                 /\ map (fun rt => leg_trade_id (entry rt)) (roundtrips st)
                   = map t_id (map fst pairs)).
  { clear -Hshow. induction Hshow as [|rt p rts ps Hs _ [IHx IHe]]; [now split|].
    destruct Hs as (Hen & _ & _ & _ & _ & Hex & _).
    cbn [map]. now rewrite Hen, Hex, IHx, IHe. }
  destruct Hids as [Hidx Hide].
  split; [exists pairs; now repeat split|].
  rewrite Hidx, Hide, <- !map_app. split; now apply Permutation_map.
Qed.

(** *** The order of the round trips *)

(** X5: the round trips [transform] returns are in ascending order of
    their exit timestamps (compared as strings, as the code does). *)
Theorem roundtrips_sorted_by_exit (trades : list Trade) (st : Transformer) :
  transform trades = Some st ->
  StronglySorted
    (fun a b => String.ltb (leg_timestamp (exit b)) (leg_timestamp (exit a)) = false)
    (roundtrips st).
Proof.
  unfold transform. intros Ht. bind_inv Ht. injection Ht as <-.
  apply (sort_by_key_sorted (fun rt => leg_timestamp (exit rt))).
Qed.

(** *** When the matcher returns *)

Lemma create_roundtrip_some (rid : Z) (cid : string) (en ex : Trade) (d0 d1 : datetime)
    (secs : Z) :
  parse_timestamp (t_creationTimestamp en) = Some d0 ->
  parse_timestamp (t_creationTimestamp ex) = Some d1 ->
  seconds_between d1 d0 = Some secs ->
  is_exit ex = true ->
  is_Some (_create_roundtrip rid cid en ex).
Proof.
  intros H0 H1 Hs Hex. unfold _create_roundtrip.
  rewrite H0, H1. cbn [mbind option_bind]. rewrite Hs. cbn [mbind option_bind].
  unfold is_exit, is_entry in Hex. destruct (t_profitAndLoss ex); [|discriminate].
  cbn [mbind option_bind]. eauto.
Qed.

Lemma exits_loop_some (trades : list Trade) (cid : string) (exits : list Trade) :
  buildable trades ->
  Forall (fun ex => ex ∈ trades /\ is_exit ex = true) exits ->
  forall q run, Forall (fun en => en ∈ trades /\ is_entry en = true) q ->
    exists q' run', exits_loop cid exits (q, run) = Some (q', run')
                    /\ Forall (fun en => en ∈ trades /\ is_entry en = true) q'.
Proof.
  intros Hb. induction 1 as [|ex exits [Hin Hex] _ IH]; intros q run Hq.
  - exists q, run. now split.
  - cbn [exits_loop]. unfold exit_step.
    destruct (take_entry q ex) as [[e q1]|] eqn:Etake.
    + pose proof (take_entry_perm _ _ _ _ Etake) as Hperm.
      rewrite Hperm in Hq. apply Forall_cons in Hq as [[He Hen] Hq1].
      destruct (Hb e ex He Hin Hen Hex) as (d0 & d1 & secs & H0 & H1 & Hs).
      destruct (create_roundtrip_some (next_id run + 1) cid e ex d0 d1 secs H0 H1 Hs Hex)
        as [rt Hrt].
      rewrite Hrt. cbn [mbind option_bind]. now apply IH.
    + cbn [mbind option_bind]. now apply IH.
Qed.


Lemma sorted_filter_in (trades ts : list Trade) (f : Trade -> bool) :
  Forall (fun t => t ∈ trades) ts ->
  Forall (fun t => t ∈ trades /\ f t = true)
         (List.filter f (sort_by_key t_creationTimestamp ts)).
Proof.
  intros Hts. rewrite Forall_forall in Hts. apply Forall_forall. intros t Ht.
  apply list_elem_of_In, List.filter_In in Ht as [Ht Hf]. split; [|exact Hf].
  apply Hts. apply list_elem_of_In in Ht.
  now rewrite (stable_sort_perm _ ts : sort_by_key _ ts ≡ₚ ts) in Ht.
Qed.

Lemma contracts_loop_some (trades : list Trade) (groups : list (string * list Trade)) :
  buildable trades ->
  Forall (fun g => Forall (fun t => t ∈ trades) (snd g)) groups ->
  forall run, is_Some (contracts_loop groups run).
Proof.
  intros Hb. induction 1 as [|[cid ts] groups Hg _ IH]; intros run; [now eexists|].
  cbn [contracts_loop contract_step]. cbn [snd] in Hg.
  destruct (exits_loop_some trades cid
              (List.filter is_exit (sort_by_key t_creationTimestamp ts)) Hb
              (sorted_filter_in trades ts is_exit Hg)
              (List.filter is_entry (sort_by_key t_creationTimestamp ts)) run)
    as (q' & run' & Hloop & _).
  { apply (sorted_filter_in trades ts is_entry Hg). }
  rewrite Hloop. cbn [mbind option_bind]. apply IH.
Qed.

Lemma groups_in_trades (trades : list Trade) :
  Forall (fun g => Forall (fun t => t ∈ trades) (snd g)) (group_by_contract trades).
Proof.
  destruct (group_by_contract_perm trades) as [Hperm _].
  apply Forall_forall. intros g Hg. apply Forall_forall. intros t Ht.
  rewrite <- Hperm. apply list_elem_of_In, in_concat. exists (snd g).
  split; [apply in_map | ]; now apply list_elem_of_In.
Qed.

Lemma transform_some (trades : list Trade) :
  buildable trades -> exists st, transform trades = Some st.
Proof.
  intros Hb. unfold transform.
  destruct (contracts_loop_some trades _ Hb (groups_in_trades trades)
              {| next_id := 0; out := init |}) as [run Hrun].
  rewrite Hrun. cbn [mbind option_bind]. eauto.
Qed.

(** X3: the matcher returns its three lists whenever each opening leg and
    each closing leg of the input can be made a round trip (their
    timestamps parse, and the difference of the two is defined). *)
Theorem transform_returns (trades : list Trade) :
  buildable trades -> exists st, transform trades = Some st.
Proof. exact (transform_some trades). Qed.

(** X4: when the input has closing legs only, the matcher raises nothing,
    builds no round trip and leaves no open position, and every trade of
    the input stands once in the unmatched exits. *)
Theorem exits_only_all_unmatched (trades : list Trade) :
  Forall (fun t => is_exit t = true) trades ->
  exists st,
    transform trades = Some st
    /\ roundtrips st = [] /\ open_positions st = []
    /\ unmatched_exits st ≡ₚ trades.
Proof.
  intros Hexits.
  assert (Hnone : List.filter is_entry trades = []).
  { induction Hexits as [|t ts Ht _ IH]; [reflexivity|].
    cbn. unfold is_exit in Ht. apply negb_true_iff in Ht. now rewrite Ht. }
  assert (Hall : List.filter is_exit trades = trades).
  { induction Hexits as [|t ts Ht _ IH]; [reflexivity|].
    cbn. rewrite Ht. f_equal. apply IH. cbn in Hnone.
    destruct (is_entry t); [discriminate | exact Hnone]. }
  assert (Hb : buildable trades).
  { intros en ex Hen _ Hentry _. exfalso.
    assert (Hin : In en (List.filter is_entry trades)); [|now rewrite Hnone in Hin].
    apply List.filter_In. split; [now apply list_elem_of_In | exact Hentry]. }
  destruct (transform_some trades Hb) as [st Hst]. exists st.
  destruct (transform_inv trades st Hst) as (pairs & Hf & Hx & He).
  rewrite Hnone in He. rewrite Hall in Hx.
  symmetry in He. apply Permutation_nil, app_eq_nil in He as [Hp Ho].
  apply map_eq_nil in Hp. subst pairs. inversion Hf as [Hr|]; subst.
  now repeat split.
Qed.

End WithRuntime.

Import ReferenceRuntime Samples.

Lemma exit_pairing_witness :
  take_entry [open_entry; long_entry] long_exit = Some (long_entry, [open_entry])
  /\ take_entry [open_entry; short_entry] long_exit = Some (open_entry, [short_entry]).
Proof.
  split.
  - apply (proj1 (exit_pairing [open_entry; long_entry] long_exit ltac:(discriminate))
             1%nat long_entry).
    + reflexivity.
    + split; [discriminate | reflexivity].
    + intros j e' Hj Hq [_ Hsize]. destruct j as [|j]; [|lia].
      injection Hq as <-. discriminate Hsize.
  - destruct (proj1 (proj2 (exit_pairing [open_entry; short_entry] long_exit
                              ltac:(discriminate)))) as (front & behind & Hq & Htake).
    + intros e He [Hside Hsize].
      apply elem_of_cons in He as [->|He]; [discriminate Hsize|].
      apply elem_of_cons in He as [->|He]; [now apply Hside | inversion He].
    + injection Hq as <- <-. exact Htake.
Defined.

Lemma roundtrip_derivation_witness :
  (exists rt,
     transform [example_entry mnq "2025-11-04T10:00:00Z" 101;
                example_exit mnq "2025-11-04T10:10:24Z" 102]
       = Some {| roundtrips := [rt]; open_positions := []; unmatched_exits := [] |}
     /\ direction rt = LONG /\ points rt = 5%float /\ total_fees rt = 1%float
     /\ pnl rt = 10%float /\ net_pnl rt = 9%float)
  /\ (exists rt,
        _create_roundtrip 1 mnq tie_entry tie_exit = Some rt
        /\ direction rt = LONG
        /\ points rt = 0.12%float
        /\ rounded_to 2 (100.125 - 100)%float (points rt)
        /\ total_fees rt = 0.25%float
        /\ pnl rt = 0.375%float
        /\ net_pnl rt = 0.12%float
        /\ rounded_to 2 (0.375 - 0.25)%float (net_pnl rt)).
Proof.
  split.
  - exact (proj2 roundtrip_derivation mnq "2025-11-04T10:00:00Z"%string
             "2025-11-04T10:10:24Z"%string 101 102 _ _ _ eq_refl eq_refl eq_refl).
  - destruct (_create_roundtrip 1 mnq tie_entry tie_exit) as [rt|] eqn:E;
      [|exfalso; vm_compute in E; discriminate].
    exists rt. split; [reflexivity|].
    destruct (proj1 roundtrip_derivation 1 mnq tie_entry tie_exit rt E)
      as (Hdir & Hlong & _ & Hfees & _ & _ & Hpnl & Hnet & Hnetr).
    assert (Hd : direction rt = LONG) by now apply Hdir.
    destruct (Hlong Hd) as [Hpoints Hpointsr].
    assert (Hp : pnl rt = 0.375%float) by (cbn in Hpnl; congruence).
    assert (Hf : total_fees rt = 0.25%float) by (rewrite Hfees; vm_compute; reflexivity).
    rewrite Hp, Hf in Hnet, Hnetr.
    split; [exact Hd|]. split; [rewrite Hpoints; vm_compute; reflexivity|].
    split; [exact Hpointsr|]. split; [exact Hf|]. split; [exact Hp|].
    split; [rewrite Hnet; vm_compute; reflexivity | exact Hnetr].
Defined.

Lemma matcher_partition_witness :
  transform sample_trades = Some sample_transformer
  /\ map (fun rt => (leg_trade_id (entry rt), leg_trade_id (exit rt)))
         (roundtrips sample_transformer) = [(1, 2); (3, 4)]
  /\ map t_id (unmatched_exits sample_transformer) = [6]
  /\ map t_id (open_positions sample_transformer) = [5]
  /\ map t_id (List.filter is_exit sample_trades) = [6; 2; 4]
  /\ map t_id (List.filter is_entry sample_trades) = [3; 1; 5]
  /\ (exists pairs : list (Trade * Trade),
        Forall2 shows_legs (roundtrips sample_transformer) pairs
        /\ Forall2 built_from (roundtrips sample_transformer) pairs
        /\ map snd pairs ++ unmatched_exits sample_transformer
             ≡ₚ List.filter is_exit sample_trades
        /\ map fst pairs ++ open_positions sample_transformer
             ≡ₚ List.filter is_entry sample_trades)
  /\ map (fun rt => leg_trade_id (exit rt)) (roundtrips sample_transformer)
       ++ map t_id (unmatched_exits sample_transformer)
     ≡ₚ map t_id (List.filter is_exit sample_trades)
  /\ map (fun rt => leg_trade_id (entry rt)) (roundtrips sample_transformer)
       ++ map t_id (open_positions sample_transformer)
     ≡ₚ map t_id (List.filter is_entry sample_trades).
Proof.
  assert (E : transform sample_trades = Some sample_transformer)
    by (vm_compute; reflexivity).
  split; [exact E|]. split; [vm_compute; reflexivity|].
  split; [vm_compute; reflexivity|]. split; [vm_compute; reflexivity|].
  split; [vm_compute; reflexivity|]. split; [vm_compute; reflexivity|].
  exact (matcher_partition sample_trades sample_transformer E).
Defined.

Lemma transform_returns_witness :
  exists st, transform [long_exit; long_entry] = Some st.
Proof.
  apply (transform_returns [long_exit; long_entry]).
  intros en ex Hen Hex Hentry Hexit.
  apply elem_of_cons in Hen as [->|Hen]; [discriminate Hentry|].
  apply elem_of_cons in Hen as [->|Hen]; [|inversion Hen].
  apply elem_of_cons in Hex as [->|Hex].
  - eexists _, _, _. repeat split; reflexivity.
  - apply elem_of_cons in Hex as [->|Hex]; [discriminate Hexit | inversion Hex].
Defined.

Lemma exits_only_all_unmatched_witness :
  exists st,
    transform [long_exit; stray_exit] = Some st
    /\ roundtrips st = [] /\ open_positions st = []
    /\ unmatched_exits st ≡ₚ [long_exit; stray_exit].
Proof.
  apply (exits_only_all_unmatched [long_exit; stray_exit]).
  repeat constructor.
Defined.

Lemma roundtrips_sorted_by_exit_witness :
  exists st,
    transform sample_trades = Some st
    /\ map (fun rt => leg_timestamp (exit rt)) (roundtrips st)
       = ["2025-11-04T10:10:24Z"; "2025-11-04T11:30:00Z"]%string
    /\ StronglySorted
         (fun a b => String.ltb (leg_timestamp (exit b)) (leg_timestamp (exit a)) = false)
         (roundtrips st).
Proof.
  eexists. split; [reflexivity|]. split; [reflexivity|].
  apply (roundtrips_sorted_by_exit sample_trades). reflexivity.
Defined.

End MatcherFacts.

(** ** The synchronisation pass *)

Module SyncFacts.
Import Transformer Notion SyncSpec.

(** *** The existence query *)

Lemma paginate_concat {A} (page_size : nat) (l : list A) :
  forall room cur, concat (paginate page_size room cur l) = cur ++ l.
Proof.
  induction l as [|x l IH]; intros room cur; cbn.
  - now rewrite app_nil_r.
  - destruct room; cbn; rewrite IH; [reflexivity|]. now rewrite <- app_assoc.
Qed.

Lemma query_loop_some (chunks : list (list Page)) :
  forall acc srv all srv',
    query_loop chunks acc srv = (Some all, srv') ->
    all = acc ++ concat chunks
    /\ pages srv' = pages srv /\ accepts srv' = accepts srv
    /\ (served srv <= served srv')%nat.
Proof.
  induction chunks as [|c chunks IH]; intros acc srv all srv'; cbn.
  - intros [= <- <-]. now rewrite app_nil_r.
  - destruct (accepts srv (served srv)); [|discriminate].
    intros Hq. apply IH in Hq as (-> & Hp & Ha & Hs). cbn in *.
    rewrite <- app_assoc. repeat split; try assumption. lia.
Qed.

Lemma query_loop_none (chunks : list (list Page)) :
  forall acc srv srv',
    query_loop chunks acc srv = (None, srv') ->
    pages srv' = pages srv /\ accepts srv' = accepts srv.
Proof.
  induction chunks as [|c chunks IH]; intros acc srv srv'; cbn; [discriminate|].
  destruct (accepts srv (served srv)).
  - intros Hq. now apply IH in Hq as [-> ->].
  - now intros [= <-].
Qed.

(** A query that succeeds returns every page and creates none. *)
Lemma query_database_some (srv : Server) (ps : list Page) (srv' : Server) :
  query_database srv = (Some ps, srv') ->
  ps = pages srv /\ pages srv' = pages srv /\ accepts srv' = accepts srv.
Proof.
  unfold query_database. intros Hq.
  apply query_loop_some in Hq as (-> & Hp & Ha & _).
  now rewrite paginate_concat.
Qed.

Lemma collect_keys_fold (ps : list Page) (acc : gset string) (k : string) :
  k ∈ fold_left (fun ids page =>
                   match page_key page with
                   | Some key => ids ∪ {[ key ]}
                   | None => ids
                   end) ps acc
  <-> k ∈ acc \/ exists p, p ∈ ps /\ page_key p = Some k.
Proof.
  revert acc. induction ps as [|p ps IH]; intros acc; cbn.
  - split; [now left|]. intros [?|(p & Hp & _)]; [assumption|]. inversion Hp.
  - rewrite IH. split.
    + intros [Hk|(p' & Hp' & Hkey)].
      * destruct (page_key p) as [key|] eqn:E; [|now left].
        apply elem_of_union in Hk as [Hk|Hk]; [now left|].
        apply elem_of_singleton in Hk as ->. right. exists p. split; [constructor|exact E].
      * right. exists p'. split; [now constructor|exact Hkey].
    + intros [Hk|(p' & Hp' & Hkey)].
      * left. destruct (page_key p); [|exact Hk]. apply elem_of_union. now left.
      * apply elem_of_cons in Hp' as [->|Hp'].
        -- left. rewrite Hkey. apply elem_of_union. right. now apply elem_of_singleton.
        -- right. now exists p'.
Qed.

Lemma elem_of_collect_keys (ps : list Page) (k : string) :
  k ∈ collect_keys ps <-> exists p, p ∈ ps /\ page_key p = Some k.
Proof.
  unfold collect_keys. rewrite collect_keys_fold. split; [|now right].
  intros [Hk|Hk]; [|exact Hk]. now apply not_elem_of_empty in Hk.
Qed.

(** The page written for a round trip with non-zero trade ids carries the
    round trip's key. *)
Lemma page_key_page_of (rt : Roundtrip) (acct : string) :
  leg_trade_id (entry rt) <> 0 -> leg_trade_id (exit rt) <> 0 ->
  page_key (page_of rt acct) = Some (unique_key rt).
Proof.
  intros He Hx. unfold page_key, page_of, unique_key. cbn.
  apply Z.eqb_neq in He, Hx. now rewrite He, Hx.
Qed.

(** *** The loop of [sync_roundtrips] *)

(** The page of a round trip can be encoded exactly when the numbers of
    the round trip are finite. *)
Lemma encodable_page_of (rt : Roundtrip) (acct : string) :
  encodable (page_of rt acct) = finite_numbers rt.
Proof. reflexivity. Qed.

Lemma sync_fold_spec (acct : string) (existing : gset string) (rts : list Roundtrip) :
  forall stats srv stats' srv',
    fold_left (sync_step acct existing) rts (stats, srv) = (stats', srv') ->
    let todo := attempted existing rts in
    let sent := sendable todo in
    let ans := answers srv (length sent) in
    skipped stats' = skipped stats + len (filter (fun rt => unique_key rt ∈ existing) rts)
    /\ created stats' = created stats + count (fun b => b) ans
    /\ errors stats' = errors stats + count negb ans + len (unsendable todo)
    /\ served srv' = (served srv + length sent)%nat
    /\ accepts srv' = accepts srv
    /\ pages srv' = pages srv ++ map (fun rt => page_of rt acct) (accepted sent ans).
Proof.
  unfold attempted, sendable, unsendable, answers, count, len.
  induction rts as [|rt rts IH]; intros stats srv stats' srv' Hfold.
  - injection Hfold as <- <-. cbn. rewrite app_nil_r. repeat split; lia.
  - cbn [fold_left] in Hfold. unfold sync_step at 2 in Hfold.
    rewrite !filter_cons.
    destruct (decide (unique_key rt ∈ existing)) as [Hin|Hnin].
    + apply IH in Hfold as (Hs & Hc & He & Hn & Ha & Hp). cbn in *.
      rewrite decide_False by tauto.
      repeat split; try assumption. rewrite Hs. cbn [length]. lia.
    + unfold create_roundtrip_entry, request in Hfold.
      rewrite encodable_page_of in Hfold.
      rewrite decide_True by assumption. cbn [List.filter].
      destruct (finite_numbers rt) eqn:Eenc; cbn [negb length seq map].
      * destruct (accepts srv (served srv)) eqn:Eok;
          apply IH in Hfold as (Hs & Hc & He & Hn & Ha & Hp); cbn in *;
          rewrite Hs, Hc, He, Hn, Ha, Hp; rewrite ?Eok; cbn;
          rewrite <- ?app_assoc; repeat split; lia.
      * apply IH in Hfold as (Hs & Hc & He & Hn & Ha & Hp). cbn in *.
        rewrite Hs, Hc, He, Hn, Ha, Hp. repeat split; lia.
Qed.

Lemma count_split (l : list bool) :
  count (fun b => b) l + count negb l = len l.
Proof.
  unfold count, len. induction l as [|[] l IH]; cbn [List.filter negb length]; lia.
Qed.

Lemma count_nonneg (f : bool -> bool) (l : list bool) : 0 <= count f l.
Proof. unfold count, len. lia. Qed.

Lemma attempted_split (existing : gset string) (rts : list Roundtrip) :
  len (filter (fun rt => unique_key rt ∈ existing) rts) + len (attempted existing rts)
  = len rts.
Proof.
  unfold attempted, len. induction rts as [|rt rts IH]; [reflexivity|].
  rewrite !filter_cons. destruct (decide (unique_key rt ∈ existing)).
  - rewrite decide_False by tauto. cbn [length]. lia.
  - rewrite decide_True by assumption. cbn [length]. lia.
Qed.

Lemma answers_length (srv : Server) (n : nat) : length (answers srv n) = n.
Proof. unfold answers. now rewrite length_map, length_seq. Qed.

Lemma sendable_split (rts : list Roundtrip) :
  len (sendable rts) + len (unsendable rts) = len rts.
Proof.
  unfold sendable, unsendable, len. induction rts as [|rt rts IH]; [reflexivity|].
  cbn [List.filter]. destruct (finite_numbers rt); cbn [negb length]; lia.
Qed.

(** Every round trip that is not skipped is counted once, as created or
    as an error. *)
Lemma sync_fold_attempts (acct : string) (existing : gset string) (rts : list Roundtrip)
    (stats stats' : SyncStats) (srv srv' : Server) :
  fold_left (sync_step acct existing) rts (stats, srv) = (stats', srv') ->
  created stats' + errors stats' = created stats + errors stats + len (attempted existing rts)
  /\ created stats <= created stats' /\ errors stats <= errors stats'.
Proof.
  intros Hfold. apply sync_fold_spec in Hfold as (_ & Hc & He & _). cbv zeta in Hc, He.
  pose proof (count_split (answers srv (length (sendable (attempted existing rts)))))
    as Hsum.
  unfold len at 1 in Hsum. rewrite answers_length in Hsum.
  fold (len (sendable (attempted existing rts))) in Hsum.
  pose proof (sendable_split (attempted existing rts)) as Hsplit.
  pose proof (count_nonneg (fun b => b)
                (answers srv (length (sendable (attempted existing rts))))).
  pose proof (count_nonneg negb
                (answers srv (length (sendable (attempted existing rts))))).
  assert (0 <= len (unsendable (attempted existing rts))) by (unfold len; lia).
  lia.
Qed.

(** What [sync_roundtrips] returns once the key set is there. *)
Lemma sync_after_fetch (rts : list Roundtrip) (acct : string) (skip : bool)
    (srv srv1 : Server) (existing : gset string) :
  (if skip then get_existing_roundtrip_ids srv else (Some ∅, srv)) = (Some existing, srv1) ->
  sync_roundtrips rts acct skip srv =
    (Some (fst (fold_left (sync_step acct existing) rts
                  ({| created := 0; skipped := 0; errors := 0 |}, srv1))),
     snd (fold_left (sync_step acct existing) rts
                  ({| created := 0; skipped := 0; errors := 0 |}, srv1))).
Proof.
  intros Hfetch. unfold sync_roundtrips. rewrite Hfetch.
  now destruct (fold_left _ _ _).
Qed.


Lemma sync_counts_total (rts : list Roundtrip) (acct : string) (skip : bool)
    (srv srv' : Server) (stats : SyncStats) :
  sync_roundtrips rts acct skip srv = (Some stats, srv') ->
  created stats + skipped stats + errors stats = len rts
  /\ 0 <= created stats /\ 0 <= skipped stats /\ 0 <= errors stats.
Proof.
  unfold sync_roundtrips.
  destruct (if skip then _ else _) as [[existing|] srv1]; [|discriminate].
  destruct (fold_left _ _ _) as [stats' srv2] eqn:Hfold. intros [= <- <-].
  destruct (sync_fold_attempts _ _ _ _ _ _ _ Hfold) as (Hall & Hc & He).
  apply sync_fold_spec in Hfold as (Hs & _).
  cbn in Hs, Hall, Hc, He.
  pose proof (attempted_split existing rts) as Hsplit.
  assert (0 <= len (filter (fun rt => unique_key rt ∈ existing) rts))
    by (unfold len; lia).
  repeat split; lia.
Qed.

(** C10: whenever the call returns its triple (the existence query went
    through, or was not asked for), the three counts are non-negative and
    add up to the number of round trips given: each round trip is tallied
    under exactly one counter. *)
Theorem sync_counts_partition (rts : list Roundtrip) (acct : string) (skip : bool)
    (srv : Server) :
  forall existing srv1,
    (if skip then get_existing_roundtrip_ids srv else (Some ∅, srv))
      = (Some existing, srv1) ->
    exists stats srv',
      sync_roundtrips rts acct skip srv = (Some stats, srv')
      /\ created stats + skipped stats + errors stats = len rts
      /\ 0 <= created stats /\ 0 <= skipped stats /\ 0 <= errors stats.
Proof.
  intros existing srv1 Hfetch.
  pose proof (sync_after_fetch rts acct skip srv srv1 existing Hfetch) as Hsync.
  eexists _, _. split; [exact Hsync|]. exact (sync_counts_total _ _ _ _ _ _ Hsync).
Qed.

(** *** Two passes *)

Lemma collect_keys_mono (ps extra : list Page) :
  collect_keys ps ⊆ collect_keys (ps ++ extra).
Proof.
  intros k. rewrite !elem_of_collect_keys. intros (p & Hp & Hk).
  exists p. split; [|exact Hk]. apply elem_of_app. now left.
Qed.

(** Against a key set that holds the keys of the first pass and of the
    pages the first pass wrote, only round trips whose creation failed are
    left to attempt. *)
Lemma sync_fold_retry (acct : string) (ex1 ex2 : gset string) (rts : list Roundtrip) :
  ex1 ⊆ ex2 ->
  Forall ids_nonzero rts ->
  forall stats srv stats' srv',
    fold_left (sync_step acct ex1) rts (stats, srv) = (stats', srv') ->
    collect_keys (pages srv') ⊆ ex2 ->
    len (attempted ex2 rts) <= errors stats' - errors stats.
Proof.
  intros Hsub Hids. unfold attempted, len.
  induction Hids as [|rt rts [Hen Hex] _ IH]; intros stats srv stats' srv' Hfold Hkeys.
  - injection Hfold as <- <-. cbn. lia.
  - cbn [fold_left] in Hfold. unfold sync_step at 2 in Hfold. rewrite filter_cons.
    destruct (decide (unique_key rt ∈ ex1)) as [Hin|Hnin].
    + rewrite decide_False by (intros Hn; apply Hn, Hsub, Hin).
      now apply IH in Hfold.
    + unfold create_roundtrip_entry, request in Hfold.
      destruct (encodable (page_of rt acct)) eqn:Eenc;
        [destruct (accepts srv (served srv)) eqn:Eok|].
      * pose proof Hfold as Hspec. apply sync_fold_spec in Hspec as (_&_&_&_&_& Hp).
        cbn in Hp. rewrite decide_False.
        -- apply IH in Hfold; [cbn in Hfold; lia | exact Hkeys].
        -- intros Hn. apply Hn, Hkeys, elem_of_collect_keys.
           exists (page_of rt acct). split; [|now apply page_key_page_of].
           rewrite Hp, <- app_assoc. apply elem_of_app. right. constructor.
      * apply IH in Hfold; [|exact Hkeys]. cbn in Hfold.
        destruct (decide (unique_key rt ∉ ex2)); cbn [length]; lia.
      * apply IH in Hfold; [|exact Hkeys]. cbn in Hfold.
        destruct (decide (unique_key rt ∉ ex2)); cbn [length]; lia.
Qed.

Lemma sync_with_query (rts : list Roundtrip) (acct : string) (srv srv' : Server)
    (stats : SyncStats) :
  sync_roundtrips rts acct true srv = (Some stats, srv') ->
  exists srv0,
    pages srv0 = pages srv
    /\ fold_left (sync_step acct (collect_keys (pages srv))) rts
         ({| created := 0; skipped := 0; errors := 0 |}, srv0) = (stats, srv').
Proof.
  unfold sync_roundtrips, get_existing_roundtrip_ids.
  destruct (query_database srv) as [[ps|] srv0] eqn:Hq; [|discriminate].
  apply query_database_some in Hq as (-> & Hp & _).
  destruct (fold_left _ _ _) as [stats' srv2] eqn:Hfold. intros [= <- <-].
  now exists srv0.
Qed.

(** C4 as the code has it: when the trade ids of the round trips are all
    non-zero, a second pass over the same round trips, on the service as
    the first pass left it, attempts only round trips whose creation
    failed in the first pass: what the first pass created or skipped is
    skipped again, and after a first pass without errors the second pass
    creates nothing and skips everything. *)
Theorem sync_second_pass (rts : list Roundtrip) (acct : string)
    (srv srv1 srv2 : Server) (s1 s2 : SyncStats) :
  Forall ids_nonzero rts ->
  sync_roundtrips rts acct true srv = (Some s1, srv1) ->
  sync_roundtrips rts acct true srv1 = (Some s2, srv2) ->
  created s2 + errors s2 <= errors s1
  /\ created s1 + skipped s1 <= skipped s2
  /\ (errors s1 = 0 ->
      created s2 = 0 /\ errors s2 = 0 /\ skipped s2 = len rts
      /\ pages srv2 = pages srv1).
Proof.
  intros Hids Hrun1 Hrun2.
  destruct (sync_counts_total _ _ _ _ _ _ Hrun1) as (Hsum1 & Hc1 & Hk1 & He1).
  destruct (sync_counts_total _ _ _ _ _ _ Hrun2) as (Hsum2 & Hc2 & Hk2 & He2).
  apply sync_with_query in Hrun1 as (srv0 & Hp0 & Hfold1).
  apply sync_with_query in Hrun2 as (srv0' & Hp0' & Hfold2).
  pose proof Hfold1 as Hspec1. apply sync_fold_spec in Hspec1 as (_&_&_&_&_& Hp1).
  assert (Hretry : len (attempted (collect_keys (pages srv1)) rts) <= errors s1).
  { assert (Hsub : collect_keys (pages srv) ⊆ collect_keys (pages srv1)).
    { rewrite Hp1, Hp0. apply collect_keys_mono. }
    pose proof (sync_fold_retry acct _ _ rts Hsub Hids _ _ _ _ Hfold1) as Hr.
    cbn in Hr. assert (collect_keys (pages srv1) ⊆ collect_keys (pages srv1))
      by reflexivity. specialize (Hr ltac:(assumption)). lia. }
  destruct (sync_fold_attempts _ _ _ _ _ _ _ Hfold2) as (Hall & _).
  apply sync_fold_spec in Hfold2 as (_ & _ & _ & _ & _ & Hp2).
  cbn in Hall.
  assert (Hbound : created s2 + errors s2 <= errors s1) by lia.
  split; [exact Hbound|]. split; [lia|]. intros Hzero.
  assert (Hnone : attempted (collect_keys (pages srv1)) rts = []).
  { apply length_zero_iff_nil. unfold len in Hretry. lia. }
  rewrite Hnone in Hp2. cbn in Hp2. rewrite app_nil_r in Hp2.
  repeat split; try lia. now rewrite Hp2.
Qed.

(** *** Evaluation on the sample *)

Import ReferenceRuntime Samples.


Lemma sync_counts_partition_witness :
  exists stats srv',
    sync_roundtrips sample_roundtrips "acct" true flaky_server = (Some stats, srv')
    /\ created stats + skipped stats + errors stats = 2
    /\ 0 <= created stats /\ 0 <= skipped stats /\ 0 <= errors stats.
Proof.
  exact (sync_counts_partition sample_roundtrips "acct" true flaky_server _ _ eq_refl).
Defined.

Lemma sample_ids_nonzero : Forall ids_nonzero sample_roundtrips.
Proof. repeat constructor; discriminate. Qed.

Lemma sync_second_pass_witness :
  exists s1 srv1 s2 srv2,
    sync_roundtrips sample_roundtrips "acct" true fresh_server = (Some s1, srv1)
    /\ sync_roundtrips sample_roundtrips "acct" true srv1 = (Some s2, srv2)
    /\ created s1 = 2 /\ errors s1 = 0
    /\ created s2 + errors s2 <= errors s1
    /\ created s1 + skipped s1 <= skipped s2
    /\ (errors s1 = 0 ->
        created s2 = 0 /\ errors s2 = 0 /\ skipped s2 = len sample_roundtrips
        /\ pages srv2 = pages srv1).
Proof.
  eexists _, _, _, _. split; [reflexivity|]. split; [reflexivity|].
  split; [reflexivity|]. split; [reflexivity|].
  apply (sync_second_pass sample_roundtrips "acct" fresh_server);
    [exact sample_ids_nonzero | reflexivity | reflexivity].
Defined.

(** C4 as stated fails in two ways.  A round trip whose opening leg has
    the trade id 0 is written with that id, the existence query leaves its
    page out of the key set, and the second pass creates it again.  And a
    round trip whose creation the service refused in the first pass is
    attempted again, and created, in the second. *)
Lemma sync_second_pass_creates_again :
  (let rts := roundtrips_of [zero_id_entry; long_exit] in
   let first := sync_roundtrips rts "acct" true fresh_server in
   let second := sync_roundtrips rts "acct" true (snd first) in
   fst first = Some {| created := 1; skipped := 0; errors := 0 |}
   /\ fst second = Some {| created := 1; skipped := 0; errors := 0 |}
   /\ length (pages (snd second)) = 2%nat)
  /\ (let first := sync_roundtrips sample_roundtrips "acct" true flaky_server in
      let second := sync_roundtrips sample_roundtrips "acct" true (snd first) in
      fst first = Some {| created := 1; skipped := 0; errors := 1 |}
      /\ fst second = Some {| created := 1; skipped := 1; errors := 0 |}).
Proof. repeat split. Qed.

End SyncFacts.

(** ** Texts: numbers, durations and account names *)

Module TextFacts.
Import Transformer Notion TextSpec.

(** *** Decimal numbers *)

Lemma pretty_N_char_digit (x : N) : is_digit (pretty_N_char x) = true.
Proof. unfold pretty_N_char. repeat case_match; reflexivity. Qed.

Lemma append_cons (a : ascii) (s t : string) :
  String a s +:+ t = String a (s +:+ t).
Proof. reflexivity. Qed.

Lemma append_nil_l (t : string) : "" +:+ t = t.
Proof. reflexivity. Qed.

Lemma all_digits_app (s t : string) :
  all_digits (s +:+ t) = all_digits s && all_digits t.
Proof.
  induction s as [|a s IH]; [reflexivity|].
  rewrite append_cons. cbn [all_digits]. now rewrite IH, andb_assoc.
Qed.

Lemma append_assoc (s t u : string) : (s +:+ t) +:+ u = s +:+ (t +:+ u).
Proof.
  induction s as [|a s IH]; [reflexivity|]. rewrite !append_cons. now rewrite IH.
Qed.

Lemma append_nil_r (s : string) : s +:+ "" = s.
Proof.
  induction s as [|a s IH]; [reflexivity|]. rewrite append_cons. now rewrite IH.
Qed.

(** The digits of a number are put before the accumulator. *)
Lemma pretty_N_go_app (x : N) (s : string) :
  pretty_N_go x s = pretty_N_go x "" +:+ s.
Proof.
  revert s. induction (N.lt_wf_0 x) as [x _ IH]; intros s.
  destruct (N.eq_dec x 0%N) as [->|Hx].
  - now rewrite !pretty_N_go_0.
  - rewrite (pretty_N_go_step x s), (pretty_N_go_step x "") by lia.
    assert (Hlt : (x `div` 10 < x)%N) by (apply N.div_lt; lia).
    rewrite (IH _ Hlt (String _ s)), (IH _ Hlt (String _ "")).
    now rewrite append_assoc.
Qed.

Lemma pretty_N_go_digits (x : N) : all_digits (pretty_N_go x "") = true.
Proof.
  induction (N.lt_wf_0 x) as [x _ IH].
  destruct (N.eq_dec x 0%N) as [->|Hx]; [reflexivity|].
  rewrite pretty_N_go_step by lia. rewrite pretty_N_go_app, all_digits_app.
  rewrite IH by (apply N.div_lt; lia). cbn [all_digits].
  now rewrite pretty_N_char_digit.
Qed.

Lemma pretty_N_go_nonempty (x : N) : (0 < x)%N -> pretty_N_go x "" <> "".
Proof.
  intros Hx. rewrite pretty_N_go_step by exact Hx. rewrite pretty_N_go_app.
  destruct (pretty_N_go (x `div` 10) ""); discriminate.
Qed.

(** The decimal text of a natural number: digits only, at least one. *)
Lemma pretty_N_digits (x : N) : all_digits (pretty x) = true /\ pretty x <> "".
Proof.
  unfold pretty, pretty_N. destruct (decide (x = 0%N)) as [->|Hx].
  - split; [reflexivity | discriminate].
  - split; [apply pretty_N_go_digits | apply pretty_N_go_nonempty; lia].
Qed.

(** The decimal text of an integer: a ["-"] for a negative one, then the
    text of its absolute value. *)
Lemma pretty_Z_sign (z : Z) :
  pretty z = (if z <? 0 then "-" else "") +:+ pretty (Z.abs_N z).
Proof. destruct z; reflexivity. Qed.

Lemma pretty_Z_nonneg_digits (z : Z) :
  0 <= z -> all_digits (pretty z) = true /\ pretty z <> "".
Proof.
  intros Hz. rewrite pretty_Z_sign. destruct (Z.ltb_spec z 0); [lia|].
  apply pretty_N_digits.
Qed.

(** Two texts that start with digits and go on with a character that is no
    digit agree on the digits, on that character and on what follows. *)
Lemma digits_split (d1 d2 : string) (c1 c2 : ascii) (r1 r2 : string) :
  all_digits d1 = true -> all_digits d2 = true ->
  is_digit c1 = false -> is_digit c2 = false ->
  d1 +:+ String c1 r1 = d2 +:+ String c2 r2 ->
  d1 = d2 /\ c1 = c2 /\ r1 = r2.
Proof.
  revert d2. induction d1 as [|a d1 IH]; intros [|b d2] H1 H2 Hc1 Hc2 Heq;
    rewrite ?append_cons, ?append_nil_l in Heq; cbn [all_digits] in *.
  - now injection Heq as -> ->.
  - injection Heq as -> _. apply andb_true_iff in H2 as [H2 _]. congruence.
  - injection Heq as -> _. apply andb_true_iff in H1 as [H1 _]. congruence.
  - injection Heq as -> Heq.
    apply andb_true_iff in H1 as [_ H1]. apply andb_true_iff in H2 as [_ H2].
    destruct (IH d2 H1 H2 Hc1 Hc2 Heq) as (-> & -> & ->). now repeat split.
Qed.

(** The decimal text of an integer followed by a character that is no
    digit determines the integer, the character and what follows. *)
Lemma pretty_Z_then_inj (x y : Z) (c1 c2 : ascii) (r1 r2 : string) :
  is_digit c1 = false -> is_digit c2 = false ->
  pretty x +:+ String c1 r1 = pretty y +:+ String c2 r2 ->
  x = y /\ c1 = c2 /\ r1 = r2.
Proof.
  intros Hc1 Hc2.
  assert (Hnonneg : forall a b, 0 <= a -> 0 <= b ->
            pretty a +:+ String c1 r1 = pretty b +:+ String c2 r2 ->
            a = b /\ c1 = c2 /\ r1 = r2).
  { intros a b Ha Hb Heq.
    destruct (pretty_Z_nonneg_digits a Ha) as [Da _].
    destruct (pretty_Z_nonneg_digits b Hb) as [Db _].
    destruct (digits_split _ _ _ _ _ _ Da Db Hc1 Hc2 Heq) as (Hp & Hc & Hr).
    split; [now apply (inj pretty) | now split]. }
  assert (Hmixed : forall a b c c' r r', 0 <= a -> b < 0 ->
            pretty a +:+ String c r <> pretty b +:+ String c' r').
  { intros a b c c' r r' Ha Hb Heq.
    destruct (pretty_Z_nonneg_digits a Ha) as [Da Na].
    destruct b as [|p|p]; try lia.
    change (pretty (Z.neg p)) with ("-" +:+ pretty p) in Heq.
    destruct (pretty a) as [|ch rest]; [congruence|].
    rewrite !append_cons in Heq. injection Heq as -> _.
    cbn [all_digits] in Da. discriminate. }
  intros Heq.
  destruct (Z.lt_ge_cases x 0) as [Hx|Hx], (Z.lt_ge_cases y 0) as [Hy|Hy].
  - destruct x as [|p|p]; try lia. destruct y as [|q|q]; try lia.
    change (pretty (Z.neg p)) with ("-" +:+ pretty (Z.pos p)) in Heq.
    change (pretty (Z.neg q)) with ("-" +:+ pretty (Z.pos q)) in Heq.
    rewrite !append_cons, !append_nil_l in Heq. injection Heq as Heq.
    destruct (Hnonneg (Z.pos p) (Z.pos q)) as (Hpq & Hc & Hr); [lia|lia|exact Heq|].
    split; [congruence | now split].
  - symmetry in Heq. now destruct (Hmixed _ _ _ _ _ _ Hy Hx Heq).
  - now destruct (Hmixed _ _ _ _ _ _ Hx Hy Heq).
  - now apply Hnonneg.
Qed.

(** *** Durations *)

Lemma whole_minutes (s1 s2 : Z) :
  s1 / 3600 = s2 / 3600 /\ (s1 mod 3600) / 60 = (s2 mod 3600) / 60
  <-> s1 / 60 = s2 / 60.
Proof. split; [intros [H1 H2] | intros H; split]; Z.div_mod_to_equations; lia. Qed.

(** X11: when two durations are shown as the same text.  Below one hour
    the text determines the number of seconds (a negative number
    included); from one hour on the seconds are left out, and two
    durations have the same text exactly when they agree on the whole
    minutes.  A text below one hour is never the text of a duration of an
    hour or more. *)
Theorem format_duration_same_text (s1 s2 : Z) :
  format_duration s1 = format_duration s2
  <-> s1 = s2 \/ (3600 <= s1 /\ 3600 <= s2 /\ s1 / 60 = s2 / 60).
Proof.
  split.
  - unfold format_duration.
    destruct (Z.ltb_spec s1 60), (Z.ltb_spec s1 3600); try lia;
      destruct (Z.ltb_spec s2 60), (Z.ltb_spec s2 3600); try lia;
      intros Heq; rewrite ?append_cons, ?append_nil_l in Heq;
      apply pretty_Z_then_inj in Heq as (Hq & Hc & Hr);
      try reflexivity; try discriminate Hc.
    + now left.
    + left. injection Hr as Hr.
      apply pretty_Z_then_inj in Hr as (Hm & _ & _); try reflexivity.
      Z.div_mod_to_equations; lia.
    + right. injection Hr as Hr.
      apply pretty_Z_then_inj in Hr as (Hm & _ & _); try reflexivity.
      split; [lia|]. split; [lia|]. now apply whole_minutes.
  - intros [->|(H1 & H2 & Hm)]; [reflexivity|]. unfold format_duration.
    destruct (Z.ltb_spec s1 60), (Z.ltb_spec s1 3600); try lia.
    destruct (Z.ltb_spec s2 60), (Z.ltb_spec s2 3600); try lia.
    apply whole_minutes in Hm as [-> ->]. reflexivity.
Qed.

(** *** Account names *)

Lemma split_nonempty (c : ascii) (s : string) : PyStr.split c s <> [].
Proof.
  destruct s as [|a rest]; cbn [PyStr.split]; [discriminate|].
  destruct (Ascii.eqb a c); [discriminate|].
  destruct (PyStr.split c rest); discriminate.
Qed.

(** A string has one part more than separators. *)
Lemma split_length (c : ascii) (s : string) :
  length (PyStr.split c s) = S (count_char c s).
Proof.
  induction s as [|a rest IH]; [reflexivity|]. cbn [PyStr.split count_char].
  destruct (Ascii.eqb a c); cbn [length Nat.add]; [now rewrite IH|].
  destruct (PyStr.split c rest); [discriminate IH | exact IH].
Qed.

(** No part holds the separator. *)
Lemma split_parts (c : ascii) (s : string) :
  Forall (fun part => count_char c part = 0%nat) (PyStr.split c s).
Proof.
  induction s as [|a rest IH]; cbn [PyStr.split]; [repeat constructor|].
  destruct (Ascii.eqb a c) eqn:Eac; [constructor; [reflexivity | exact IH]|].
  destruct (PyStr.split c rest) as [|w ws]; [repeat constructor; cbn; now rewrite Eac|].
  apply Forall_cons in IH as [Hw Hws]. constructor; [|exact Hws].
  cbn [count_char]. now rewrite Eac, Hw.
Qed.

Lemma join_cons (sep w : string) (ws : list string) :
  ws <> [] -> PyStr.join sep (w :: ws) = w +:+ sep +:+ PyStr.join sep ws.
Proof. destruct ws; [congruence | reflexivity]. Qed.

Lemma join_cons_char (sep : string) (a : ascii) (w : string) (ws : list string) :
  PyStr.join sep (String a w :: ws) = String a (PyStr.join sep (w :: ws)).
Proof. destruct ws; reflexivity. Qed.

Lemma join_snoc (sep : string) (l : list string) (x : string) :
  l <> [] -> PyStr.join sep (l ++ [x]) = PyStr.join sep l +:+ sep +:+ x.
Proof.
  induction l as [|w l IH]; [congruence|]. intros _.
  destruct l as [|w' l]; [reflexivity|].
  change ((w :: w' :: l) ++ [x]) with (w :: ((w' :: l) ++ [x])).
  rewrite join_cons by (destruct l; discriminate).
  rewrite IH by discriminate. rewrite (join_cons sep w (w' :: l)) by discriminate.
  now rewrite !append_assoc.
Qed.

(** Joining the parts with the separator gives the string back. *)
Lemma join_split (c : ascii) (s : string) :
  PyStr.join (String c EmptyString) (PyStr.split c s) = s.
Proof.
  induction s as [|a rest IH]; [reflexivity|]. cbn [PyStr.split].
  destruct (Ascii.eqb_spec a c) as [->|Hne].
  - rewrite join_cons by apply split_nonempty. now rewrite IH.
  - destruct (PyStr.split c rest) as [|w ws] eqn:Es; [now destruct (split_nonempty c rest)|].
    now rewrite join_cons_char, IH.
Qed.

(** X15: what [_truncate_account_name] does to a name.  A name of more
    characters than the limit with at least two dashes loses its last dash
    and what follows it, nothing else; any other name is returned as it
    is.  The result can still be longer than the limit. *)
Theorem truncate_account_name_cases (name : string) (max_length : nat) :
  if (max_length <? PyStr.len name)%nat && (2 <=? count_char "-" name)%nat
  then exists last,
         name = _truncate_account_name name max_length +:+ "-" +:+ last
         /\ count_char "-" last = 0%nat
         /\ (1 <= count_char "-" (_truncate_account_name name max_length))%nat
  else _truncate_account_name name max_length = name.
Proof.
  unfold _truncate_account_name. cbv zeta.
  destruct (max_length <? PyStr.len name)%nat; [|reflexivity].
  rewrite split_length. cbn [andb].
  change (3 <=? S (count_char "-" name))%nat with (2 <=? count_char "-" name)%nat.
  destruct (Nat.leb_spec 2 (count_char "-" name)) as [Hge|Hlt]; [|reflexivity].
  pose proof (split_length "-" name) as Hlen.
  pose proof (split_parts "-" name) as Hparts.
  pose proof (join_split "-" name) as Hjoin.
  destruct (exists_last (split_nonempty "-" name)) as (front & last & Hsplit).
  rewrite Hsplit in *. rewrite removelast_last.
  rewrite length_app in Hlen. cbn [length] in Hlen.
  assert (Hfront : front <> []) by (destruct front; [cbn in Hlen; lia | discriminate]).
  rewrite join_snoc in Hjoin by exact Hfront.
  apply Forall_app in Hparts as [Hf Hl]. apply Forall_cons in Hl as [Hl _].
  exists last. split; [now symmetry|]. split; [exact Hl|].
  assert (Hcount : forall s t, count_char "-" (s +:+ t)
                               = (count_char "-" s + count_char "-" t)%nat).
  { intros s t. induction s as [|a s IH]; [reflexivity|].
    rewrite append_cons. cbn [count_char]. rewrite IH. lia. }
  rewrite <- Hjoin in Hge. rewrite !Hcount, Hl in Hge. cbn in Hge. lia.
Qed.

Lemma truncate_account_name_cases_witness :
  (exists last,
     Samples.long_account_name = "EXPRESS-V2-140427-27209524-EVALUATION-ACCOUNT" +:+ "-" +:+ last
     /\ _truncate_account_name Samples.long_account_name 50
          = "EXPRESS-V2-140427-27209524-EVALUATION-ACCOUNT")
  /\ PyStr.len Samples.wide_account_name = 22%nat
  /\ String.length Samples.wide_account_name = 62%nat
  /\ _truncate_account_name Samples.wide_account_name 50 = Samples.wide_account_name.
Proof.
  split; [|split; [vm_compute; reflexivity | split; [vm_compute; reflexivity|]]].
  - pose proof (truncate_account_name_cases Samples.long_account_name 50) as H.
    assert (E : ((50 <? PyStr.len Samples.long_account_name)%nat
                 && (2 <=? count_char "-" Samples.long_account_name)%nat) = true)
      by (vm_compute; reflexivity).
    rewrite E in H. destruct H as (last & Hname & _).
    assert (Ht : _truncate_account_name Samples.long_account_name 50
                 = "EXPRESS-V2-140427-27209524-EVALUATION-ACCOUNT")
      by (vm_compute; reflexivity).
    rewrite Ht in Hname. exists last. now split.
  - pose proof (truncate_account_name_cases Samples.wide_account_name 50) as H.
    assert (E : ((50 <? PyStr.len Samples.wide_account_name)%nat
                 && (2 <=? count_char "-" Samples.wide_account_name)%nat) = false)
      by (vm_compute; reflexivity).
    rewrite E in H. exact H.
Defined.

End TextFacts.

(** ** The keys of the synchronisation *)

Module KeyFacts.
Import Transformer Notion SyncSpec SyncFacts TextSpec TextFacts.

(** The key text of two trade ids determines both ids. *)
Lemma key_text_inj (a b c d : Z) :
  pretty a +:+ "-" +:+ pretty b = pretty c +:+ "-" +:+ pretty d ->
  a = c /\ b = d.
Proof.
  intros Heq.
  change ("-" +:+ pretty b) with (String "-" (pretty b)) in Heq.
  change ("-" +:+ pretty d) with (String "-" (pretty d)) in Heq.
  apply pretty_Z_then_inj in Heq as (-> & _ & Hr); [|reflexivity|reflexivity].
  split; [reflexivity | now apply (inj pretty)].
Qed.

(** X6: the key of the synchronisation identifies the pair of trade ids:
    two round trips have the same key exactly when their entry trade ids
    are equal and their exit trade ids are equal. *)
Theorem unique_key_inj (rt1 rt2 : Roundtrip) :
  unique_key rt1 = unique_key rt2 <->
  leg_trade_id (entry rt1) = leg_trade_id (entry rt2)
  /\ leg_trade_id (exit rt1) = leg_trade_id (exit rt2).
Proof.
  unfold unique_key. split.
  - apply key_text_inj.
  - now intros [-> ->].
Qed.

(** X7: what the existence query answers for a round trip.  When it
    succeeds it changes no page, and the key of a round trip is in the
    returned set exactly when both trade ids of the round trip are non-zero
    and some page of the database carries these two ids; a round trip with
    a zero id is never found. *)
Theorem existing_ids_spec (srv srv' : Server) (ids : gset string) :
  get_existing_roundtrip_ids srv = (Some ids, srv') ->
  pages srv' = pages srv
  /\ forall rt,
       unique_key rt ∈ ids <->
       ids_nonzero rt
       /\ exists page, page ∈ pages srv
            /\ p_entry_trade_id page = Some (leg_trade_id (entry rt))
            /\ p_exit_trade_id page = Some (leg_trade_id (exit rt)).
Proof.
  unfold get_existing_roundtrip_ids.
  destruct (query_database srv) as [[ps|] srv1] eqn:Hq; [|discriminate].
  intros [= <- <-]. apply query_database_some in Hq as (-> & Hp & _).
  split; [exact Hp|]. intros rt. rewrite elem_of_collect_keys. split.
  - intros (page & Hin & Hkey). unfold page_key in Hkey.
    destruct (p_entry_trade_id page) as [a|] eqn:Ea; [|discriminate].
    destruct (p_exit_trade_id page) as [b|] eqn:Eb; [|discriminate].
    destruct (orb (a =? 0) (b =? 0)) eqn:Ez; [discriminate|].
    injection Hkey as Hkey. apply key_text_inj in Hkey as [-> ->].
    apply orb_false_iff in Ez as [Ha Hb]. apply Z.eqb_neq in Ha, Hb.
    split; [now split|]. now exists page.
  - intros ([He Hx] & page & Hin & Ea & Eb). exists page. split; [exact Hin|].
    unfold page_key, unique_key. rewrite Ea, Eb.
    apply Z.eqb_neq in He, Hx. now rewrite He, Hx.
Qed.

Import ReferenceRuntime Samples.

Lemma existing_ids_spec_witness :
  exists ids srv',
    get_existing_roundtrip_ids synced_server = (Some ids, srv')
    /\ pages srv' = pages synced_server
    /\ forall rt,
         unique_key rt ∈ ids <->
         ids_nonzero rt
         /\ exists page, page ∈ pages synced_server
              /\ p_entry_trade_id page = Some (leg_trade_id (entry rt))
              /\ p_exit_trade_id page = Some (leg_trade_id (exit rt)).
Proof.
  eexists _, _. split; [reflexivity|].
  apply (existing_ids_spec synced_server). reflexivity.
Defined.

End KeyFacts.

(** ** Counting in the statistics *)

Module AggregateFacts.
Import Transformer MatcherSpec MatcherFacts StatisticsSpec StatisticsFacts.

(** Against zero a float is above, below or equal, one of the three, unless
    it is a NaN, which is none of them. *)
Lemma float_sign_cases (x : float) :
  let pos := PrimFloat.ltb 0 x in
  let neg := PrimFloat.ltb x 0 in
  let zero := PrimFloat.eqb x 0 in
  if PrimFloat.is_nan x
  then pos = false /\ neg = false /\ zero = false
  else (pos = true /\ neg = false /\ zero = false)
       \/ (pos = false /\ neg = true /\ zero = false)
       \/ (pos = false /\ neg = false /\ zero = true).
Proof.
  unfold PrimFloat.is_nan. cbv zeta.
  rewrite !FloatAxioms.ltb_spec, !FloatAxioms.eqb_spec.
  change (Prim2SF 0) with (S754_zero false).
  destruct (Prim2SF x) as [s|s| |s m e]; try destruct s; cbn; auto 10;
    rewrite Z.compare_refl;
    change (PosDef.Pos.compare_cont Eq m m) with (Pos.compare m m);
    rewrite Pos.compare_refl; cbn; auto 10.
Qed.

Lemma sign_classes_count (rts : list Roundtrip) :
  len (winners_of rts) + len (losers_of rts) + len (breakeven_of rts)
    + len (nan_pnl rts) = len rts.
Proof.
  unfold len, winners_of, losers_of, breakeven_of, nan_pnl.
  induction rts as [|rt rts IH]; [reflexivity|]. cbn [List.filter].
  pose proof (float_sign_cases (pnl rt)) as Hc. cbv zeta in Hc.
  unfold PyFloat.fzero in *.
  destruct (PrimFloat.is_nan (pnl rt)).
  - destruct Hc as (-> & -> & ->). cbn [length]. lia.
  - destruct Hc as [(-> & -> & ->)|[(-> & -> & ->)|(-> & -> & ->)]];
      cbn [length]; lia.
Qed.

Lemma nan_pnl_nil (rts : list Roundtrip) :
  Forall (fun rt => PrimFloat.is_nan (pnl rt) = false) rts -> nan_pnl rts = [].
Proof.
  unfold nan_pnl. induction 1 as [|rt rts Hrt _ IH]; [reflexivity|].
  cbn [List.filter]. now rewrite Hrt.
Qed.

Lemma get_statistics_counts (self : Transformer) (s : Statistics) :
  get_statistics self = Some (StatsOf s) ->
  s_total_roundtrips s = len (roundtrips self)
  /\ s_winning_trades s = len (winners_of (roundtrips self))
  /\ s_losing_trades s = len (losers_of (roundtrips self))
  /\ s_breakeven_trades s = len (breakeven_of (roundtrips self))
  /\ s_open_positions s = len (open_positions self)
  /\ s_unmatched_exits s = len (unmatched_exits self).
Proof.
  unfold get_statistics.
  destruct (roundtrips self) as [|first others] eqn:E; [discriminate|].
  intros Hs. bind_inv Hs. injection Hs as <-. cbn. now repeat split.
Qed.

(** X8: in the statistics the winning, losing and break-even counts add up
    to the total less the round trips whose [pnl] is a NaN (a NaN is
    neither above, below nor equal to zero); without NaN the three counts
    partition the round trips. *)
Theorem statistics_counts (self : Transformer) (s : Statistics) :
  get_statistics self = Some (StatsOf s) ->
  s_winning_trades s + s_losing_trades s + s_breakeven_trades s
    + len (nan_pnl (roundtrips self)) = s_total_roundtrips s
  /\ (Forall (fun rt => PrimFloat.is_nan (pnl rt) = false) (roundtrips self) ->
      s_winning_trades s + s_losing_trades s + s_breakeven_trades s
        = s_total_roundtrips s).
Proof.
  intros Hs. destruct (get_statistics_counts self s Hs) as (-> & -> & -> & -> & _).
  pose proof (sign_classes_count (roundtrips self)) as Hsum.
  split; [exact Hsum|]. intros Hnone.
  rewrite (nan_pnl_nil _ Hnone) in Hsum. unfold len in *. cbn in Hsum. lia.
Qed.

Section Accounting.
Context `{PyRuntime}.

Lemma filter_split_length {A} (f : A -> bool) (l : list A) :
  (length (List.filter f l) + length (List.filter (fun a => negb (f a)) l)
   = length l)%nat.
Proof.
  induction l as [|a l IH]; [reflexivity|]. cbn. destruct (f a); cbn; lia.
Qed.

(** X9: [transform_trades] accounts for every trade.  The statistics are
    the empty dictionary exactly when no round trip was built; otherwise
    twice the number of round trips plus the open positions plus the
    unmatched exits is the number of trades given. *)
Theorem transform_trades_accounts (trades : list Trade) (rts : list Roundtrip)
    (stats : StatsDict) :
  transform_trades trades = Some (rts, stats) ->
  (stats = EmptyDict <-> rts = [])
  /\ forall s, stats = StatsOf s ->
       s_total_roundtrips s = len rts
       /\ 2 * s_total_roundtrips s + s_open_positions s + s_unmatched_exits s
          = len trades.
Proof.
  unfold transform_trades. intros Ht. bind_inv Ht.
  match goal with E : transform trades = Some ?t |- _ =>
    rename E into Htr; rename t into st end.
  match goal with E : get_statistics st = Some _ |- _ => rename E into Hst end.
  injection Ht as <- <-. split.
  - unfold get_statistics in Hst. destruct (roundtrips st) eqn:E.
    + injection Hst as <-. now split.
    + bind_inv Hst. injection Hst as <-. split; discriminate.
  - intros s' ->. destruct (get_statistics_counts st s' Hst) as (-> & _ & _ & _ & -> & ->).
    split; [reflexivity|].
    destruct (transform_inv trades st Htr) as (pairs & Hf & Hx & He).
    apply Forall2_length in Hf. apply Permutation_length in Hx, He.
    rewrite length_app, length_map in Hx, He.
    pose proof (filter_split_length is_entry trades) as Hsplit.
    change (fun a => negb (is_entry a)) with is_exit in Hsplit.
    unfold len. lia.
Qed.

End Accounting.

(** *** The groups of [_group_stats] *)

Lemma tally_from (mine : list Roundtrip) (g : GroupStat) :
  let g' := fold_left (fun g rt => group_add rt g) mine g in
  g_count g' = g_count g + len mine
  /\ g_wins g' = g_wins g + len (winners_of mine)
  /\ g_losses g' = g_losses g + len (losers_of mine)
  /\ g_pnl g' = fold_left PrimFloat.add (map pnl mine) (g_pnl g).
Proof.
  cbv zeta. revert g. unfold len, winners_of, losers_of.
  induction mine as [|rt mine IH]; intros g; cbn [fold_left map List.filter length].
  - repeat split; lia.
  - destruct (IH (group_add rt g)) as (-> & -> & -> & ->).
    cbn [group_add g_count g_wins g_losses g_pnl].
    pose proof (float_sign_cases (pnl rt)) as Hc. cbv zeta in Hc.
    unfold PyFloat.fzero in *.
    destruct (PrimFloat.is_nan (pnl rt)).
    + destruct Hc as (-> & -> & _). repeat split; cbn [length]; lia.
    + destruct Hc as [(-> & -> & _)|[(-> & -> & _)|(-> & -> & _)]];
        repeat split; cbn [length]; lia.
Qed.

Section Keys.
Context {K : Type} (eqb : K -> K -> bool).
Hypothesis eqb_spec : forall a b, eqb a b = true <-> a = b.

Lemma key_eqb_refl (a : K) : eqb a a = true.
Proof. now apply eqb_spec. Qed.

Lemma key_eqb_neq (a b : K) : a <> b -> eqb a b = false.
Proof. intros Hne. apply not_true_is_false. now rewrite eqb_spec. Qed.

Lemma group_get_update (k k' : K) (rt : Roundtrip) (groups : list (K * GroupStat)) :
  group_get eqb k' (group_update eqb k rt groups)
  = if eqb k' k
    then Some (group_add rt (default group_default (group_get eqb k groups)))
    else group_get eqb k' groups.
Proof.
  induction groups as [|[k0 g0] groups IH]; cbn [group_update group_get].
  - destruct (eqb k' k); reflexivity.
  - destruct (eqb k k0) eqn:E0; cbn [group_get].
    + apply eqb_spec in E0 as <-. destruct (eqb k' k); reflexivity.
    + rewrite IH. destruct (eqb k' k) eqn:E1; [|reflexivity].
      apply eqb_spec in E1 as ->. now rewrite E0.
Qed.

Lemma group_keys_update (k : K) (rt : Roundtrip) (groups : list (K * GroupStat)) :
  (exists pre g post, groups = pre ++ (k, g) :: post
     /\ group_update eqb k rt groups = pre ++ (k, group_add rt g) :: post)
  \/ ((k ∉ map fst groups)
      /\ group_update eqb k rt groups = groups ++ [(k, group_add rt group_default)]).
Proof.
  induction groups as [|[k0 g0] groups IH]; cbn [group_update].
  - right. split; [apply not_elem_of_nil | reflexivity].
  - destruct (eqb k k0) eqn:E0.
    + apply eqb_spec in E0 as <-. left. now exists [], g0, groups.
    + destruct IH as [(pre & g & post & -> & ->)|[Hnot ->]].
      * left. now exists ((k0, g0) :: pre), g, post.
      * right. split; [|reflexivity]. cbn. rewrite not_elem_of_cons. split; [|exact Hnot].
        intros ->. now rewrite key_eqb_refl in E0.
Qed.

Lemma group_get_elem (k : K) (g : GroupStat) (groups : list (K * GroupStat)) :
  NoDup (map fst groups) -> (k, g) ∈ groups -> group_get eqb k groups = Some g.
Proof.
  induction groups as [|[k0 g0] groups IH]; intros Hnd Hin; [inversion Hin|].
  cbn in Hnd. apply NoDup_cons in Hnd as [Hk0 Hnd]. cbn [group_get].
  apply elem_of_cons in Hin as [[= <- <-]|Hin]; [now rewrite key_eqb_refl|].
  rewrite key_eqb_neq; [now apply IH|]. intros ->. apply Hk0.
  apply list_elem_of_fmap. now exists (k0, g).
Qed.

Lemma group_get_some_key (k : K) (groups : list (K * GroupStat)) :
  is_Some (group_get eqb k groups) <-> k ∈ map fst groups.
Proof.
  induction groups as [|[k0 g0] groups IH]; cbn [group_get map fst].
  - split; [intros [? [=]] | intros Hin; inversion Hin].
  - destruct (eqb k k0) eqn:E0.
    + apply eqb_spec in E0 as ->. split; [intros _; constructor | eauto].
    + rewrite IH, elem_of_cons. split; [now right|]. intros [->|Hin]; [|exact Hin].
      now rewrite key_eqb_refl in E0.
Qed.

Variable group_key : Roundtrip -> K.

(** What the dictionary of [_group_stats] holds after the given round
    trips: distinct keys, and under each key the tally of its round trips,
    no entry for a key without round trips. *)
Lemma group_stats_inv (rts : list Roundtrip) :
  NoDup (map fst (_group_stats eqb group_key rts))
  /\ forall k,
       group_get eqb k (_group_stats eqb group_key rts)
       = match of_key eqb group_key k rts with
         | [] => None
         | mine => Some (tally mine)
         end.
Proof.
  unfold _group_stats, of_key. induction rts as [|rt rts IH] using rev_ind.
  - split; [constructor | reflexivity].
  - destruct IH as [Hnd Hget]. rewrite fold_left_app. cbn [fold_left]. split.
    + destruct (group_keys_update (group_key rt) rt
                  (fold_left (fun groups rt0 => group_update eqb (group_key rt0) rt0 groups)
                             rts [])) as [(pre & g & post & Hg & ->)|[Hnot ->]].
      * rewrite Hg in Hnd. now rewrite map_app in *.
      * rewrite map_app. cbn. apply NoDup_app. split; [exact Hnd|].
        split; [|apply NoDup_singleton].
        intros x Hx Hx'. apply list_elem_of_singleton in Hx' as ->. now apply Hnot.
    + intros k. rewrite group_get_update, List.filter_app. cbn [List.filter].
      destruct (eqb k (group_key rt)) eqn:Ek.
      * apply eqb_spec in Ek as ->. rewrite key_eqb_refl, Hget.
        destruct (List.filter _ rts) as [|r0 mine] eqn:Ef.
        -- reflexivity.
        -- cbn [app]. f_equal. unfold tally.
           change (r0 :: mine ++ [rt]) with ((r0 :: mine) ++ [rt]).
           now rewrite fold_left_app.
      * rewrite Hget. rewrite (key_eqb_neq (group_key rt) k).
        -- now rewrite app_nil_r.
        -- intros Heq. rewrite Heq, key_eqb_refl in Ek. discriminate.
Qed.

Lemma total_count_update (k : K) (rt : Roundtrip) (groups : list (K * GroupStat)) :
  total_count (group_update eqb k rt groups) = total_count groups + 1.
Proof.
  unfold total_count.
  induction groups as [|[k0 g0] groups IH]; cbn [group_update fold_right].
  - cbn. lia.
  - destruct (eqb k k0); cbn [fold_right snd group_add g_count]; [lia|].
    fold (@total_count K) in *. rewrite IH. lia.
Qed.

Lemma total_count_group_stats (rts : list Roundtrip) :
  total_count (_group_stats eqb group_key rts) = len rts.
Proof.
  unfold _group_stats, len. induction rts as [|rt rts IH] using rev_ind; [reflexivity|].
  rewrite fold_left_app. cbn [fold_left]. rewrite total_count_update, IH, length_app.
  cbn [length]. lia.
Qed.

Lemma of_key_nonempty (k : K) (rts : list Roundtrip) :
  of_key eqb group_key k rts <> [] <-> exists rt, rt ∈ rts /\ group_key rt = k.
Proof.
  unfold of_key. split.
  - intros Hne. destruct (List.filter _ rts) as [|rt mine] eqn:Ef; [congruence|].
    assert (Hin : In rt (List.filter (fun rt => eqb (group_key rt) k) rts))
      by (rewrite Ef; now left).
    apply List.filter_In in Hin as [Hin Hk]. exists rt.
    split; [now apply list_elem_of_In | now apply eqb_spec].
  - intros (rt & Hin & Hk) Hnil.
    assert (Hf : In rt (List.filter (fun rt => eqb (group_key rt) k) rts)).
    { apply List.filter_In. split; [now apply list_elem_of_In | now apply eqb_spec]. }
    now rewrite Hnil in Hf.
Qed.

End Keys.

(** X10: what [_group_stats] returns for a key function whose values are
    compared by a lawful equality.  The keys of the dictionary are
    distinct and are the keys of the round trips; the entry of a key counts
    the round trips of that key, the winners and the losers among them, and
    sums their [pnl] in their order from [0.0]; the counts of all the
    entries add up to the number of round trips. *)
Theorem group_stats_tallies {K} (eqb : K -> K -> bool) (group_key : Roundtrip -> K)
    (rts : list Roundtrip) :
  (forall a b, eqb a b = true <-> a = b) ->
  let groups := _group_stats eqb group_key rts in
  NoDup (map fst groups)
  /\ (forall k, k ∈ map fst groups <-> exists rt, rt ∈ rts /\ group_key rt = k)
  /\ (forall k g, (k, g) ∈ groups ->
        let mine := of_key eqb group_key k rts in
        g_count g = len mine
        /\ g_wins g = len (winners_of mine)
        /\ g_losses g = len (losers_of mine)
        /\ g_pnl g = PyFloat.sum (map pnl mine))
  /\ total_count groups = len rts.
Proof.
  intros eqb_spec groups.
  destruct (group_stats_inv eqb eqb_spec group_key rts) as [Hnd Hget].
  fold groups in Hnd, Hget. split; [exact Hnd|]. split; [|split].
  - intros k. rewrite <- (group_get_some_key eqb eqb_spec), Hget,
      <- (of_key_nonempty eqb eqb_spec).
    destruct (of_key eqb group_key k rts); split.
    + intros [? [=]].
    + congruence.
    + discriminate.
    + eauto.
  - intros k g Hin mine.
    apply (group_get_elem eqb eqb_spec _ _ _ Hnd) in Hin. rewrite Hget in Hin.
    fold mine in Hin. destruct mine as [|r0 rest] eqn:Em; [discriminate|].
    injection Hin as <-. rewrite <- Em.
    destruct (tally_from mine group_default) as (Hc & Hw & Hl & Hp).
    unfold tally. rewrite Em in *. cbn [group_default g_count g_wins g_losses g_pnl] in *.
    rewrite Hc, Hw, Hl, Hp. unfold PyFloat.sum. repeat split; lia.
  - apply total_count_group_stats.
Qed.

Import ReferenceRuntime Samples.

Lemma statistics_counts_witness :
  exists s,
    get_statistics sample_transformer = Some (StatsOf s)
    /\ s_winning_trades s = 1 /\ s_losing_trades s = 1 /\ s_breakeven_trades s = 0
    /\ s_winning_trades s + s_losing_trades s + s_breakeven_trades s
         + len (nan_pnl (roundtrips sample_transformer)) = s_total_roundtrips s.
Proof.
  destruct (get_statistics sample_transformer) as [[|s]|] eqn:E;
    [exfalso; vm_compute in E; discriminate | | exfalso; vm_compute in E; discriminate].
  exists s. split; [reflexivity|].
  pose proof (proj1 (statistics_counts sample_transformer s E)) as Hsum.
  vm_compute in E. injection E as <-.
  split; [reflexivity|]. split; [reflexivity|]. split; [reflexivity|]. exact Hsum.
Defined.

Lemma transform_trades_accounts_witness :
  exists rts s,
    transform_trades sample_trades = Some (rts, StatsOf s)
    /\ s_total_roundtrips s = 2 /\ s_open_positions s = 1 /\ s_unmatched_exits s = 1
    /\ 2 * s_total_roundtrips s + s_open_positions s + s_unmatched_exits s
       = len sample_trades.
Proof.
  destruct (transform_trades sample_trades) as [[rts [|s]]|] eqn:E;
    [exfalso; vm_compute in E; discriminate | | exfalso; vm_compute in E; discriminate].
  exists rts, s. split; [reflexivity|].
  pose proof (proj2 (transform_trades_accounts sample_trades rts (StatsOf s) E) s eq_refl)
    as [_ Hsum].
  vm_compute in E. injection E as <- <-.
  split; [reflexivity|]. split; [reflexivity|]. split; [reflexivity|]. exact Hsum.
Defined.

Lemma group_stats_tallies_witness :
  map fst (_group_stats String.eqb contract sample_roundtrips) = ["MNQ"; "MES"]%string
  /\ let groups := _group_stats String.eqb contract sample_roundtrips in
     NoDup (map fst groups)
     /\ (forall k, k ∈ map fst groups <-> exists rt, rt ∈ sample_roundtrips /\ contract rt = k)
     /\ (forall k g, (k, g) ∈ groups ->
           let mine := of_key String.eqb contract k sample_roundtrips in
           g_count g = len mine
           /\ g_wins g = len (winners_of mine)
           /\ g_losses g = len (losers_of mine)
           /\ g_pnl g = PyFloat.sum (map pnl mine))
     /\ total_count groups = len sample_roundtrips.
Proof.
  split; [reflexivity|].
  exact (group_stats_tallies String.eqb contract sample_roundtrips String.eqb_eq).
Defined.

End AggregateFacts.

(** ** The results written to Notion *)

Module ResultFacts.
Import Transformer Notion SyncSpec SyncFacts StatisticsSpec AggregateFacts ResultSpec.

Lemma page_result_cases (rt : Roundtrip) (acct : string) :
  p_result (page_of rt acct)
  = if PrimFloat.ltb PyFloat.fzero (pnl rt) then WIN
    else if PrimFloat.ltb (pnl rt) PyFloat.fzero then LOSS else BE.
Proof. reflexivity. Qed.

Lemma pages_with_classes (acct : string) (rts : list Roundtrip) :
  pages_with WIN acct rts = winners_of rts
  /\ pages_with LOSS acct rts = losers_of rts
  /\ len (pages_with BE acct rts) = len (breakeven_of rts) + len (nan_pnl rts).
Proof.
  unfold pages_with, winners_of, losers_of, breakeven_of, nan_pnl, len.
  induction rts as [|rt rts (IHw & IHl & IHb)]; [now repeat split|].
  cbn [List.filter]. rewrite (page_result_cases rt acct).
  pose proof (float_sign_cases (pnl rt)) as Hc. cbv zeta in Hc.
  unfold PyFloat.fzero in *.
  destruct (PrimFloat.is_nan (pnl rt)).
  - destruct Hc as (-> & -> & ->). cbn [result_eqb length].
    rewrite IHw, IHl. repeat split. lia.
  - destruct Hc as [(-> & -> & ->)|[(-> & -> & ->)|(-> & -> & ->)]];
      cbn [result_eqb length]; rewrite IHw, IHl; repeat split; lia.
Qed.

Lemma finite_not_nan (x : float) :
  PrimFloat.is_finite x = true -> PrimFloat.is_nan x = false.
Proof.
  unfold PrimFloat.is_finite. intros Hf. apply negb_true_iff, orb_false_iff in Hf.
  tauto.
Qed.

Lemma nan_not_sendable (rt : Roundtrip) :
  PrimFloat.is_nan (pnl rt) = true -> finite_numbers rt = false.
Proof.
  intros Hnan. unfold finite_numbers.
  assert (Hf : PrimFloat.is_finite (pnl rt) = false)
    by (unfold PrimFloat.is_finite; now rewrite Hnan).
  rewrite Hf. now rewrite !andb_false_r.
Qed.

(** X18: the [Result] sent to Notion agrees with the statistics.  When
    the numbers of the round trips of a transformer are all finite, so
    that every page can be sent, the round trips whose page says WIN are
    as many as the winning trades of [get_statistics], those whose page
    says LOSS as many as the losing trades and those whose page says BE as
    many as the break-even trades.  A round trip whose [pnl] is a NaN,
    which the statistics count in no class, is never written:
    [create_roundtrip_entry] fails on it without a request. *)
Theorem page_results_match_statistics (self : Transformer) (s : Statistics)
    (account_name : string) :
  get_statistics self = Some (StatsOf s) ->
  (Forall (fun rt => finite_numbers rt = true) (roundtrips self) ->
   len (pages_with WIN account_name (roundtrips self)) = s_winning_trades s
   /\ len (pages_with LOSS account_name (roundtrips self)) = s_losing_trades s
   /\ len (pages_with BE account_name (roundtrips self)) = s_breakeven_trades s)
  /\ (forall rt srv,
        PrimFloat.is_nan (pnl rt) = true ->
        create_roundtrip_entry rt account_name srv = (None, srv)).
Proof.
  intros Hs. split.
  - intros Hfinite.
    destruct (get_statistics_counts self s Hs) as (_ & -> & -> & -> & _).
    destruct (pages_with_classes account_name (roundtrips self)) as (-> & -> & ->).
    rewrite (nan_pnl_nil (roundtrips self));
      [repeat split; unfold len; cbn [length]; lia|].
    eapply Forall_impl; [exact Hfinite|]. cbn. intros rt Hrt.
    apply finite_not_nan. unfold finite_numbers in Hrt.
    repeat (apply andb_true_iff in Hrt as [Hrt ?]). assumption.
  - intros rt srv Hnan. unfold create_roundtrip_entry.
    rewrite encodable_page_of. now rewrite (nan_not_sendable rt Hnan).
Qed.

Import ReferenceRuntime Samples.

Lemma page_results_match_statistics_witness :
  exists s,
    get_statistics sample_transformer = Some (StatsOf s)
    /\ Forall (fun rt => finite_numbers rt = true) (roundtrips sample_transformer)
    /\ len (pages_with WIN "acct" (roundtrips sample_transformer)) = 1
    /\ len (pages_with WIN "acct" (roundtrips sample_transformer)) = s_winning_trades s
    /\ len (pages_with LOSS "acct" (roundtrips sample_transformer)) = s_losing_trades s
    /\ len (pages_with BE "acct" (roundtrips sample_transformer)) = s_breakeven_trades s
    /\ Forall (fun rt => create_roundtrip_entry rt "acct" fresh_server = (None, fresh_server))
         nan_roundtrips
    /\ length nan_roundtrips = 1%nat.
Proof.
  destruct (get_statistics sample_transformer) as [[|s]|] eqn:E;
    [exfalso; vm_compute in E; discriminate | | exfalso; vm_compute in E; discriminate].
  exists s. split; [reflexivity|].
  assert (Hfinite : Forall (fun rt => finite_numbers rt = true)
                      (roundtrips sample_transformer))
    by (vm_compute; repeat constructor).
  split; [exact Hfinite|]. split; [vm_compute; reflexivity|].
  destruct (page_results_match_statistics sample_transformer s "acct" E) as [Hcount Hnan].
  destruct (Hcount Hfinite) as (Hw & Hl & Hb).
  split; [exact Hw|]. split; [exact Hl|]. split; [exact Hb|].
  split; [|vm_compute; reflexivity].
  apply Forall_forall. intros rt Hrt. apply Hnan.
  apply list_elem_of_In in Hrt. vm_compute in Hrt.
  destruct Hrt as [<-|[]]. vm_compute. reflexivity.
Defined.

End ResultFacts.

(** ** The matcher: numbering and pairing per contract *)

Module PairingFacts.
Import Transformer MatcherSpec MatcherFacts.

(** *** The numbering of the round trips *)

Lemma ids_after_app (start : Z) (n m : nat) :
  ids_after start (n + m) = ids_after start n ++ ids_after (start + Z.of_nat n) m.
Proof.
  unfold ids_after. rewrite seq_app, map_app. f_equal.
  replace (1 + n)%nat with (n + 1)%nat by lia.
  rewrite <- (fmap_add_seq n 1 m). rewrite <- list_fmap_compose.
  apply map_ext. intros i. cbn. lia.
Qed.

Section Numbering.
Context `{PyRuntime}.

Lemma exits_loop_ids (cid : string) (exits : list Trade) :
  forall q run q' run',
    exits_loop cid exits (q, run) = Some (q', run') ->
    exists new,
      roundtrips (out run') = roundtrips (out run) ++ new
      /\ map roundtrip_id new = ids_after (next_id run) (length new)
      /\ next_id run' = next_id run + len new.
Proof.
  induction exits as [|ex exits IH]; intros q run q' run' Hloop.
  - injection Hloop as <- <-. exists []. rewrite app_nil_r. unfold len. cbn.
    repeat split. lia.
  - cbn [exits_loop] in Hloop. bind_inv Hloop.
    match goal with E : exit_step _ _ _ = Some ?st |- _ =>
      destruct st as [q1 run1]; rename E into Hstep end.
    destruct (IH _ _ _ _ Hloop) as (new & Hr & Hids & Hn).
    unfold exit_step in Hstep.
    destruct (take_entry q ex) as [[e q2]|] eqn:Etake.
    + bind_inv Hstep.
      match goal with E : _create_roundtrip _ _ _ _ = Some ?r |- _ =>
        rename E into Hc; rename r into rt end.
      injection Hstep as <- <-. cbn [out roundtrips next_id] in Hr, Hids, Hn.
      destruct (create_roundtrip_fields _ _ _ _ _ Hc) as (_&_&_&_&_&_&_&_& Hid).
      exists (rt :: new). rewrite Hr, <- app_assoc. split; [reflexivity|].
      split.
      * change (length (rt :: new)) with (1 + length new)%nat.
        rewrite ids_after_app. cbn [map]. rewrite Hid, Hids.
        unfold ids_after at 2. cbn. do 2 f_equal.
      * rewrite Hn. unfold len. cbn [length]. lia.
    + injection Hstep as <- <-. cbn [out roundtrips next_id] in Hr, Hids, Hn.
      exists new. now repeat split.
Qed.

Lemma contracts_loop_ids (groups : list (string * list Trade)) :
  forall run run',
    contracts_loop groups run = Some run' ->
    exists new,
      roundtrips (out run') = roundtrips (out run) ++ new
      /\ map roundtrip_id new = ids_after (next_id run) (length new)
      /\ next_id run' = next_id run + len new.
Proof.
  induction groups as [|[cid ts] groups IH]; intros run run' Hloop.
  - injection Hloop as <-. exists []. rewrite app_nil_r. unfold len. cbn.
    repeat split. lia.
  - cbn [contracts_loop] in Hloop. bind_inv Hloop.
    match goal with E : contract_step _ _ = Some ?r |- _ =>
      rename E into Hstep; rename r into run1 end.
    unfold contract_step in Hstep. bind_inv Hstep.
    match goal with E : exits_loop _ _ _ = Some ?st |- _ =>
      destruct st as [q' run0]; rename E into Hexits end.
    injection Hstep as <-.
    destruct (exits_loop_ids _ _ _ _ _ _ Hexits) as (n1 & Hr1 & Hi1 & Hn1).
    destruct (IH _ _ Hloop) as (n2 & Hr2 & Hi2 & Hn2).
    cbn [out roundtrips next_id] in Hr2, Hi2, Hn2.
    exists (n1 ++ n2). rewrite Hr2, Hr1, <- app_assoc. split; [reflexivity|].
    rewrite map_app, length_app, ids_after_app, Hi1, Hi2, Hn2, Hn1.
    unfold len. rewrite length_app. split; [reflexivity | lia].
Qed.

(** X13: the [roundtrip_id]s of the round trips [transform] returns are
    the numbers 1 to n, each once: the counter numbers the round trips in
    the order they are built (contract after contract), and the final sort
    by exit time only changes their places. *)
Theorem roundtrip_ids_enumerate (trades : list Trade) (st : Transformer) :
  transform trades = Some st ->
  map roundtrip_id (roundtrips st) ≡ₚ map Z.of_nat (seq 1 (length (roundtrips st))).
Proof.
  unfold transform. intros Ht. bind_inv Ht.
  match goal with E : contracts_loop _ _ = Some ?r |- _ =>
    rename E into Hloop; rename r into run end.
  injection Ht as <-. cbn [roundtrips].
  destruct (contracts_loop_ids _ _ _ Hloop) as (new & Hr & Hids & _).
  cbn [out roundtrips init next_id app] in Hr, Hids.
  pose proof (stable_sort_perm
    (fun a b => String.ltb (leg_timestamp (exit a)) (leg_timestamp (exit b)))
    (roundtrips (out run))) as Hsort.
  fold (sort_by_key (fun rt => leg_timestamp (exit rt)) (roundtrips (out run))) in Hsort.
  rewrite (Permutation_length Hsort), Hsort, Hr, Hids. unfold ids_after.
  now rewrite (map_ext (fun i => 0 + Z.of_nat i) Z.of_nat) by (intros; lia).
Qed.

End Numbering.

(** *** The groups have distinct keys *)

Lemma group_append_key (x k : string) (t : Trade) (groups : list (string * list Trade)) :
  x ∈ map fst (group_append k t groups) -> x = k \/ x ∈ map fst groups.
Proof.
  induction groups as [|[k' ts] groups IH]; cbn [group_append map fst].
  - intros Hx. apply list_elem_of_singleton in Hx. now left.
  - destruct (String.eqb k k'); cbn [map fst]; [now right|].
    intros Hx. apply elem_of_cons in Hx as [->|Hx].
    + right. constructor.
    + destruct (IH Hx) as [->|Hin]; [now left|]. right. now constructor.
Qed.

Lemma group_append_NoDup (k : string) (t : Trade) (groups : list (string * list Trade)) :
  NoDup (map fst groups) -> NoDup (map fst (group_append k t groups)).
Proof.
  induction groups as [|[k' ts] groups IH]; cbn [group_append map fst]; intros Hnd.
  - apply NoDup_singleton.
  - apply NoDup_cons in Hnd as [Hk' Hnd].
    destruct (String.eqb_spec k k') as [->|Hne]; cbn [map fst].
    + now apply NoDup_cons.
    + apply NoDup_cons. split; [|now apply IH].
      intros Hin. apply group_append_key in Hin as [->|Hin]; [congruence | now apply Hk'].
Qed.

Lemma group_by_contract_NoDup (trades : list Trade) :
  NoDup (map fst (group_by_contract trades)).
Proof.
  unfold group_by_contract.
  assert (Hgen : forall groups, NoDup (map fst groups) ->
            NoDup (map fst (fold_left (fun gs t => group_append (t_contractId t) t gs)
                                      trades groups))).
  { induction trades as [|t trades IH]; intros groups Hnd; [exact Hnd|].
    cbn [fold_left]. apply IH. now apply group_append_NoDup. }
  apply Hgen. constructor.
Qed.

Section Leftover.
Context `{PyRuntime}.

(** *** The queue and the unmatched exits of one contract *)

Lemma exits_loop_empty_queue (cid : string) (exits : list Trade) :
  forall run q' run',
    exits_loop cid exits ([], run) = Some (q', run') -> q' = [].
Proof.
  induction exits as [|ex exits IH]; intros run q' run' Hloop.
  - now injection Hloop as <- _.
  - cbn [exits_loop exit_step take_entry mbind option_bind] in Hloop.
    now apply IH in Hloop.
Qed.

(** An exit is left unmatched only when the queue is empty, and the queue
    stays empty from then on. *)
Lemma exits_loop_drained (cid : string) (exits : list Trade) :
  forall q run q' run',
    exits_loop cid exits (q, run) = Some (q', run') ->
    unmatched_exits (out run') = unmatched_exits (out run) \/ q' = [].
Proof.
  induction exits as [|ex exits IH]; intros q run q' run' Hloop.
  - injection Hloop as <- <-. now left.
  - cbn [exits_loop] in Hloop. bind_inv Hloop.
    match goal with E : exit_step _ _ _ = Some ?st |- _ =>
      destruct st as [q1 run1]; rename E into Hstep end.
    unfold exit_step in Hstep.
    destruct (take_entry q ex) as [[e q2]|] eqn:Etake.
    + bind_inv Hstep. injection Hstep as <- <-.
      destruct (IH _ _ _ _ Hloop) as [Hu|Hq]; [left; exact Hu | now right].
    + injection Hstep as <- <-. right.
      unfold take_entry in Etake. destruct q as [|front behind].
      * now apply exits_loop_empty_queue in Hloop.
      * destruct (_find_matching_entry _ _) as [[?|] ?]; discriminate.
Qed.

(** What the step of a contract adds to the open positions and to the
    unmatched exits: trades of the contract, and never to both lists. *)
Lemma contract_step_leftover (run run' : Run) (cid : string) (ts : list Trade) :
  Forall (fun t => t_contractId t = cid) ts ->
  contract_step run (cid, ts) = Some run' ->
  exists o u,
    open_positions (out run') = open_positions (out run) ++ o
    /\ unmatched_exits (out run') = unmatched_exits (out run) ++ u
    /\ Forall (fun t => t_contractId t = cid) o
    /\ Forall (fun t => t_contractId t = cid) u
    /\ (o = [] \/ u = []).
Proof.
  intros Hkey Hstep.
  destruct (contract_step_inv _ _ _ _ Hkey Hstep)
    as (pairs & u & o & (new & Hr & Hf & Hu & Ho) & Hpx & Hpe).
  exists o, u. split; [exact Ho|]. split; [exact Hu|].
  assert (Hsub : forall (f : Trade -> bool) l part,
            part ++ l ≡ₚ List.filter f ts -> Forall (fun t => t_contractId t = cid) l).
  { intros f l part Hp. apply Forall_forall. intros t Ht.
    rewrite Forall_forall in Hkey. apply Hkey, list_elem_of_In.
    assert (Hin : t ∈ List.filter f ts) by (rewrite <- Hp; apply elem_of_app; now right).
    apply list_elem_of_In, List.filter_In in Hin. tauto. }
  split; [exact (Hsub _ _ _ Hpe)|]. split; [exact (Hsub _ _ _ Hpx)|].
  unfold contract_step in Hstep. bind_inv Hstep.
  match goal with E : exits_loop _ _ _ = Some ?st |- _ =>
    destruct st as [q' run1]; rename E into Hloop end.
  injection Hstep as <-. cbn [out open_positions unmatched_exits] in Ho, Hu.
  pose proof (exits_loop_inv _ _ _ _ _ _ Hloop)
    as (pairs' & u' & (new' & _ & _ & Hu' & Ho') & _).
  rewrite app_nil_r in Ho'. rewrite Ho' in Ho. apply app_inv_head in Ho. subst o.
  destruct (exits_loop_drained _ _ _ _ _ _ Hloop) as [Hsame|Hq]; [right | now left].
  rewrite Hsame in Hu. rewrite <- (app_nil_r (unmatched_exits (out run))) in Hu at 1.
  now apply app_inv_head in Hu.
Qed.

Lemma contracts_loop_leftover (groups : list (string * list Trade)) :
  well_keyed groups -> NoDup (map fst groups) ->
  forall run run',
    contracts_loop groups run = Some run' ->
    exists o u,
      open_positions (out run') = open_positions (out run) ++ o
      /\ unmatched_exits (out run') = unmatched_exits (out run) ++ u
      /\ Forall (fun t => t_contractId t ∈ map fst groups) o
      /\ Forall (fun t => t_contractId t ∈ map fst groups) u
      /\ (forall p x, p ∈ o -> x ∈ u -> t_contractId p <> t_contractId x).
Proof.
  induction 1 as [|[cid ts] groups Hg Hgs IH]; intros Hnd run run' Hloop.
  - injection Hloop as <-. exists [], []. rewrite !app_nil_r.
    repeat split; try constructor. intros p x Hp. inversion Hp.
  - cbn [map fst] in Hnd. apply NoDup_cons in Hnd as [Hcid Hnd].
    cbn [fst snd] in Hg. cbn [contracts_loop] in Hloop. bind_inv Hloop.
    match goal with E : contract_step _ _ = Some ?r |- _ =>
      rename E into Hstep; rename r into run1 end.
    destruct (contract_step_leftover _ _ _ _ Hg Hstep) as (o1 & u1 & Ho1 & Hu1 & Fo1 & Fu1 & Hone).
    destruct (IH Hnd _ _ Hloop) as (o2 & u2 & Ho2 & Hu2 & Fo2 & Fu2 & Hdis).
    exists (o1 ++ o2), (u1 ++ u2).
    rewrite Ho2, Ho1, Hu2, Hu1, <- !app_assoc. split; [reflexivity|]. split; [reflexivity|].
    rewrite Forall_forall in Fo1, Fu1, Fo2, Fu2. cbn [map fst].
    split; [|split].
    + apply Forall_app. split; apply Forall_forall; intros t Ht.
      * rewrite (Fo1 t Ht). constructor.
      * right. now apply Fo2.
    + apply Forall_app. split; apply Forall_forall; intros t Ht.
      * rewrite (Fu1 t Ht). constructor.
      * right. now apply Fu2.
    + intros p x Hp Hx Heq.
      apply elem_of_app in Hp as [Hp|Hp], Hx as [Hx|Hx].
      * destruct Hone as [->| ->]; [inversion Hp | inversion Hx].
      * apply Hcid. rewrite <- (Fo1 p Hp), Heq. now apply Fu2.
      * apply Hcid. rewrite <- (Fu1 x Hx), <- Heq. now apply Fo2.
      * exact (Hdis p x Hp Hx Heq).
Qed.

Lemma transform_leftover (trades : list Trade) (st : Transformer) :
  transform trades = Some st ->
  forall p x, p ∈ open_positions st -> x ∈ unmatched_exits st ->
              t_contractId p <> t_contractId x.
Proof.
  unfold transform. intros Ht. bind_inv Ht.
  match goal with E : contracts_loop _ _ = Some ?r |- _ =>
    rename E into Hloop; rename r into run end.
  injection Ht as <-. cbn [open_positions unmatched_exits].
  destruct (group_by_contract_perm trades) as [_ Hkeyed].
  destruct (contracts_loop_leftover _ Hkeyed (group_by_contract_NoDup trades) _ _ Hloop)
    as (o & u & Ho & Hu & _ & _ & Hdis).
  cbn in Ho, Hu. rewrite Ho, Hu. exact Hdis.
Qed.

(** *** Counting per contract *)

Lemma built_from_on (c : string) (rts : list Roundtrip) (pairs : list (Trade * Trade)) :
  Forall2 built_from rts pairs ->
  length (roundtrips_on c rts) = length (on_contract c (map fst pairs))
  /\ length (roundtrips_on c rts) = length (on_contract c (map snd pairs)).
Proof.
  unfold roundtrips_on, on_contract.
  induction 1 as [|rt p rts pairs [Hsame Hc] _ [IH1 IH2]]; [now split|].
  destruct (create_roundtrip_fields _ _ _ _ _ Hc) as (_&_&_&_&_&_&_& Hcid & _).
  cbn [map List.filter]. rewrite Hcid, Hsame.
  destruct (String.eqb _ c); cbn [length]; split; congruence.
Qed.

Lemma on_contract_empty (c : string) (l other : list Trade) :
  (forall p x, p ∈ l -> x ∈ other -> t_contractId p <> t_contractId x) ->
  on_contract c l = [] \/ on_contract c other = [].
Proof.
  intros Hdis. unfold on_contract.
  destruct (List.filter _ l) as [|p l'] eqn:El; [now left|]. right.
  destruct (List.filter _ other) as [|x o'] eqn:Eo; [reflexivity|]. exfalso.
  assert (Hp : In p (List.filter (fun t => String.eqb (t_contractId t) c) l))
    by (rewrite El; now left).
  assert (Hx : In x (List.filter (fun t => String.eqb (t_contractId t) c) other))
    by (rewrite Eo; now left).
  apply List.filter_In in Hp as [Hp Hpc], Hx as [Hx Hxc].
  apply String.eqb_eq in Hpc, Hxc.
  apply (Hdis p x); [now apply list_elem_of_In | now apply list_elem_of_In | congruence].
Qed.

(** X14: per contract the matcher pairs as many legs as it can.  No
    contract is left with both an open position and an unmatched exit, and
    the round trips of a contract are as many as its opening legs or its
    closing legs, whichever are fewer (the matcher pairs legs whatever
    their times are). *)
Theorem pairs_per_contract (trades : list Trade) (st : Transformer) :
  transform trades = Some st ->
  (forall p x, p ∈ open_positions st -> x ∈ unmatched_exits st ->
               t_contractId p <> t_contractId x)
  /\ forall c,
       len (roundtrips_on c (roundtrips st))
       = Z.min (len (on_contract c (List.filter is_entry trades)))
               (len (on_contract c (List.filter is_exit trades))).
Proof.
  intros Ht. pose proof (transform_leftover trades st Ht) as Hdis.
  split; [exact Hdis|]. intros c.
  destruct (transform_inv trades st Ht) as (pairs & Hf & Hx & He).
  destruct (built_from_on c _ _ Hf) as [Hfst Hsnd].
  apply (filter_perm (fun t => String.eqb (t_contractId t) c)), Permutation_length in Hx, He.
  rewrite List.filter_app, length_app in Hx, He.
  fold (on_contract c (map snd pairs)) (on_contract c (unmatched_exits st))
       (on_contract c (List.filter is_exit trades)) in Hx.
  fold (on_contract c (map fst pairs)) (on_contract c (open_positions st))
       (on_contract c (List.filter is_entry trades)) in He.
  unfold len.
  destruct (on_contract_empty c _ _ Hdis) as [Ho|Hu].
  - rewrite Ho in He. cbn [length] in He. lia.
  - rewrite Hu in Hx. cbn [length] in Hx. lia.
Qed.

End Leftover.

Import ReferenceRuntime Samples.

Lemma roundtrip_ids_enumerate_witness :
  transform sample_trades = Some sample_transformer
  /\ map roundtrip_id (roundtrips sample_transformer) = [1; 2]
  /\ map roundtrip_id (roundtrips sample_transformer)
       ≡ₚ map Z.of_nat (seq 1 (length (roundtrips sample_transformer))).
Proof.
  assert (E : transform sample_trades = Some sample_transformer)
    by (vm_compute; reflexivity).
  split; [exact E|]. split; [vm_compute; reflexivity|].
  exact (roundtrip_ids_enumerate sample_trades sample_transformer E).
Defined.

Lemma pairs_per_contract_witness :
  transform sample_trades = Some sample_transformer
  /\ (forall p x, p ∈ open_positions sample_transformer ->
                  x ∈ unmatched_exits sample_transformer ->
                  t_contractId p <> t_contractId x)
  /\ forall c,
       len (roundtrips_on c (roundtrips sample_transformer))
       = Z.min (len (on_contract c (List.filter is_entry sample_trades)))
               (len (on_contract c (List.filter is_exit sample_trades))).
Proof.
  assert (E : transform sample_trades = Some sample_transformer)
    by (vm_compute; reflexivity).
  split; [exact E|].
  exact (pairs_per_contract sample_trades sample_transformer E).
Defined.

End PairingFacts.

(** ** A synchronisation run *)

Module PipelineFacts.
Import Transformer Notion SyncSpec SyncFacts SyncApp PipelineSpec.

Lemma accepted_length (rts : list Roundtrip) (ans : list bool) :
  length ans = length rts -> len (accepted rts ans) = count (fun b => b) ans.
Proof.
  unfold count, len. revert ans.
  induction rts as [|rt rts IH]; intros [|[] ans] Hlen; try discriminate; try reflexivity;
    injection Hlen as Hlen; cbn [accepted List.filter length];
    specialize (IH ans Hlen); lia.
Qed.

(** A pass that returns its triple has added as many pages as it counts
    as created. *)
Lemma sync_pages_created (rts : list Roundtrip) (acct : string) (skip : bool)
    (srv srv' : Server) (stats : SyncStats) :
  sync_roundtrips rts acct skip srv = (Some stats, srv') ->
  exists new, pages srv' = pages srv ++ new /\ len new = created stats.
Proof.
  unfold sync_roundtrips.
  destruct (if skip then _ else _) as [[existing|] srv1] eqn:Hfetch; [|discriminate].
  destruct (fold_left _ _ _) as [stats' srv2] eqn:Hfold. intros [= <- <-].
  apply sync_fold_spec in Hfold as (_ & Hc & _ & _ & _ & Hp). cbn in Hc.
  assert (Hsame : pages srv1 = pages srv).
  { destruct skip; [|now injection Hfetch as _ <-].
    unfold get_existing_roundtrip_ids in Hfetch.
    destruct (query_database srv) as [[ps|] srv0] eqn:Hq; [|discriminate].
    injection Hfetch as _ <-. now apply query_database_some in Hq as (_ & Hp' & _). }
  eexists. split; [rewrite Hp, Hsame; reflexivity|].
  unfold len at 1. rewrite length_map.
  fold (len (accepted (sendable (attempted existing rts))
               (answers srv1 (length (sendable (attempted existing rts)))))).
  rewrite accepted_length by apply answers_length. now rewrite Hc.
Qed.

(** A pass whose existence query fails leaves the pages as they are. *)
Lemma sync_failed_query (rts : list Roundtrip) (acct : string) (skip : bool)
    (srv srv' : Server) :
  sync_roundtrips rts acct skip srv = (None, srv') -> pages srv' = pages srv.
Proof.
  unfold sync_roundtrips. destruct skip.
  - unfold get_existing_roundtrip_ids.
    destruct (query_database srv) as [[ps|] srv0] eqn:Hq.
    + destruct (fold_left _ _ _). discriminate.
    + intros [= <-]. unfold query_database in Hq.
      now apply query_loop_none in Hq as [-> _].
  - destruct (fold_left _ _ _). discriminate.
Qed.

Section Run.
Context `{PyRuntime}.

Lemma progress_refl (st : TotalStats * Gateway * Server) : progress 0 st st.
Proof.
  destruct st as [[t gw] srv]. unfold progress.
  repeat split; try lia.
  exists []. split; [now rewrite app_nil_r | unfold len; cbn; lia].
Qed.

Lemma account_step_progress (st : TotalStats * Gateway * Server) (account : Account) :
  progress 1 st (account_step st account).
Proof.
  destruct st as [[t gw] srv]. unfold account_step, get_trades.
  assert (Hnone : forall t', ts_roundtrips t' = ts_roundtrips t ->
            ts_created t' = ts_created t -> ts_skipped t' = ts_skipped t ->
            (ts_errors t' = ts_errors t \/ ts_errors t' = ts_errors t + 1) ->
            progress 1 (t, gw, srv)
              (t', {| searches := S (searches gw); answer := answer gw |}, srv)).
  { intros t' Hr Hc Hs He. unfold progress. rewrite Hr, Hc, Hs. cbn [searches answer].
    repeat split; try lia.
    exists []. split; [now rewrite app_nil_r | unfold len; cbn; lia]. }
  destruct (answer gw (searches gw) (acc_id account)) as [[|t0 trades]|];
    [apply Hnone; auto .. | | apply Hnone; cbn; auto].
  destruct (transform (t0 :: trades)) as [transformer|]; [|apply Hnone; cbn; auto].
  destruct (roundtrips transformer) as [|rt rts] eqn:Erts; [apply Hnone; auto|].
  destruct (sync_roundtrips (rt :: rts) (acc_name account) true srv)
    as [[r|] srv'] eqn:Hsync.
  - destruct (sync_counts_total _ _ _ _ _ _ Hsync) as (Hsum & Hc & Hs & He).
    destruct (sync_pages_created _ _ _ _ _ _ Hsync) as (new & Hp & Hn).
    unfold progress. cbn [add_result add_roundtrips ts_roundtrips ts_created
      ts_skipped ts_errors searches answer].
    assert (0 <= len (rt :: rts)) by (unfold len; lia).
    repeat split; try lia. exists new. split; [exact Hp | lia].
  - apply sync_failed_query in Hsync.
    unfold progress. cbn [add_error add_roundtrips ts_roundtrips ts_created
      ts_skipped ts_errors searches answer].
    assert (0 <= len (rt :: rts)) by (unfold len; lia).
    repeat split; try lia. exists []. split; [now rewrite app_nil_r, Hsync | unfold len; cbn; lia].
Qed.

Lemma progress_trans (n m : nat) (a b c : TotalStats * Gateway * Server) :
  progress n a b -> progress m b c -> progress (n + m) a c.
Proof.
  destruct a as [[ta gwa] sa], b as [[tb gwb] sb], c as [[tc gwc] sc].
  unfold progress.
  intros (R1 & C1 & S1 & E1 & L1 & Z1 & T1 & (new1 & P1 & N1) & G1 & A1)
         (R2 & C2 & S2 & E2 & L2 & Z2 & T2 & (new2 & P2 & N2) & G2 & A2).
  repeat split; try lia.
  - exists (new1 ++ new2). split; [now rewrite P2, P1, app_assoc|].
    unfold len in *. rewrite length_app. lia.
  - congruence.
Qed.

Lemma fold_progress (accounts : list Account) (st : TotalStats * Gateway * Server) :
  progress (length accounts) st (fold_left account_step accounts st).
Proof.
  revert st. induction accounts as [|account accounts IH]; intros st.
  - apply progress_refl.
  - cbn [fold_left length].
    exact (progress_trans 1 _ _ _ _ (account_step_progress st account) (IH _)).
Qed.

(** X12: the totals of a synchronisation run, whatever the gateway and the
    Notion service answer.  Every account is asked for its trades once (an
    account that fails does not stop the others); the pages added to the
    database are as many as the total reports as created; the round trips
    created or skipped are among those counted, and all of them when the
    run counts no error. *)
Theorem sync_async_totals (accounts : list Account) (gw : Gateway) (srv : Server) :
  let '(total_stats, gw', srv') := _sync_async accounts gw srv in
  searches gw' = (searches gw + length accounts)%nat
  /\ (exists new, pages srv' = pages srv ++ new /\ len new = ts_created total_stats)
  /\ 0 <= ts_created total_stats /\ 0 <= ts_skipped total_stats
  /\ 0 <= ts_errors total_stats
  /\ ts_created total_stats + ts_skipped total_stats <= ts_roundtrips total_stats
  /\ (ts_errors total_stats = 0 ->
      ts_created total_stats + ts_skipped total_stats = ts_roundtrips total_stats)
  /\ ts_created total_stats + ts_skipped total_stats + ts_errors total_stats
     <= ts_roundtrips total_stats + len accounts.
Proof.
  unfold _sync_async.
  pose proof (fold_progress accounts (total_init, gw, srv)) as Hp.
  destruct (fold_left account_step accounts (total_init, gw, srv)) as [[t gw'] srv'].
  unfold progress in Hp. cbn [total_init ts_roundtrips ts_created ts_skipped ts_errors] in Hp.
  destruct Hp as (R & C & S & E & L & Z0 & T & (new & P & N) & G & _).
  repeat split; try lia; [|unfold len; lia].
  exists new. split; [exact P | lia].
Qed.

End Run.

End PipelineFacts.

(** ** The pace of the scheduler *)

Module TimingFacts.
Import Scheduler SchedulerSpec TimingSpec.

Lemma step_paced (n : Z) (sys sys' : System) (ev : Event) :
  not_start ev -> paced n sys -> step sys ev = Some sys' -> paced n sys'.
Proof.
  intros Hev (Hn & pc & Hth & Hserved & Hpc) Hstep.
  destruct ev as [m| |d|tid]; cbn [step] in Hstep.
  - destruct Hev.
  - injection Hstep as <-. split; [exact Hn|]. exists pc. now repeat split.
  - destruct (Z.ltb_spec d 0); [discriminate|]. injection Hstep as <-.
    split; [exact Hn|]. exists pc. split; [exact Hth|]. cbn [now fired].
    split; [lia|]. destruct pc; try exact I; lia.
  - rewrite Hth in Hstep. destruct tid as [|tid]; [|discriminate].
    cbn [lookup list_lookup mbind option_bind] in Hstep.
    destruct (_run_loop_step (now sys) (mgr sys) pc (fired sys))
      as [[[m pc'] calls]|] eqn:Hrun; [|discriminate].
    cbn [mbind option_bind] in Hstep. injection Hstep as <-.
    cbn [mgr threads now fired].
    assert (Hm : interval_minutes m = n /\ on_time n calls (now sys) pc').
    { unfold on_time in *. cbv zeta in *.
      destruct pc; cbn [_run_loop_step] in Hrun.
      - injection Hrun as <- <- <-. split; [exact Hn|].
        destruct (loop_condition (mgr sys)); now split.
      - injection Hrun as <- <- <-. cbn [interval_minutes]. now split.
      - injection Hrun as <- <- <-. split; [exact Hn|]. split; [exact Hserved|].
        rewrite Hn. lia.
      - destruct (Z.leb_spec rounds 0).
        + injection Hrun as <- <- <-. split; [exact Hn|]. split; [exact Hserved|].
          unfold second in *. lia.
        + destruct (stop_event (mgr sys)); injection Hrun as <- <- <-.
          * now split.
          * split; [exact Hn|]. split; [exact Hserved|]. lia.
      - destruct (Z.leb_spec wake (now sys)); [|discriminate].
        injection Hrun as <- <- <-. split; [exact Hn|]. split; [exact Hserved|].
        unfold second in *. lia.
      - injection Hrun as <- <- <-. split; [exact Hn|].
        destruct (loop_condition (mgr sys)); now split.
      - injection Hrun as <- <- <-. split; [exact Hn|].
        rewrite Nat2Z.inj_succ, Z.mul_succ_l. split; [lia | exact I].
      - discriminate. }
    destruct Hm as [Hn' Hon]. split; [exact Hn'|]. exists pc'. now split.
Qed.

Lemma run_paced (n : Z) (trace : list Event) :
  forall sys sys',
    Forall not_start trace -> paced n sys -> run sys trace = Some sys' -> paced n sys'.
Proof.
  induction trace as [|ev trace IH]; intros sys sys' Htrace Hp Hrun.
  - now injection Hrun as <-.
  - apply Forall_cons in Htrace as [Hev Htrace]. cbn [run] in Hrun.
    destruct (step sys ev) as [sys1|] eqn:Hstep; [|discriminate].
    cbn [mbind option_bind] in Hrun.
    exact (IH _ _ Htrace (step_paced n _ _ _ Hev Hp Hstep) Hrun).
Qed.

(** X16: the callback is not called more often than the interval allows.
    After [start(n)] on a fresh manager, whatever the loop thread and the
    clock do and whether [stop] is called or not, as long as [start] is not
    called again: when the callback has been called k times, at least
    k times n minutes have passed since the start. *)
Theorem callback_pace (n : Z) (trace : list Event) (sys' : System) :
  Forall not_start trace ->
  run (start n boot) trace = Some sys' ->
  Z.of_nat (fired sys') * (n * 60 * second) <= now sys'.
Proof.
  intros Htrace Hrun.
  assert (Hboot : paced n (start n boot)).
  { split; [reflexivity|]. exists AtWhile. split; [reflexivity|].
    unfold on_time. cbn. lia. }
  destruct (run_paced n trace _ _ Htrace Hboot Hrun) as (_ & pc & _ & Hserved & _).
  exact Hserved.
Qed.

Lemma callback_pace_witness :
  run (start 1 boot) first_minute = Some after_first_minute
  /\ fired after_first_minute = 1%nat
  /\ now after_first_minute = 60 * second
  /\ Z.of_nat (fired after_first_minute) * (1 * 60 * second) <= now after_first_minute.
Proof.
  assert (E : run (start 1 boot) first_minute = Some after_first_minute)
    by (vm_compute; reflexivity).
  split; [exact E|]. split; [vm_compute; reflexivity|]. split; [vm_compute; reflexivity|].
  apply (callback_pace 1 first_minute after_first_minute); [|exact E].
  assert (Hb : forallb (fun ev => match ev with CallStart _ => false | _ => true end)
                       first_minute = true) by (vm_compute; reflexivity).
  apply Forall_forall. intros ev Hev. apply list_elem_of_In in Hev.
  rewrite forallb_forall in Hb. specialize (Hb ev Hev).
  destruct ev; [discriminate Hb | exact I ..].
Defined.

End TimingFacts.

(** ** The account list *)

Module AccountListFacts.
Import Transformer MatcherFacts SyncApp AccountList AccountListSpec.

(** *** The blocks *)

Lemma add_section_nil (header : string) (limit : nat)
    (st : list string * option string) :
  add_section header limit [] st = st.
Proof. now destruct st. Qed.

Lemma add_section_lines (header : string) (limit : nat) (items : list (Z * string))
    (st : list string * option string) (v : string) :
  v ∈ fst (add_section header limit items st) ->
  v ∈ fst st \/ v = header \/ exists item, item ∈ items /\ v = snd item.
Proof.
  destruct st as [all_items first_account]. unfold add_section.
  destruct items as [|item0 items]; [now left|]. cbn [fst].
  intros Hv. apply elem_of_app in Hv as [Hv|Hv]; [now left|]. right.
  apply elem_of_cons in Hv as [->|Hv]; [now left|]. right.
  apply list_elem_of_fmap in Hv as (item & -> & Hitem).
  exists item. split; [|reflexivity]. eapply subseteq_take, Hitem.
Qed.

Lemma add_section_keeps (header : string) (limit : nat) (items : list (Z * string))
    (st : list string * option string) (v : string) :
  v ∈ fst st -> v ∈ fst (add_section header limit items st).
Proof.
  destruct st as [all_items first_account]. unfold add_section.
  destruct items as [|item0 items]; [auto|]. cbn [fst].
  intros Hv. apply elem_of_app. now left.
Qed.

Lemma add_section_all (header : string) (limit : nat) (items : list (Z * string))
    (st : list string * option string) (item : Z * string) :
  (length items <= limit)%nat -> item ∈ items ->
  snd item ∈ fst (add_section header limit items st).
Proof.
  destruct st as [all_items first_account]. unfold add_section.
  intros Hlen Hitem. destruct items as [|item0 items]; [inversion Hitem|]. cbn [fst].
  apply elem_of_app. right. right.
  rewrite take_ge by exact Hlen. now apply list_elem_of_fmap_2.
Qed.

Lemma add_section_length (header : string) (limit : nat) (items : list (Z * string))
    (st : list string * option string) :
  (length (fst (add_section header limit items st)) <= length (fst st) + S limit)%nat.
Proof.
  destruct st as [all_items first_account]. unfold add_section.
  destruct items as [|item0 items]; cbn [fst]; [lia|].
  rewrite length_app. cbn [length]. rewrite length_map, length_take. lia.
Qed.

Lemma add_section_start (pool : list (Z * string)) (header : string) (limit : nat)
    (items : list (Z * string)) :
  is_header header = true -> items <> [] -> (0 < limit)%nat ->
  (forall item, item ∈ items -> item ∈ pool) ->
  first_line pool (add_section header limit items ([], None)).
Proof.
  intros Hh Hne Hlimit Hpool. unfold add_section.
  destruct items as [|item0 items]; [congruence|].
  destruct limit as [|limit]; [lia|]. cbn [take map head app].
  exists header, item0, (map snd (take limit items)).
  repeat split; [exact Hh | apply Hpool; constructor].
Qed.

Lemma add_section_go (pool : list (Z * string)) (header : string) (limit : nat)
    (items : list (Z * string)) (st : list string * option string) :
  first_line pool st -> first_line pool (add_section header limit items st).
Proof.
  destruct st as [all_items first_account].
  intros (h & item & rest & Hfst & Hsnd & Hh & Hpool). cbn [fst snd] in Hfst, Hsnd.
  subst all_items first_account. unfold add_section.
  destruct items as [|item0 items]; [now exists h, item, rest|].
  exists h, item, (rest ++ header :: map snd (take limit (item0 :: items))).
  now repeat split.
Qed.

Lemma sections_first_line (pool express combine practice : list (Z * string)) :
  express ++ combine ++ practice <> [] ->
  (forall item, item ∈ express ++ combine ++ practice -> item ∈ pool) ->
  first_line pool (sections express combine practice).
Proof.
  intros Hne Hpool. unfold sections.
  destruct express as [|e0 es].
  - rewrite add_section_nil. destruct combine as [|c0 cs].
    + rewrite add_section_nil. cbn [app] in Hne, Hpool.
      apply add_section_start; [reflexivity | exact Hne | lia | exact Hpool].
    + apply add_section_go, add_section_start; [reflexivity | discriminate | lia |].
      intros item Hitem. apply Hpool. rewrite !elem_of_app. tauto.
  - apply add_section_go, add_section_go, add_section_start;
      [reflexivity | discriminate | lia |].
    intros item Hitem. apply Hpool. rewrite !elem_of_app. tauto.
Qed.

Lemma sections_lines (express combine practice : list (Z * string)) (v : string) :
  v ∈ fst (sections express combine practice) ->
  is_header v = true
  \/ exists item, item ∈ express ++ combine ++ practice /\ v = snd item.
Proof.
  unfold sections. intros Hv.
  apply add_section_lines in Hv as [Hv|[->|(item & Hi & ->)]]; [|now left|].
  - apply add_section_lines in Hv as [Hv|[->|(item & Hi & ->)]]; [|now left|].
    + apply add_section_lines in Hv as [Hv|[->|(item & Hi & ->)]];
        [inversion Hv | now left|].
      right. exists item. rewrite !elem_of_app. tauto.
    + right. exists item. rewrite !elem_of_app. tauto.
  - right. exists item. rewrite !elem_of_app. tauto.
Qed.

Lemma sections_length (express combine practice : list (Z * string)) :
  (length (fst (sections express combine practice)) <= 23)%nat.
Proof.
  unfold sections.
  pose proof (add_section_length "━━ エクスプレス ━━" 10 express ([], None)) as L1.
  pose proof (add_section_length "━━ コンバイン ━━" 5 combine
                (add_section "━━ エクスプレス ━━" 10 express ([], None))) as L2.
  pose proof (add_section_length "━━ プラクティス ━━" 5 practice
                (add_section "━━ コンバイン ━━" 5 combine
                   (add_section "━━ エクスプレス ━━" 10 express ([], None)))) as L3.
  cbn [fst length] in L1. lia.
Qed.

Lemma sections_all (express combine practice : list (Z * string)) (item : Z * string) :
  (length express <= 10)%nat -> (length combine <= 5)%nat -> (length practice <= 5)%nat ->
  item ∈ express ++ combine ++ practice ->
  snd item ∈ fst (sections express combine practice).
Proof.
  intros H1 H2 H3 Hitem. unfold sections.
  rewrite !elem_of_app in Hitem. destruct Hitem as [Hi|[Hi|Hi]].
  - now apply add_section_keeps, add_section_keeps, add_section_all.
  - now apply add_section_keeps, add_section_all.
  - now apply add_section_all.
Qed.

Lemma sort_by_id_desc_perm (items : list (Z * string)) :
  sort_by_id_desc items ≡ₚ items.
Proof. apply stable_sort_perm. Qed.

Section Listing.
Context `{PyRuntime} `{PyFormat}.

(** *** The three lists *)

(** The loop puts the item of each account in one of the three lists. *)
Lemma classify_step_items (ls : Lists) (acc : Account) :
  express (classify_step ls acc) ++ combine (classify_step ls acc)
    ++ practice (classify_step ls acc)
  ≡ₚ (acc_id acc, display acc) :: express ls ++ combine ls ++ practice ls.
Proof.
  assert (Hfront : forall (item : Z * string) e c p,
            (e ++ [item]) ++ c ++ p ≡ₚ item :: e ++ c ++ p).
  { intros item e c p. rewrite <- app_assoc. cbn [app]. now rewrite <- Permutation_middle. }
  assert (Hmid : forall (item : Z * string) e c p,
            e ++ (c ++ [item]) ++ p ≡ₚ item :: e ++ c ++ p).
  { intros item e c p. rewrite <- app_assoc. cbn [app].
    rewrite (app_assoc e c). rewrite <- Permutation_middle. now rewrite <- app_assoc. }
  assert (Hback : forall (item : Z * string) e c p,
            e ++ c ++ p ++ [item] ≡ₚ item :: e ++ c ++ p).
  { intros item e c p. rewrite !app_assoc. now rewrite <- Permutation_cons_append. }
  unfold classify_step.
  destruct (PyStr.contains "EXPRESS" _); [|destruct (PyStr.contains "KTC" _);
    [|destruct (PyStr.contains "PRACTICE" _ || PyStr.contains "PRAC-" _)]];
    cbn [express combine practice]; auto.
Qed.

Lemma classify_items (accounts : list Account) (ls : Lists) :
  let ls' := fold_left classify_step accounts ls in
  express ls' ++ combine ls' ++ practice ls'
  ≡ₚ (express ls ++ combine ls ++ practice ls)
     ++ map (fun acc => (acc_id acc, display acc)) accounts.
Proof.
  cbv zeta. revert ls. induction accounts as [|acc accounts IH]; intros ls.
  - cbn. now rewrite app_nil_r.
  - cbn [fold_left map]. rewrite IH, classify_step_items.
    cbn [app]. now rewrite <- Permutation_middle.
Qed.

Lemma display_nonempty (acc : Account) : display acc <> "".
Proof.
  unfold display. destruct (acc_name acc); discriminate.
Qed.

Lemma find_display (accounts : list Account) (acc : Account) :
  acc ∈ accounts ->
  exists found,
    List.find (fun a => String.eqb (display a) (display acc)) accounts = Some found
    /\ found ∈ accounts /\ display found = display acc.
Proof.
  intros Hacc.
  destruct (List.find _ accounts) as [found|] eqn:Hfind.
  - apply find_some in Hfind as [Hin Heq]. exists found.
    split; [reflexivity|]. split; [now apply list_elem_of_In | now apply String.eqb_eq].
  - apply list_elem_of_In in Hacc.
    pose proof (find_none _ _ Hfind acc Hacc) as Hne. cbn in Hne.
    now rewrite String.eqb_refl in Hne.
Qed.

(** X17: the account list and the selection.  After
    [_update_account_list] on a non-empty list of accounts, every line of
    the combo box that is no header is the line of an account, and
    [get_selected_account] finds for it an account with that line (the
    first one, when several accounts have the same name and balance); the
    box holds at most 23 lines (three headers, ten Express, five Combine
    and five Practice accounts), so that accounts beyond these are not
    offered; with five accounts or fewer every account has its line; and
    the selection is set to the first account under the first header. *)
Theorem account_list_resolves (accounts : list Account) (account_combo : Combo) :
  accounts <> [] ->
  (forall v,
      v ∈ values (_update_account_list accounts account_combo) ->
      is_header v = false ->
      exists acc,
        get_selected_account accounts v = Some acc
        /\ acc ∈ accounts /\ display acc = v)
  /\ (length (values (_update_account_list accounts account_combo)) <= 23)%nat
  /\ ((length accounts <= 5)%nat ->
      forall acc, acc ∈ accounts ->
        display acc ∈ values (_update_account_list accounts account_combo))
  /\ exists header acc rest,
       values (_update_account_list accounts account_combo)
         = header :: display acc :: rest
       /\ is_header header = true /\ acc ∈ accounts
       /\ account_var (_update_account_list accounts account_combo) = display acc.
Proof.
  intros Hne. unfold _update_account_list.
  destruct accounts as [|acc0 accounts0] eqn:Eacc; [congruence|]. rewrite <- Eacc in *.
  pose proof (classify_items accounts {| express := []; combine := []; practice := [] |})
    as Hitems. cbv zeta in Hitems. cbn [express combine practice app] in Hitems.
  set (ls := fold_left classify_step accounts
               {| express := []; combine := []; practice := [] |}) in *.
  set (pool := map (fun acc => (acc_id acc, display acc)) accounts) in *.
  assert (Hsorted : sort_by_id_desc (express ls) ++ sort_by_id_desc (combine ls)
                      ++ sort_by_id_desc (practice ls) ≡ₚ pool)
    by now rewrite !sort_by_id_desc_perm.
  assert (Hpool : forall item, item ∈ pool ->
            exists acc, acc ∈ accounts /\ snd item = display acc).
  { intros item Hitem. apply list_elem_of_fmap in Hitem as (acc & -> & Hacc). now exists acc. }
  change (add_section "━━ プラクティス ━━" 5 (sort_by_id_desc (practice ls))
            (add_section "━━ コンバイン ━━" 5 (sort_by_id_desc (combine ls))
               (add_section "━━ エクスプレス ━━" 10 (sort_by_id_desc (express ls))
                  ([], None))))
    with (sections (sort_by_id_desc (express ls)) (sort_by_id_desc (combine ls))
            (sort_by_id_desc (practice ls))).
  pose proof (sections_lines (sort_by_id_desc (express ls)) (sort_by_id_desc (combine ls))
                (sort_by_id_desc (practice ls))) as Hlines.
  pose proof (sections_length (sort_by_id_desc (express ls)) (sort_by_id_desc (combine ls))
                (sort_by_id_desc (practice ls))) as Hlength.
  pose proof (sections_all (sort_by_id_desc (express ls)) (sort_by_id_desc (combine ls))
                (sort_by_id_desc (practice ls))) as Hall.
  pose proof (sections_first_line pool (sort_by_id_desc (express ls))
                (sort_by_id_desc (combine ls)) (sort_by_id_desc (practice ls))) as Hfirst.
  destruct (sections _ _ _) as [all_items first_account]. cbn [fst snd values account_var] in *.
  split; [|split; [|split]].
  - intros v Hv Hhead. destruct (Hlines v Hv) as [Hh|(item & Hitem & ->)]; [congruence|].
    rewrite Hsorted in Hitem. destruct (Hpool item Hitem) as (acc & Hacc & Hd).
    rewrite Hd in *.
    destruct (find_display accounts acc Hacc) as (found & Hfind & Hin & Hfd).
    exists found. split; [|now split]. unfold get_selected_account.
    destruct (display acc) eqn:Ed; [now destruct (display_nonempty acc)|].
    rewrite <- Ed in *. now rewrite Hhead.
  - exact Hlength.
  - intros Hfew acc Hacc.
    assert (Hlen : (length (sort_by_id_desc (express ls))
                    + length (sort_by_id_desc (combine ls))
                    + length (sort_by_id_desc (practice ls)) = length accounts)%nat).
    { apply Permutation_length in Hsorted. rewrite !length_app in Hsorted.
      unfold pool in Hsorted. rewrite length_map in Hsorted. lia. }
    apply (Hall (acc_id acc, display acc)); try lia.
    rewrite Hsorted. unfold pool.
    now apply (list_elem_of_fmap_2 (fun acc => (acc_id acc, display acc))).
  - destruct Hfirst as (header & item & rest & Hv & Hf & Hh & Hitem).
    + intros Hnil. rewrite Hnil in Hsorted.
      apply Permutation_nil in Hsorted. unfold pool in Hsorted.
      rewrite Eacc in Hsorted. discriminate.
    + intros item Hitem. now rewrite <- Hsorted.
    + cbn [fst snd] in Hv, Hf. subst all_items first_account.
      destruct (Hpool item Hitem) as (acc & Hacc & Hd). rewrite Hd.
      exists header, acc, rest. split; [reflexivity|]. split; [exact Hh|].
      split; [exact Hacc|].
      destruct (display acc) eqn:Ed; [now destruct (display_nonempty acc) | reflexivity].
Qed.

End Listing.

Import ReferenceRuntime ReferenceFormat.

Lemma account_list_resolves_witness :
  values (_update_account_list sample_accounts empty_combo)
    = ["━━ エクスプレス ━━"; "express-v2-140427-27209524 - $50,000.00";
       "━━ コンバイン ━━"; "50KTC-V2-140427-111 - $49,850.25";
       "━━ プラクティス ━━"; "PRAC-V2-140427-5 - $150,000.50"]%string
  /\ account_var (_update_account_list sample_accounts empty_combo)
       = "express-v2-140427-27209524 - $50,000.00"%string
  /\ (forall v,
        v ∈ values (_update_account_list sample_accounts empty_combo) ->
        is_header v = false ->
        exists acc,
          get_selected_account sample_accounts v = Some acc
          /\ acc ∈ sample_accounts /\ display acc = v)
  /\ (length (values (_update_account_list sample_accounts empty_combo)) <= 23)%nat.
Proof.
  split; [vm_compute; reflexivity|]. split; [vm_compute; reflexivity|].
  pose proof (account_list_resolves sample_accounts empty_combo ltac:(discriminate))
    as (Hsel & Hlen & _).
  split; [exact Hsel | exact Hlen].
Defined.

End AccountListFacts.
